(** * web-bignum: a shallow embedding of [bignum.cpp] and its verification

    The C++ class [BigNum] stores a magnitude as a little-endian vector of
    64-bit words together with a sign flag.  The embedding below follows
    [bignum-cpp/src/bignum.cpp] function by function:

    - [uint64_t] and [__uint128_t] values are integers of [Z] with the
      wrap-around written out ([u64], [u128]);
    - [std::vector<uint64_t>] is [list Z], least significant word first;
    - a C++ exception is the [Err] outcome of the [result] type, and a loop
      whose trip count is not bounded by its data is run on a [fuel]
      counter, [OutOfFuel] standing for "still running". *)

From Stdlib Require Import String Ascii.
From Stdlib Require Import ZArith List Bool Lia.
Import ListNotations.
Local Open Scope Z_scope.

(** ** Machine integers *)

Definition u8 (z : Z) : Z := z mod 2 ^ 8.
Definition u64 (z : Z) : Z := z mod 2 ^ 64.
Definition u128 (z : Z) : Z := z mod 2 ^ 128.

Definition UINT64_MAX : Z := 2 ^ 64 - 1.
Definition INT64_MAX : Z := 2 ^ 63 - 1.
Definition INT64_MIN : Z := - 2 ^ 63.

(** [static_cast<int64_t>] and the implicit [size_t -> int] conversion:
    two's complement wrap-around. *)
Definition to_int64 (z : Z) : Z :=
  let w := z mod 2 ^ 64 in if w <? 2 ^ 63 then w else w - 2 ^ 64.

Definition to_int (z : Z) : Z :=
  let w := z mod 2 ^ 32 in if w <? 2 ^ 31 then w else w - 2 ^ 32.

(** ** Outcomes: a value, a thrown exception, or a loop that has not ended *)

Inductive error : Type :=
| DivisionByZero     (* "Division by zero" *)
| InvalidModulus     (* "Modulus cannot be zero", Montgomery/Barrett set-up *)
| NotInvertible      (* "Modular inverse does not exist" *)
| InvalidHex         (* "Invalid hex character" *)
| OverflowToInt64.   (* std::overflow_error in toInt64 *)

Inductive result (A : Type) : Type :=
| Ok (a : A)
| Err (e : error)
| OutOfFuel.

Arguments Ok {A} a.
Arguments Err {A} e.
Arguments OutOfFuel {A}.

Definition bind {A B : Type} (m : result A) (f : A -> result B) : result B :=
  match m with
  | Ok a => f a
  | Err e => Err e
  | OutOfFuel => OutOfFuel
  end.

Notation "x <- m ;; k" := (bind m (fun x => k))
  (at level 61, m at next level, right associativity).

(** ** Vectors of words *)

(** [v[i]] for reading (0 outside, which the code never does) and
    [v[i] = x] for writing. *)
Definition get (v : list Z) (i : nat) : Z := nth i v 0.

Fixpoint set_nth (i : nat) (v : list Z) (x : Z) : list Z :=
  match v, i with
  | [], _ => []
  | _ :: tl, O => x :: tl
  | d :: tl, S i' => d :: set_nth i' tl x
  end.

Definition zeros (n : nat) : list Z := repeat 0 n.

(** ** The BigNum class *)

Record BigNum : Type := mkBigNum { digits : list Z; negative : bool }.

Definition BASE_BITS : Z := 64.
Definition KARATSUBA_THRESHOLD : nat := 8.
Definition MONTGOMERY_THRESHOLD : nat := 4.
Definition BARRETT_THRESHOLD : nat := 8.

Definition size (a : BigNum) : nat := length (digits a).

(** [while (digits.size() > 1 && digits.back() == 0) digits.pop_back();]
    on the vector read from its back. *)
Fixpoint pop_back_zeros (rds : list Z) : list Z :=
  match rds with
  | d :: (_ :: _) as rest => if d =? 0 then pop_back_zeros rest else rds
  | _ => rds
  end.

Definition removeLeadingZeros (a : BigNum) : BigNum :=
  let ds := rev (pop_back_zeros (rev (digits a))) in
  match ds with
  | [d] => if d =? 0 then mkBigNum ds false else mkBigNum ds (negative a)
  | _ => mkBigNum ds (negative a)
  end.

(** Constructors: [BigNum()], [BigNum(int64_t)], [BigNum(vector, neg)]. *)
Definition BigNum_default : BigNum := mkBigNum [0] false.

Definition BigNum_of_int64 (value : Z) : BigNum :=
  let neg := value <? 0 in
  let absValue := if neg then u64 (- u64 value) else u64 value in
  if absValue =? 0 then mkBigNum [0] false else mkBigNum [absValue] neg.

Definition BigNum_of_digits (ds : list Z) (neg : bool) : BigNum :=
  removeLeadingZeros (mkBigNum ds neg).

Definition zero : BigNum := BigNum_of_int64 0.
Definition one : BigNum := BigNum_of_int64 1.
Definition two : BigNum := BigNum_of_int64 2.

(** Utility predicates. *)
Definition isZero (a : BigNum) : bool :=
  match digits a with
  | [d] => d =? 0
  | _ => false
  end.

Definition isOne (a : BigNum) : bool :=
  negb (negative a) &&
  match digits a with
  | [d] => d =? 1
  | _ => false
  end.

Definition isNegative (a : BigNum) : bool := negative a && negb (isZero a).

Definition isEven (a : BigNum) : bool := Z.land (get (digits a) 0) 1 =? 0.
Definition isOdd (a : BigNum) : bool := Z.land (get (digits a) 0) 1 =? 1.

(** The word-by-word scan [for (i = size - 1; i >= 0; --i)] of [compare]
    and of [operator+], on two vectors of one length read from the back. *)
Fixpoint compare_from_top (ra rb : list Z) : Z :=
  match ra, rb with
  | x :: ra', y :: rb' =>
      if negb (x =? y) then (if x <? y then -1 else 1)
      else compare_from_top ra' rb'
  | _, _ => 0
  end.

Definition compare (a b : BigNum) : Z :=
  if negb (Bool.eqb (negative a) (negative b)) then
    (if negative a then -1 else 1)
  else
    let sign := if negative a then -1 else 1 in
    if negb (size a =? size b)%nat then
      sign * (if (size a <? size b)%nat then -1 else 1)
    else
      sign * compare_from_top (rev (digits a)) (rev (digits b)).

Definition operator_eq (a b : BigNum) : bool := compare a b =? 0.
Definition operator_ne (a b : BigNum) : bool := negb (compare a b =? 0).
Definition operator_lt (a b : BigNum) : bool := compare a b <? 0.
Definition operator_le (a b : BigNum) : bool := compare a b <=? 0.
Definition operator_gt (a b : BigNum) : bool := 0 <? compare a b.
Definition operator_ge (a b : BigNum) : bool := 0 <=? compare a b.

(** *** addUnsigned

    [for (i = 0; i < maxSize || carry; ++i)]: the walk over both vectors
    while both have a word, then over the longer one, then the rounds
    that only carry.  Each round pushes [sum & 0xFFFFFFFFFFFFFFFF] and
    keeps [sum >> 64]. *)
Definition add_step (sum : Z) : Z * Z :=
  (u64 (Z.land sum UINT64_MAX), Z.shiftr sum 64).

Fixpoint add_carry_out (n : nat) (carry : Z) : list Z :=
  match n with
  | O => []
  | S n' =>
      if carry =? 0 then []
      else let '(w, c) := add_step (u128 carry) in w :: add_carry_out n' c
  end.

Fixpoint add_rest (r : list Z) (carry : Z) : list Z :=
  match r with
  | [] => add_carry_out 2 carry
  | d :: r' =>
      let '(w, c) := add_step (u128 (carry + d)) in w :: add_rest r' c
  end.

Fixpoint add_loop (a b : list Z) (carry : Z) {struct a} : list Z :=
  match a, b with
  | [], _ => add_rest b carry
  | _, [] => add_rest a carry
  | x :: a', y :: b' =>
      let '(w, c) := add_step (u128 (carry + x + y)) in w :: add_loop a' b' c
  end.

Definition addUnsigned (a b : BigNum) : BigNum :=
  BigNum_of_digits (add_loop (digits a) (digits b) 0) false.

(** *** subtractUnsigned

    All of [ai], [bi], [borrow] are [uint64_t]: the test reads
    [ai >= bi + borrow] with the sum taken modulo 2^64, and
    [UINT64_MAX + 1] is 0. *)
Fixpoint sub_loop (a b : list Z) (borrow : Z) {struct a} : list Z :=
  match a with
  | [] => []
  | ai :: a' =>
      let bi := hd 0 b in
      if u64 (bi + borrow) <=? ai then
        u64 (ai - bi - borrow) :: sub_loop a' (tl b) 0
      else
        u64 (ai + u64 (UINT64_MAX + 1) - bi - borrow) :: sub_loop a' (tl b) 1
  end.

Definition subtractUnsigned (a b : BigNum) : BigNum :=
  BigNum_of_digits (sub_loop (digits a) (digits b) 0) false.

(** *** multiplySchoolbook

    The inner loop [for (j = 0; j < b.size() || carry; ++j)] runs at most
    [b.size() + 1] rounds inside the result vector; [n] bounds it by the
    length of that vector. *)
Fixpoint mul_row (n : nat) (ai : Z) (b : list Z) (i j : nat) (carry : Z)
                 (res : list Z) : list Z :=
  match n with
  | O => res
  | S n' =>
      if (j <? length b)%nat || negb (carry =? 0) then
        let prod0 := get res (i + j) + carry in
        let prod := u128 (if (j <? length b)%nat
                          then prod0 + u128 (ai * get b j) else prod0) in
        mul_row n' ai b i (S j) (Z.shiftr prod 64)
                (set_nth (i + j) res (u64 (Z.land prod UINT64_MAX)))
      else res
  end.

Fixpoint mul_rows (a_rest : list Z) (b : list Z) (i : nat) (res : list Z)
  : list Z :=
  match a_rest with
  | [] => res
  | ai :: a' => mul_rows a' b (S i) (mul_row (S (length res)) ai b i 0 0 res)
  end.

Definition multiplySchoolbook (a b : BigNum) : BigNum :=
  let res := zeros (size a + size b) in
  BigNum_of_digits (mul_rows (digits a) (digits b) 0 res) false.

(** *** Shifts *)

(** Left shift by [bitShift] in 1..63 with the carry of the word below;
    the last cell [result[size + wordShift]] keeps its 0 unless a carry
    is left. *)
Fixpoint shl_loop (ds : list Z) (bitShift carry : Z) : list Z :=
  match ds with
  | [] => [carry]
  | d :: ds' =>
      let temp := u128 (Z.lor (Z.shiftl d bitShift) carry) in
      u64 (Z.land temp UINT64_MAX)
        :: shl_loop ds' bitShift (u64 (Z.shiftr temp 64))
  end.

Definition operator_shl (a : BigNum) (shift : Z) : BigNum :=
  if shift <=? 0 then a
  else
    let wordShift := Z.to_nat (shift / 64) in
    let bitShift := shift mod 64 in
    if bitShift =? 0 then
      BigNum_of_digits (zeros wordShift ++ digits a ++ [0]) (negative a)
    else
      BigNum_of_digits (zeros wordShift ++ shl_loop (digits a) bitShift 0)
                       (negative a).

(** Right shift: [for (i = size - 1; i >= wordShift; --i)] over the kept
    words read from the back. *)
Fixpoint shr_loop (rds : list Z) (bitShift carry : Z) : list Z :=
  match rds with
  | [] => []
  | d :: rest =>
      let temp := Z.lor (Z.shiftl carry 64) d in
      u64 (Z.shiftr temp bitShift)
        :: shr_loop rest bitShift
             (u64 (Z.land temp (u64 (Z.shiftl 1 bitShift) - 1)))
  end.

Definition operator_shr (a : BigNum) (shift : Z) : BigNum :=
  if shift <=? 0 then a
  else
    let wordShift := shift / 64 in
    let bitShift := shift mod 64 in
    if Z.of_nat (size a) <=? wordShift then zero
    else
      let kept := skipn (Z.to_nat wordShift) (digits a) in
      if bitShift =? 0 then BigNum_of_digits kept (negative a)
      else BigNum_of_digits (rev (shr_loop (rev kept) bitShift 0))
                            (negative a).

(** *** Unary minus, signed addition and subtraction *)

Definition operator_neg (a : BigNum) : BigNum :=
  if negb (isZero a) then mkBigNum (digits a) (negb (negative a)) else a.

Definition set_negative (a : BigNum) (neg : bool) : BigNum :=
  mkBigNum (digits a) neg.

Definition operator_add (a b : BigNum) : BigNum :=
  if Bool.eqb (negative a) (negative b) then
    set_negative (addUnsigned a b) (negative a)
  else
    let abs_compare :=
      if negb (size a =? size b)%nat then
        (if (size a <? size b)%nat then -1 else 1)
      else compare_from_top (rev (digits a)) (rev (digits b)) in
    if 0 <=? abs_compare then
      set_negative (subtractUnsigned a b) (negative a)
    else
      set_negative (subtractUnsigned b a) (negative b).

Definition operator_sub (a b : BigNum) : BigNum :=
  operator_add a (operator_neg b).

(** *** Bitwise operators on the magnitudes, padded to the longer one *)

Fixpoint bitwise_loop (f : Z -> Z -> Z) (a b : list Z) {struct a} : list Z :=
  match a with
  | [] => map (fun y => f 0 y) b
  | x :: a' =>
      match b with
      | [] => f x 0 :: bitwise_loop f a' []
      | y :: b' => f x y :: bitwise_loop f a' b'
      end
  end.

Definition operator_and (a b : BigNum) : BigNum :=
  BigNum_of_digits (bitwise_loop Z.land (digits a) (digits b)) false.
Definition operator_or (a b : BigNum) : BigNum :=
  BigNum_of_digits (bitwise_loop Z.lor (digits a) (digits b)) false.
Definition operator_xor (a b : BigNum) : BigNum :=
  BigNum_of_digits (bitwise_loop Z.lxor (digits a) (digits b)) false.

(** *** Multiplication: Karatsuba above the threshold

    [multiplyUnsigned] and [multiplyKaratsuba] call each other; the
    recursion is opened on [rec], the multiplication used for the three
    half-size products. *)
Definition pad_to (n : nat) (ds : list Z) : list Z :=
  ds ++ zeros (n - length ds).

Definition multiplyKaratsuba_with
    (rec : BigNum -> BigNum -> result BigNum) (a b : BigNum)
  : result BigNum :=
  let maxSize := Nat.max (size a) (size b) in
  if (maxSize <? KARATSUBA_THRESHOLD)%nat then Ok (multiplySchoolbook a b)
  else
    let n := if negb (maxSize mod 2 =? 0)%nat then S maxSize else maxSize in
    let ad := pad_to n (digits a) in
    let bd := pad_to n (digits b) in
    let half := (n / 2)%nat in
    let a0 := BigNum_of_digits (firstn half ad) false in
    let a1 := BigNum_of_digits (skipn half ad) false in
    let b0 := BigNum_of_digits (firstn half bd) false in
    let b1 := BigNum_of_digits (skipn half bd) false in
    z0 <- rec a0 b0 ;;
    z2 <- rec a1 b1 ;;
    m <- rec (operator_add a1 a0) (operator_add b1 b0) ;;
    let z1 := operator_sub (operator_sub m z2) z0 in
    let result0 := z0 in
    let result1 :=
      operator_add result0 (operator_shl z1 (to_int (Z.of_nat half * 64))) in
    let result2 :=
      operator_add result1 (operator_shl z2 (to_int (Z.of_nat n * 64))) in
    Ok result2.

Fixpoint multiplyUnsigned (fuel : nat) (a b : BigNum) : result BigNum :=
  let maxSize := Nat.max (size a) (size b) in
  if (KARATSUBA_THRESHOLD <=? maxSize)%nat then
    match fuel with
    | O => OutOfFuel
    | S fuel' => multiplyKaratsuba_with (multiplyUnsigned fuel') a b
    end
  else Ok (multiplySchoolbook a b).

Definition multiplyKaratsuba (fuel : nat) (a b : BigNum) : result BigNum :=
  multiplyKaratsuba_with (multiplyUnsigned fuel) a b.

Definition operator_mul (fuel : nat) (a b : BigNum) : result BigNum :=
  r <- multiplyUnsigned fuel a b ;;
  Ok (removeLeadingZeros (set_negative r (xorb (negative a) (negative b)))).

(** *** Division *)

(** [while (temp <= remainder) { temp <<= 1; shift++; }] *)
Fixpoint div_scale (fuel : nat) (temp remainder : BigNum) (shift : Z)
  : result (BigNum * Z) :=
  if operator_le temp remainder then
    match fuel with
    | O => OutOfFuel
    | S fuel' => div_scale fuel' (operator_shl temp 1) remainder (shift + 1)
    end
  else Ok (temp, shift).

(** [for (int i = shift; i >= 0; --i)], [n] rounds left. *)
Fixpoint div_loop (n : nat) (i : Z) (temp remainder quotient : BigNum)
  : BigNum * BigNum :=
  match n with
  | O => (quotient, remainder)
  | S n' =>
      let '(remainder', quotient') :=
        if operator_ge remainder temp then
          (operator_sub remainder temp,
           operator_add quotient (operator_shl (BigNum_of_int64 1) i))
        else (remainder, quotient) in
      div_loop n' (i - 1) (operator_shr temp 1) remainder' quotient'
  end.

Definition divideUnsigned (fuel : nat) (a divisor : BigNum)
  : result (BigNum * BigNum) :=
  if isZero divisor then Err DivisionByZero
  else if compare a divisor <? 0 then Ok (BigNum_of_int64 0, a)
  else
    ts <- div_scale fuel divisor a 0 ;;
    let '(temp, shift) := ts in
    let temp := operator_shr temp 1 in
    let shift := shift - 1 in
    Ok (div_loop (Z.to_nat (shift + 1)) shift temp a (BigNum_of_int64 0)).

Definition operator_div (fuel : nat) (a b : BigNum) : result BigNum :=
  qr <- divideUnsigned fuel a b ;;
  Ok (removeLeadingZeros
        (set_negative (fst qr) (xorb (negative a) (negative b)))).

Definition operator_mod (fuel : nat) (a b : BigNum) : result BigNum :=
  qr <- divideUnsigned fuel a b ;;
  Ok (removeLeadingZeros (set_negative (snd qr) (negative a))).

(** *** bitLength, byteLength *)

(** [while (topDigit) { bits++; topDigit >>= 1; }] on a 64-bit word. *)
Fixpoint count_bits (n : nat) (topDigit bits : Z) : Z :=
  match n with
  | O => bits
  | S n' =>
      if topDigit =? 0 then bits
      else count_bits n' (Z.shiftr topDigit 1) (bits + 1)
  end.

Definition bitLength (a : BigNum) : Z :=
  if isZero a then 0
  else count_bits 64 (last (digits a) 0) ((Z.of_nat (size a) - 1) * 64).

Definition byteLength (a : BigNum) : Z := (bitLength a + 7) / 8.

(** *** gcd and the extended Euclidean algorithm *)

Fixpoint gcd_loop (fuel n : nat) (a b : BigNum) : result BigNum :=
  if isZero b then Ok a
  else
    match n with
    | O => OutOfFuel
    | S n' => r <- operator_mod fuel a b ;; gcd_loop fuel n' b r
    end.

Definition gcd (fuel : nat) (this other : BigNum) : result BigNum :=
  let a := if negative this then operator_neg this else this in
  let b := if negative other then operator_neg other else other in
  gcd_loop fuel fuel a b.

Fixpoint extendedGcd_loop (fuel n : nat) (old_r r old_s s old_t t : BigNum)
  : result (BigNum * (BigNum * BigNum)) :=
  if isZero r then Ok (old_r, (old_s, old_t))
  else
    match n with
    | O => OutOfFuel
    | S n' =>
        quotient <- operator_div fuel old_r r ;;
        qr <- operator_mul fuel quotient r ;;
        qs <- operator_mul fuel quotient s ;;
        qt <- operator_mul fuel quotient t ;;
        extendedGcd_loop fuel n'
          r (operator_sub old_r qr)
          s (operator_sub old_s qs)
          t (operator_sub old_t qt)
    end.

Definition extendedGcd (fuel : nat) (this other : BigNum)
  : result (BigNum * (BigNum * BigNum)) :=
  let old_r := if isNegative this then operator_neg this else this in
  let r := if isNegative other then operator_neg other else other in
  res <- extendedGcd_loop fuel fuel old_r r
           (BigNum_of_int64 1) (BigNum_of_int64 0)
           (BigNum_of_int64 0) (BigNum_of_int64 1) ;;
  let '(g, (old_s, old_t)) := res in
  let old_s := if isNegative this then operator_neg old_s else old_s in
  let old_t := if isNegative other then operator_neg old_t else old_t in
  Ok (g, (old_s, old_t)).

Definition modInverse (fuel : nat) (this modulus : BigNum) : result BigNum :=
  res <- extendedGcd fuel this modulus ;;
  if negb (isOne (fst res)) then Err NotInvertible
  else
    let inv := fst (snd res) in
    let inv := if isNegative inv then operator_add inv modulus else inv in
    operator_mod fuel inv modulus.

(** ** MontgomeryContext *)

Module Montgomery.

Record Context : Type := mk {
  modulus : BigNum;
  r : BigNum;
  r_inv : BigNum;
  n_prime : BigNum;
  k : nat
}.

(** The constructor. *)
Definition make (fuel : nat) (mod_ : BigNum) : result Context :=
  if isZero mod_ || isEven mod_ then Err InvalidModulus
  else
    let k := size mod_ in
    let r := operator_shl (BigNum_of_int64 1) (to_int (Z.of_nat k * 64)) in
    gcd_result <- extendedGcd fuel r mod_ ;;
    if negb (isOne (fst gcd_result)) then Err InvalidModulus
    else
      let r_inv := fst (snd gcd_result) in
      let r_inv :=
        if isNegative r_inv then operator_add r_inv mod_ else r_inv in
      mod_inv_result <- extendedGcd fuel mod_ r ;;
      if negb (isOne (fst mod_inv_result)) then Err InvalidModulus
      else
        let n_prime := operator_neg (fst (snd mod_inv_result)) in
        let n_prime :=
          if isNegative n_prime then operator_add n_prime r else n_prime in
        Ok (mk mod_ r r_inv n_prime k).

(** [for (j = 0; j < k; ++j)]: add [m * modulus] at position [i]. *)
Fixpoint reduce_inner (n j i : nat) (m : Z) (mod_digits t : list Z)
                      (carry : Z) : list Z * Z :=
  match n with
  | O => (t, carry)
  | S n' =>
      let prod := u128 (get t (i + j) + u128 (m * get mod_digits j) + carry) in
      reduce_inner n' (S j) i m mod_digits
                   (set_nth (i + j) t (u64 prod)) (Z.shiftr prod 64)
  end.

(** [for (j = i + k; j < 2 * k + 1 && carry; ++j)], [n] cells left. *)
Fixpoint reduce_carry (n j : nat) (t : list Z) (carry : Z) : list Z :=
  match n with
  | O => t
  | S n' =>
      if negb (carry =? 0) then
        let sum := u128 (get t j + carry) in
        reduce_carry n' (S j) (set_nth j t (u64 sum)) (Z.shiftr sum 64)
      else t
  end.

(** [for (i = 0; i < k; ++i)], [n] rounds left. *)
Fixpoint reduce_outer (n i k : nat) (n_prime_digits mod_digits t : list Z)
  : list Z :=
  match n with
  | O => t
  | S n' =>
      let m := u64 (get t i * match n_prime_digits with
                              | [] => 0
                              | d :: _ => d
                              end) in
      let '(t1, carry) := reduce_inner k 0 i m mod_digits t 0 in
      let t2 := reduce_carry (2 * k + 1 - (i + k)) (i + k) t1 carry in
      reduce_outer n' (S i) k n_prime_digits mod_digits t2
  end.

Definition reduce (ctx : Context) (a : BigNum) : BigNum :=
  let k := k ctx in
  let a_digits := digits a in
  let t := firstn (2 * k) a_digits
           ++ zeros (2 * k + 1 - Nat.min (length a_digits) (2 * k)) in
  let t := reduce_outer k 0 k (digits (n_prime ctx))
                        (digits (modulus ctx)) t in
  let result_digits := firstn k (skipn k t) in
  let result := BigNum_of_digits result_digits false in
  if operator_ge result (modulus ctx)
  then operator_sub result (modulus ctx)
  else result.

Definition multiply (fuel : nat) (ctx : Context) (a b : BigNum)
  : result BigNum :=
  product <- operator_mul fuel a b ;;
  Ok (reduce ctx product).

Definition toMontgomery (fuel : nat) (ctx : Context) (a : BigNum)
  : result BigNum :=
  ar <- operator_mul fuel a (r ctx) ;;
  operator_mod fuel ar (modulus ctx).

Definition fromMontgomery (ctx : Context) (a : BigNum) : BigNum :=
  reduce ctx a.

End Montgomery.

(** ** BarrettContext *)

Module Barrett.

Record Context : Type := mk {
  modulus : BigNum;
  mu : BigNum;
  k : Z
}.

Definition make (fuel : nat) (mod_ : BigNum) : result Context :=
  if isZero mod_ then Err InvalidModulus
  else
    let k := bitLength mod_ in
    let r_squared := operator_shl (BigNum_of_int64 1) (to_int (2 * k)) in
    mu <- operator_div fuel r_squared mod_ ;;
    Ok (mk mod_ mu k).

(** [while (result >= modulus) result -= modulus;] *)
Fixpoint final_reduction (n : nat) (result_ modulus : BigNum)
  : result BigNum :=
  if operator_ge result_ modulus then
    match n with
    | O => OutOfFuel
    | S n' => final_reduction n' (operator_sub result_ modulus) modulus
    end
  else Ok result_.

Definition reduce (fuel : nat) (ctx : Context) (a : BigNum)
  : result BigNum :=
  if operator_lt a (modulus ctx) then Ok a
  else
    let a_bits := bitLength a in
    if a_bits <=? k ctx then operator_mod fuel a (modulus ctx)
    else
      let q1 := operator_shr a (to_int (k ctx - 1)) in
      q2 <- operator_mul fuel q1 (mu ctx) ;;
      let q3 := operator_shr q2 (to_int (k ctx + 1)) in
      let r_mask :=
        operator_sub (operator_shl (BigNum_of_int64 1) (to_int (k ctx + 1)))
                     (BigNum_of_int64 1) in
      let r1 := operator_and a r_mask in
      q3m <- operator_mul fuel q3 (modulus ctx) ;;
      let r2 := operator_and q3m r_mask in
      let result_ := operator_sub r1 r2 in
      let result_ :=
        if isNegative result_
        then operator_add result_
               (operator_shl (BigNum_of_int64 1) (to_int (k ctx + 1)))
        else result_ in
      final_reduction fuel result_ (modulus ctx).

End Barrett.

(** ** Modular exponentiation *)

(** The basic loop of [modPowBinary]:
    [while (!exp.isZero()) { ...; exp >>= 1; }] with [%] after each
    product. *)
Fixpoint modPow_plain_loop (fuel n : nat) (result_ base exp modulus : BigNum)
  : result BigNum :=
  if isZero exp then Ok result_
  else
    match n with
    | O => OutOfFuel
    | S n' =>
        result' <- (if isOdd exp
                    then p <- operator_mul fuel result_ base ;;
                         operator_mod fuel p modulus
                    else Ok result_) ;;
        base' <- (p <- operator_mul fuel base base ;;
                  operator_mod fuel p modulus) ;;
        modPow_plain_loop fuel n' result' base' (operator_shr exp 1) modulus
    end.

(** The Barrett loop sits in a [try] block and updates [result], [base]
    and [exp], which the basic loop after the [catch] goes on with. *)
Inductive barrett_outcome : Type :=
| BarrettDone (result_ : BigNum)
| BarrettThrew (result_ base exp : BigNum)
| BarrettOutOfFuel.

Fixpoint modPow_barrett_loop (fuel n : nat) (barrett : Barrett.Context)
                             (result_ base exp : BigNum) : barrett_outcome :=
  if isZero exp then BarrettDone result_
  else
    match n with
    | O => BarrettOutOfFuel
    | S n' =>
        match (if isOdd exp
               then p <- operator_mul fuel result_ base ;;
                    Barrett.reduce fuel barrett p
               else Ok result_) with
        | Err _ => BarrettThrew result_ base exp
        | OutOfFuel => BarrettOutOfFuel
        | Ok result' =>
            match (p <- operator_mul fuel base base ;;
                   Barrett.reduce fuel barrett p) with
            | Err _ => BarrettThrew result' base exp
            | OutOfFuel => BarrettOutOfFuel
            | Ok base' =>
                modPow_barrett_loop fuel n' barrett result' base'
                                    (operator_shr exp 1)
            end
        end
    end.

Definition modPowBinary (fuel : nat) (this exponent modulus : BigNum)
  : result BigNum :=
  let result_ := BigNum_of_int64 1 in
  base <- operator_mod fuel this modulus ;;
  let exp := exponent in
  if (BARRETT_THRESHOLD <=? size modulus)%nat then
    match Barrett.make fuel modulus with
    | Err _ => modPow_plain_loop fuel fuel result_ base exp modulus
    | OutOfFuel => OutOfFuel
    | Ok barrett =>
        match modPow_barrett_loop fuel fuel barrett result_ base exp with
        | BarrettDone r => Ok r
        | BarrettThrew result' base' exp' =>
            modPow_plain_loop fuel fuel result' base' exp' modulus
        | BarrettOutOfFuel => OutOfFuel
        end
    end
  else modPow_plain_loop fuel fuel result_ base exp modulus.

Fixpoint modPow_montgomery_loop (fuel n : nat) (mont : Montgomery.Context)
                                (result_mont current_base exp : BigNum)
  : result BigNum :=
  if isZero exp then Ok result_mont
  else
    match n with
    | O => OutOfFuel
    | S n' =>
        result_mont' <- (if isOdd exp
                         then Montgomery.multiply fuel mont
                                result_mont current_base
                         else Ok result_mont) ;;
        current_base' <- Montgomery.multiply fuel mont
                           current_base current_base ;;
        modPow_montgomery_loop fuel n' mont result_mont' current_base'
                               (operator_shr exp 1)
    end.

(** The body of the [try] block of [modPowMontgomery]. *)
Definition modPowMontgomery_try (fuel : nat) (this exponent modulus : BigNum)
  : result BigNum :=
  mont <- Montgomery.make fuel modulus ;;
  reduced <- operator_mod fuel this modulus ;;
  base_mont <- Montgomery.toMontgomery fuel mont reduced ;;
  result_mont <- Montgomery.toMontgomery fuel mont (BigNum_of_int64 1) ;;
  result_mont' <- modPow_montgomery_loop fuel fuel mont
                    result_mont base_mont exponent ;;
  Ok (Montgomery.fromMontgomery mont result_mont').

Definition modPowMontgomery (fuel : nat) (this exponent modulus : BigNum)
  : result BigNum :=
  match modPowMontgomery_try fuel this exponent modulus with
  | Err _ => modPowBinary fuel this exponent modulus
  | other => other
  end.

Definition modPow (fuel : nat) (this exponent modulus : BigNum)
  : result BigNum :=
  if isZero modulus then Err InvalidModulus
  else if isZero exponent then Ok one
  else if isOne modulus then Ok zero
  else if (MONTGOMERY_THRESHOLD <=? size modulus)%nat && isOdd modulus
       then modPowMontgomery fuel this exponent modulus
       else modPowBinary fuel this exponent modulus.

(** ** Conversions *)

(** *** Byte arrays (big-endian magnitude) *)

Definition toByteArray (a : BigNum) : list Z :=
  let byteLen := Z.to_nat (byteLength a) in
  let byte_at (i : nat) : Z :=
    let digitIndex := (i / 8)%nat in
    let byteIndex := (i mod 8)%nat in
    if (digitIndex <? size a)%nat then
      u8 (Z.land (Z.shiftr (get (digits a) digitIndex)
                           (Z.of_nat byteIndex * 8)) 255)
    else 0 in
  (* result[byteLen - 1 - i] = byte_at i *)
  rev (map byte_at (seq 0 byteLen)).

(** [for (i = 0; i < bytes.size(); ++i) digits[digitIndex] |= ...] *)
Fixpoint fromByteArray_loop (rest : list Z) (i total : nat) (ds : list Z)
  : list Z :=
  match rest with
  | [] => ds
  | byte :: rest' =>
      let digitIndex := ((total - 1 - i) / 8)%nat in
      let byteIndex := ((total - 1 - i) mod 8)%nat in
      let updated :=
        Z.lor (get ds digitIndex)
              (u64 (Z.shiftl byte (Z.of_nat byteIndex * 8))) in
      fromByteArray_loop rest' (S i) total (set_nth digitIndex ds updated)
  end.

Definition fromByteArray (bytes : list Z) : BigNum :=
  match bytes with
  | [] => zero
  | _ =>
      let numDigits := ((length bytes + 7) / 8)%nat in
      BigNum_of_digits
        (fromByteArray_loop bytes 0 (length bytes) (zeros numDigits)) false
  end.

(** *** toInt64

    [-static_cast<int64_t>(value)] is taken with two's complement
    wrap-around, as the comment "-INT64_MIN is INT64_MAX + 1" expects. *)
Definition toInt64 (a : BigNum) : result Z :=
  if (1 <? size a)%nat then Err OverflowToInt64
  else if isZero a then Ok 0
  else
    let value := get (digits a) 0 in
    if negb (isNegative a) then
      if u64 INT64_MAX <? value then Err OverflowToInt64
      else Ok (to_int64 value)
    else
      let limit := u64 (u64 INT64_MAX + 1) in
      if limit <? value then Err OverflowToInt64
      else Ok (to_int64 (- to_int64 value)).

(** *** Hex strings *)

Definition char_between (lo c hi : ascii) : bool :=
  (nat_of_ascii lo <=? nat_of_ascii c)%nat
  && (nat_of_ascii c <=? nat_of_ascii hi)%nat.

(** One character of a chunk: [value <<= 4; value |= digit] or a throw. *)
Definition hex_char_step (value : Z) (c : ascii) : result Z :=
  let value := u64 (Z.shiftl value 4) in
  if char_between "0" c "9" then
    Ok (Z.lor value (Z.of_nat (nat_of_ascii c) - Z.of_nat (nat_of_ascii "0")))
  else if char_between "a" c "f" then
    Ok (Z.lor value
          (Z.of_nat (nat_of_ascii c) - Z.of_nat (nat_of_ascii "a") + 10))
  else if char_between "A" c "F" then
    Ok (Z.lor value
          (Z.of_nat (nat_of_ascii c) - Z.of_nat (nat_of_ascii "A") + 10))
  else Err InvalidHex.

Fixpoint hex_chunk_value (chunk : list ascii) (value : Z) : result Z :=
  match chunk with
  | [] => Ok value
  | c :: chunk' => v <- hex_char_step value c ;; hex_chunk_value chunk' v
  end.

(** [str.substr(pos, len)] *)
Definition substr (str : list ascii) (pos len : nat) : list ascii :=
  firstn len (skipn pos str).

(** [for (int i = str.length(); i > 0; i -= 16)], at most [n] rounds. *)
Fixpoint hex_chunks (n : nat) (str : list ascii) (i : Z) : result (list Z) :=
  match n with
  | O => Ok []
  | S n' =>
      if 0 <? i then
        let start := Z.max 0 (i - 16) in
        let chunk := substr str (Z.to_nat start) (Z.to_nat (i - start)) in
        value <- hex_chunk_value chunk 0 ;;
        rest <- hex_chunks n' str (i - 16) ;;
        Ok (value :: rest)
      else Ok []
  end.

Definition fromHexString (hexStr : string) : result BigNum :=
  let str := list_ascii_of_string hexStr in
  match str with
  | [] => Ok (BigNum_of_int64 0)
  | c0 :: after_sign =>
      let neg := Ascii.eqb c0 "-" in
      let str := if neg then after_sign else str in
      let str :=
        match str with
        | c1 :: c2 :: after_prefix =>
            if Ascii.eqb c1 "0" && Ascii.eqb c2 "x" then after_prefix else str
        | _ => str
        end in
      match str with
      | [] => Ok (BigNum_of_int64 0)
      | _ =>
          result_ <- hex_chunks (length str) str (Z.of_nat (length str)) ;;
          Ok (BigNum_of_digits result_ neg)
      end
  end.

(** *** toHexString *)

(** One hex digit as [std::hex] writes it, in lower case. *)
Definition hex_digit_char (d : Z) : ascii :=
  if d <? 10 then ascii_of_nat (Z.to_nat (48 + d))
  else ascii_of_nat (Z.to_nat (87 + d)).

(** [ss << std::hex << w]: the digits of [w] from the lowest one, no
    leading zero, one digit for 0; [n] bounds their number. *)
Fixpoint hex_of_word_rev (n : nat) (w : Z) : list ascii :=
  match n with
  | O => []
  | S n' =>
      hex_digit_char (w mod 16)
        :: (if w / 16 =? 0 then [] else hex_of_word_rev n' (w / 16))
  end.

Definition hex_of_word (w : Z) : list ascii := rev (hex_of_word_rev 16 w).

(** [std::setfill('0') << std::setw(16)] *)
Definition setw16 (s : list ascii) : list ascii :=
  repeat "0"%char (16 - length s) ++ s.

Definition toHexString (a : BigNum) : string :=
  if isZero a then "0"%string
  else
    string_of_list_ascii
      ((if negative a then ["-"%char] else [])
       ++ match rev (digits a) with
          | [] => []
          | top :: rest =>
              hex_of_word top
                ++ concat (map (fun d => setw16 (hex_of_word d)) rest)
          end).

(** *** random

    The words [dis(gen)] returns are a parameter: [dis i] is the [i]-th
    draw.  [bitLength] is a [size_t], of 64 bits. *)
Definition random_top (topBits w : Z) : Z :=
  if topBits =? 0 then Z.lor w (u64 (Z.shiftl 1 63))
  else
    let mask := u64 (u64 (Z.shiftl 1 topBits) - 1) in
    Z.lor (Z.land w mask) (u64 (Z.shiftl 1 (topBits - 1))).

Definition random (dis : nat -> Z) (bitLength : Z) : BigNum :=
  if bitLength =? 0 then BigNum_of_int64 0
  else
    let numDigits := Z.to_nat (u64 (bitLength + 63) / 64) in
    let result_ := map dis (seq 0 numDigits) in
    let topBits := bitLength mod 64 in
    let back := (numDigits - 1)%nat in
    BigNum_of_digits
      (set_nth back result_ (random_top topBits (get result_ back))) false.

(** ** What a BigNum stands for *)

(** The magnitude [sum digits[i] * 2^(64 i)] and the signed value. *)
Fixpoint eval (ds : list Z) : Z :=
  match ds with
  | [] => 0
  | d :: rest => d + 2 ^ 64 * eval rest
  end.

Definition magnitude (a : BigNum) : Z := eval (digits a).

Definition value (a : BigNum) : Z :=
  if negative a then - magnitude a else magnitude a.

Definition is_word (d : Z) : Prop := 0 <= d < 2 ^ 64.

(** The digit vector of a stored number: at least one word, every word a
    64-bit one, no zero word on top of a longer vector. *)
Definition well_formed (a : BigNum) : Prop :=
  digits a <> []
  /\ Forall is_word (digits a)
  /\ ((1 < size a)%nat -> last (digits a) 0 <> 0).

(** Canonical form: well formed, and zero is not negative. *)
Definition canonical (a : BigNum) : Prop :=
  well_formed a /\ (magnitude a = 0 -> negative a = false).

(** A number of one word. *)
Definition word1 (x : Z) : BigNum := mkBigNum [x] false.


(** A number below 2^65 in its stored form: one word, or two with the
    upper one set. *)
Definition nat_repr (v : Z) : BigNum :=
  if v <? 2 ^ 64 then mkBigNum [v] false
  else mkBigNum [v mod 2 ^ 64; v / 2 ^ 64] false.

Definition one_word (a : BigNum) : Prop :=
  exists x, digits a = [x] /\ is_word x.

Definition nonzero_word (d : Z) : Prop := d <> 0.

(** The value [compare] returns on magnitudes. *)
Definition sign_of_comparison (u v : Z) : Z :=
  if u <? v then -1 else if u =? v then 0 else 1.

(** An outcome that is not a thrown exception. *)
Definition no_throw {A : Type} (r : result A) : Prop := forall e, r <> Err e.

(** ** The two-row recurrence of [extendedGcd] on integers

    State of the loop: the coefficients are [sg * s0], [- sg * s1],
    [- sg * t0], [sg * t1], of alternating signs, for the remainders
    [R0], [R1] of [A] and [N]. *)
Record egcd_state (A N R0 R1 sg s0 s1 t0 t1 : Z) : Prop := {
  st_sign : sg = 1 \/ sg = -1;
  st_R0 : 0 <= R0 < 2 ^ 64;
  st_R1 : 0 <= R1 < 2 ^ 64;
  st_s0 : 0 <= s0 <= N;
  st_s1 : 0 <= s1 <= N;
  st_t0 : 0 <= t0 <= Z.max A 1;
  st_t1 : 0 <= t1 <= Z.max A 1;
  st_bezout0 : R0 = A * (sg * s0) + N * (- sg * t0);
  st_bezout1 : R1 = A * (- sg * s1) + N * (sg * t1);
  st_N : s1 * R0 + s0 * R1 = N;
  st_A : t1 * R0 + t0 * R1 = A;
  st_gcd : Z.gcd R0 R1 = Z.gcd A N
}.

(** A quantity that at least halves with every round of the loop. *)
Definition egcd_measure (R0 R1 : Z) : Z :=
  if R1 <? R0 then R0 * R1 else 2 * R1 * R1.

(** ** Hex formats *)

Definition is_hex_digit (c : ascii) : bool :=
  char_between "0" c "9" || char_between "a" c "f" || char_between "A" c "F".

(** The format as the specification words it:
    [/^-?(0x|0X)?[0-9a-fA-F]+$/]. *)
Definition spec_hex_format (s : string) : Prop :=
  exists sign prefix body,
    list_ascii_of_string s = sign ++ prefix ++ body
    /\ (sign = [] \/ sign = ["-"%char])
    /\ (prefix = [] \/ prefix = ["0"%char; "x"%char]
        \/ prefix = ["0"%char; "X"%char])
    /\ body <> []
    /\ forallb is_hex_digit body = true.

(** The format [fromHexString] parses: the prefix is the lower-case
    ["0x"] only, and the digits may be missing. *)
Definition accepted_hex_format (s : string) : Prop :=
  exists sign prefix body,
    list_ascii_of_string s = sign ++ prefix ++ body
    /\ (sign = [] \/ sign = ["-"%char])
    /\ (prefix = [] \/ prefix = ["0"%char; "x"%char])
    /\ forallb is_hex_digit body = true.

(** The two stripping steps of [fromHexString]. *)
Definition strip_sign (str : list ascii) : list ascii :=
  match str with
  | c0 :: after_sign => if Ascii.eqb c0 "-" then after_sign else str
  | [] => []
  end.

Definition strip_0x (str : list ascii) : list ascii :=
  match str with
  | c1 :: c2 :: after_prefix =>
      if Ascii.eqb c1 "0" && Ascii.eqb c2 "x" then after_prefix else str
  | _ => str
  end.

(** ** Notions used in the further properties *)

(** The weight of the word at index [n]: 2^(64 n). *)
Definition wpow (n : nat) : Z := 2 ^ (64 * Z.of_nat n).

(** A word other than 2^64 - 1. *)
Definition below_max (d : Z) : Prop := d <> UINT64_MAX.

(** The comparison of magnitudes written out in [operator+]. *)
Definition abs_compare (a b : BigNum) : Z :=
  if negb (size a =? size b)%nat then
    (if (size a <? size b)%nat then -1 else 1)
  else compare_from_top (rev (digits a)) (rev (digits b)).

(** The digits [toHexString] writes after the sign, for the words [lo]
    below the top word [top]. *)
Definition hex_body (lo : list Z) (top : Z) : list ascii :=
  hex_of_word top ++ concat (map (fun d => setw16 (hex_of_word d)) (rev lo)).

(** Canonical form as a test that runs. *)
Definition is_word_b (d : Z) : bool := (0 <=? d) && (d <? 2 ^ 64).

Definition canonical_b (a : BigNum) : bool :=
  match digits a with
  | [] => false
  | _ =>
      forallb is_word_b (digits a)
      && ((size a <=? 1)%nat || negb (last (digits a) 0 =? 0))
      && (negb (magnitude a =? 0) || negb (negative a))
  end.

(** A byte, and the number a sequence of bytes stands for, lowest byte
    first ([le_value]) and highest byte first ([be_value]). *)
Definition is_byte (b : Z) : Prop := 0 <= b < 256.

Fixpoint le_value (bytes : list Z) : Z :=
  match bytes with
  | [] => 0
  | b :: rest => b + 256 * le_value rest
  end.

Definition be_value (bytes : list Z) : Z := le_value (rev bytes).

(** The number a hex digit stands for, and the number a sequence of hex
    digits stands for, highest digit first. *)
Definition hex_digit_value (c : ascii) : Z :=
  let n := Z.of_nat (nat_of_ascii c) in
  if char_between "0" c "9" then n - 48
  else if char_between "a" c "f" then n - 97 + 10
  else n - 65 + 10.

Fixpoint hex_value_from (acc : Z) (l : list ascii) : Z :=
  match l with
  | [] => acc
  | c :: l' => hex_value_from (16 * acc + hex_digit_value c) l'
  end.

Definition hex_value (l : list ascii) : Z := hex_value_from 0 l.

(** ** Operands used in the evaluations below *)

(** 2^128 and 2^128 - 2^64 + 1. *)
Definition two_pow_128 : BigNum := mkBigNum [0; 0; 1] false.
Definition borrow_modulus : BigNum := mkBigNum [1; UINT64_MAX] false.

(** 2^256 and an eight-word factor. *)
Definition karatsuba_a : BigNum := mkBigNum [0; 0; 0; 0; 1] false.
Definition karatsuba_b : BigNum :=
  mkBigNum [UINT64_MAX; 0; 0; 0; 1; UINT64_MAX; 0; 1] false.

(** The odd four-word modulus 15 * 2^252 + 1 and the base below it. *)
Definition montgomery_modulus : BigNum := mkBigNum [1; 0; 0; 15 * 2 ^ 60] false.
Definition montgomery_base : BigNum := mkBigNum [0; 0; 0; 15 * 2 ^ 60] false.

Create HintDb throws.


(** * Verification *)

(** ** Magnitudes *)

Lemma eval_nonneg (ds : list Z) : Forall is_word ds -> 0 <= eval ds.
Proof.
  induction 1 as [|d ds Hd _ IH]; cbn [eval]; [lia|].
  unfold is_word in Hd. lia.
Qed.

Lemma eval_top_nonzero (ds : list Z) :
  Forall is_word ds -> ds <> [] -> last ds 0 <> 0 -> 0 < eval ds.
Proof.
  induction 1 as [|d ds Hd Hds IH]; intros Hne Hlast; [congruence|].
  destruct ds as [|d' ds'].
  - simpl in *. unfold is_word in Hd. lia.
  - assert (0 < eval (d' :: ds')) by (apply IH; [discriminate | exact Hlast]).
    change (eval (d :: d' :: ds')) with (d + 2 ^ 64 * eval (d' :: ds')).
    unfold is_word in Hd. lia.
Qed.

Lemma to_int64_small (z : Z) : 0 <= z < 2 ^ 63 -> to_int64 z = z.
Proof.
  intros H. unfold to_int64. rewrite Z.mod_small by lia.
  destruct (Z.ltb_spec z (2 ^ 63)); lia.
Qed.

Lemma toInt64_one_word (d : Z) (neg : bool) :
  toInt64 (mkBigNum [d] neg) =
  if d =? 0 then Ok 0
  else if neg
       then (if 2 ^ 63 <? d then Err OverflowToInt64
             else Ok (to_int64 (- to_int64 d)))
       else (if 2 ^ 63 - 1 <? d then Err OverflowToInt64
             else Ok (to_int64 d)).
Proof.
  unfold toInt64, isNegative, isZero, size, get; cbn [digits negative length nth].
  change (1 <? 1)%nat with false. cbv iota.
  destruct (d =? 0); [reflexivity|].
  destruct neg; reflexivity.
Qed.


(** ** Normalisation

    [removeLeadingZeros], and with it the constructor from a vector, puts
    every non-empty vector of words into canonical form. *)

Section Normalisation.

Lemma pop_back_zeros_spec (rds : list Z) :
  rds <> [] ->
  pop_back_zeros rds <> []
  /\ (exists z, rds = repeat 0 z ++ pop_back_zeros rds)
  /\ ((1 < length (pop_back_zeros rds))%nat -> hd 0 (pop_back_zeros rds) <> 0).
Proof.
  induction rds as [|d rest IH]; intros Hne; [congruence|].
  destruct rest as [|d2 rest].
  - cbn [pop_back_zeros]. split; [discriminate|]. split.
    + exists 0%nat. reflexivity.
    + cbn [length]. lia.
  - cbn [pop_back_zeros]. destruct (Z.eqb_spec d 0) as [->|Hd].
    + destruct (IH ltac:(discriminate)) as (H1 & (z & H2) & H3).
      split; [exact H1|]. split; [|exact H3].
      exists (S z). cbn [repeat app]. f_equal. exact H2.
    + split; [discriminate|]. split.
      * exists 0%nat. reflexivity.
      * intros _. exact Hd.
Qed.

Lemma removeLeadingZeros_canonical (a : BigNum) :
  digits a <> [] -> Forall is_word (digits a) ->
  canonical (removeLeadingZeros a).
Proof.
  destruct a as [ds neg]. cbn [digits]. intros Hne Hall.
  assert (Hrev : rev ds <> []).
  { intros E. apply Hne. rewrite <- (rev_involutive ds), E. reflexivity. }
  destruct (pop_back_zeros_spec (rev ds) Hrev) as (Hp & (z & Hz) & Htop).
  unfold removeLeadingZeros. cbn [digits negative].
  set (p := pop_back_zeros (rev ds)) in *.
  assert (Hwords : Forall is_word (rev p)).
  { apply Forall_rev. apply Forall_rev in Hall. rewrite Hz in Hall.
    apply Forall_app in Hall. apply Hall. }
  assert (Hlast : (1 < length (rev p))%nat -> last (rev p) 0 <> 0).
  { rewrite length_rev. intros Hlen. specialize (Htop Hlen).
    destruct p as [|t p']; [congruence|].
    cbn [rev hd] in *. rewrite last_last. exact Htop. }
  assert (Hnonempty : rev p <> []).
  { intros E. apply Hp. rewrite <- (rev_involutive p), E. reflexivity. }
  assert (Hwf : forall sign, well_formed (mkBigNum (rev p) sign)).
  { intros sign. unfold well_formed, size. cbn [digits]. auto. }
  destruct (rev p) as [|d [|d2 rest]] eqn:E; [congruence| |].
  - destruct (Z.eqb_spec d 0) as [->|Hd]; split; try apply Hwf.
    + reflexivity.
    + unfold magnitude. cbn [digits eval]. lia.
  - split; [apply Hwf|]. unfold magnitude. cbn [digits negative]. intros Hzero.
    exfalso.
    pose proof (eval_top_nonzero (d :: d2 :: rest) Hwords ltac:(discriminate)
                  (Hlast ltac:(cbn [length]; lia))).
    lia.
Qed.

End Normalisation.


(** ** Conversions *)

(** *** toInt64 *)

(** C9.  [toInt64] returns the represented value of every stored number
    between -2^63 and 2^63 - 1, the magnitude 2^63 with the sign set
    giving the least 64-bit integer, and throws [OverflowToInt64] on every
    stored number outside that interval. *)
Theorem toInt64_range (a : BigNum) :
  well_formed a ->
  (INT64_MIN <= value a <= INT64_MAX -> toInt64 a = Ok (value a))
  /\ (~ (INT64_MIN <= value a <= INT64_MAX) -> toInt64 a = Err OverflowToInt64).
Proof.
  destruct a as [ds neg]. intros (Hne & Hall & Hlast).
  unfold value, magnitude, INT64_MIN, INT64_MAX in *.
  cbn [digits negative] in *.
  destruct ds as [|d [|d' rest]]; [congruence | |].
  - (* one word *)
    inversion Hall as [|? ? Hd _]; subst. unfold is_word in Hd.
    rewrite toInt64_one_word. cbn [eval]. rewrite Z.mul_0_r, Z.add_0_r.
    destruct (Z.eqb_spec d 0) as [->|Hnz].
    + destruct neg; split; intros; try reflexivity; lia.
    + destruct neg.
      * destruct (Z.ltb_spec (2 ^ 63) d); split; intros; try lia; try reflexivity.
        f_equal. destruct (Z.eq_dec d (2 ^ 63)) as [->|Hlt]; [reflexivity|].
        rewrite (to_int64_small d) by lia.
        unfold to_int64.
        replace (- d) with (2 ^ 64 - d + (-1) * 2 ^ 64) by lia.
        rewrite Z.mod_add by lia. rewrite Z.mod_small by lia.
        destruct (Z.ltb_spec (2 ^ 64 - d) (2 ^ 63)); lia.
      * destruct (Z.ltb_spec (2 ^ 63 - 1) d); split; intros; try lia; try reflexivity.
        f_equal. apply to_int64_small. lia.
  - (* more than one word: the magnitude is at least 2^64 *)
    assert (Hrest : 0 < eval (d' :: rest)).
    { apply eval_top_nonzero.
      - inversion Hall; assumption.
      - discriminate.
      - apply Hlast. unfold size. cbn [digits length]. lia. }
    inversion Hall as [|? ? Hd _]; subst. unfold is_word in Hd.
    change (eval (d :: d' :: rest)) with (d + 2 ^ 64 * eval (d' :: rest)).
    unfold toInt64, size. cbn [digits length].
    change (1 <? S (S (length rest)))%nat with true. cbv iota.
    split; intros H; [|reflexivity].
    destruct neg; lia.
Qed.

Lemma toInt64_range_witness :
  well_formed (mkBigNum [2 ^ 63] true)
  /\ toInt64 (mkBigNum [2 ^ 63] true) = Ok INT64_MIN.
Proof.
  assert (W : well_formed (mkBigNum [2 ^ 63] true)).
  { unfold well_formed, is_word, size. simpl. repeat split.
    - discriminate.
    - constructor; [lia | constructor].
    - lia. }
  split; [exact W|].
  apply (proj1 (toInt64_range (mkBigNum [2 ^ 63] true) W)).
  unfold value, magnitude, INT64_MIN, INT64_MAX. simpl. lia.
Defined.


(** *** Byte arrays *)

Lemma toByteArray_of_zero (a : BigNum) : isZero a = true -> toByteArray a = [].
Proof.
  intros H. unfold toByteArray, byteLength, bitLength. rewrite H. reflexivity.
Qed.

(** C10.  [toByteArray] of zero is the empty sequence, [fromByteArray] of
    the empty sequence is the canonical zero, and so the byte round trip
    holds at zero. *)
Theorem byte_round_trip_at_zero :
  toByteArray zero = []
  /\ fromByteArray [] = zero
  /\ fromByteArray (toByteArray zero) = zero
  /\ zero = mkBigNum [0] false.
Proof. repeat apply conj; reflexivity. Qed.

(** *** Hex strings *)

Section Hex.

Lemma hex_char_step_spec (value : Z) (c : ascii) :
  if is_hex_digit c then exists v, hex_char_step value c = Ok v
  else hex_char_step value c = Err InvalidHex.
Proof.
  unfold is_hex_digit, hex_char_step.
  destruct (char_between "0" c "9"); [eexists; reflexivity|].
  destruct (char_between "a" c "f"); [eexists; reflexivity|].
  destruct (char_between "A" c "F"); [eexists; reflexivity|].
  reflexivity.
Qed.

Lemma hex_chunk_value_spec (chunk : list ascii) :
  forall value,
    if forallb is_hex_digit chunk then exists v, hex_chunk_value chunk value = Ok v
    else hex_chunk_value chunk value = Err InvalidHex.
Proof.
  induction chunk as [|c chunk IH]; intros value; cbn [forallb hex_chunk_value].
  - eexists; reflexivity.
  - pose proof (hex_char_step_spec value c) as Hc.
    destruct (is_hex_digit c); cbn [andb].
    + destruct Hc as [v ->]. cbn [bind]. apply IH.
    + rewrite Hc. reflexivity.
Qed.

Lemma hex_chunks_done (n : nat) (str : list ascii) (i : Z) :
  i <= 0 -> hex_chunks n str i = Ok [].
Proof.
  intros Hi. destruct n; [reflexivity|]. cbn [hex_chunks].
  destruct (Z.ltb_spec 0 i); [lia | reflexivity].
Qed.

Lemma firstn_split (A : Type) (l : list A) (m k : nat) :
  firstn (m + k) l = firstn m l ++ firstn k (skipn m l).
Proof.
  revert l. induction m as [|m IH]; intros l; [reflexivity|].
  destruct l as [|x l]; cbn [Nat.add firstn skipn app].
  - now rewrite firstn_nil.
  - now rewrite IH.
Qed.

Lemma hex_chunks_spec (n : nat) :
  forall (str : list ascii) (i : Z),
    i <= Z.of_nat n ->
    if forallb is_hex_digit (firstn (Z.to_nat i) str)
    then exists r, hex_chunks n str i = Ok r
    else hex_chunks n str i = Err InvalidHex.
Proof.
  induction n as [|n IH]; intros str i Hn.
  - replace (Z.to_nat i) with 0%nat by lia. cbn. eexists; reflexivity.
  - cbn [hex_chunks]. destruct (Z.ltb_spec 0 i) as [Hpos|Hle].
    2:{ replace (Z.to_nat i) with 0%nat by lia. cbn. eexists; reflexivity. }
    set (start := Z.max 0 (i - 16)).
    replace (Z.to_nat i) with (Z.to_nat start + Z.to_nat (i - start))%nat
      by (subst start; lia).
    rewrite firstn_split, forallb_app.
    unfold substr.
    pose proof (hex_chunk_value_spec
                  (firstn (Z.to_nat (i - start)) (skipn (Z.to_nat start) str)) 0)
      as Hchunk.
    assert (Hrest :
              if forallb is_hex_digit (firstn (Z.to_nat start) str)
              then exists r, hex_chunks n str (i - 16) = Ok r
              else hex_chunks n str (i - 16) = Err InvalidHex).
    { destruct (Z.le_gt_cases i 16).
      - replace (Z.to_nat start) with 0%nat by (subst start; lia).
        cbn [firstn forallb]. rewrite hex_chunks_done by lia.
        eexists; reflexivity.
      - replace start with (i - 16) by (subst start; lia).
        apply IH. lia. }
    destruct (forallb is_hex_digit
                (firstn (Z.to_nat (i - start)) (skipn (Z.to_nat start) str))).
    + destruct Hchunk as [v ->]. cbn [bind]. rewrite andb_true_r.
      destruct (forallb is_hex_digit (firstn (Z.to_nat start) str)).
      * destruct Hrest as [r ->]. cbn [bind]. eexists; reflexivity.
      * rewrite Hrest. reflexivity.
    + rewrite Hchunk, andb_false_r. reflexivity.
Qed.

Lemma hex_chunks_whole (str : list ascii) :
  if forallb is_hex_digit str
  then exists r, hex_chunks (length str) str (Z.of_nat (length str)) = Ok r
  else hex_chunks (length str) str (Z.of_nat (length str)) = Err InvalidHex.
Proof.
  pose proof (hex_chunks_spec (length str) str (Z.of_nat (length str))
                (Z.le_refl _)) as H.
  rewrite Nat2Z.id, firstn_all in H. exact H.
Qed.

Lemma fromHexString_stripped (s : string) :
  let str := strip_0x (strip_sign (list_ascii_of_string s)) in
  if forallb is_hex_digit str
  then exists a, fromHexString s = Ok a
  else fromHexString s = Err InvalidHex.
Proof.
  unfold fromHexString, strip_sign.
  destruct (list_ascii_of_string s) as [|c0 after_sign].
  - cbn. eexists; reflexivity.
  - set (str1 := if Ascii.eqb c0 "-"%char then after_sign else c0 :: after_sign).
    change (match str1 with
            | c1 :: c2 :: after_prefix =>
                if Ascii.eqb c1 "0"%char && Ascii.eqb c2 "x"%char then after_prefix else str1
            | _ => str1
            end) with (strip_0x str1).
    cbv zeta.
    pose proof (hex_chunks_whole (strip_0x str1)) as H.
    destruct (strip_0x str1) as [|c rest] eqn:E.
    + cbn. eexists; reflexivity.
    + destruct (forallb is_hex_digit (c :: rest)).
      * destruct H as [r ->]. cbn [bind]. eexists; reflexivity.
      * rewrite H. reflexivity.
Qed.

Lemma strip_decompose (str : list ascii) :
  exists sign prefix,
    str = sign ++ prefix ++ strip_0x (strip_sign str)
    /\ (sign = [] \/ sign = ["-"%char])
    /\ (prefix = [] \/ prefix = ["0"%char; "x"%char]).
Proof.
  assert (P : forall l, exists prefix,
               l = prefix ++ strip_0x l /\ (prefix = [] \/ prefix = ["0"%char; "x"%char])).
  { intros l. unfold strip_0x. destruct l as [|c1 [|c2 l]];
      try (exists []; split; [reflexivity | now left]).
    destruct (Ascii.eqb_spec c1 "0"%char) as [->|]; cbn [andb];
      try (exists []; split; [reflexivity | now left]).
    destruct (Ascii.eqb_spec c2 "x"%char) as [->|];
      try (exists []; split; [reflexivity | now left]).
    exists ["0"%char; "x"%char]. split; [reflexivity | now right]. }
  unfold strip_sign. destruct str as [|c0 rest].
  - exists [], []. cbn. auto.
  - destruct (Ascii.eqb_spec c0 "-"%char) as [->|].
    + destruct (P rest) as (prefix & Hp & Hpre).
      exists ["-"%char], prefix. split; [|auto].
      cbn [app]. f_equal. exact Hp.
    + destruct (P (c0 :: rest)) as (prefix & Hp & Hpre).
      exists [], prefix. split; [|auto]. exact Hp.
Qed.

Lemma strip_of_format (sign prefix body : list ascii) :
  (sign = [] \/ sign = ["-"%char]) ->
  (prefix = [] \/ prefix = ["0"%char; "x"%char]) ->
  forallb is_hex_digit body = true ->
  strip_0x (strip_sign (sign ++ prefix ++ body)) = body.
Proof.
  intros Hs Hp Hb.
  assert (B0 : strip_0x body = body).
  { destruct body as [|c1 [|c2 body]]; try reflexivity.
    cbn [strip_0x]. destruct (Ascii.eqb_spec c2 "x"%char) as [->|];
      [|now rewrite andb_false_r].
    cbn [forallb] in Hb. rewrite andb_true_iff in Hb. destruct Hb as [_ Hb].
    discriminate Hb. }
  assert (B1 : strip_sign body = body).
  { destruct body as [|c body]; [reflexivity|].
    cbn [strip_sign]. destruct (Ascii.eqb_spec c "-"%char) as [->|]; [|reflexivity].
    discriminate Hb. }
  destruct Hs as [-> | ->], Hp as [-> | ->]; cbn [app].
  - rewrite B1. exact B0.
  - reflexivity.
  - cbn [strip_sign]. change (Ascii.eqb "-"%char "-"%char) with true. cbv iota. exact B0.
  - reflexivity.
Qed.

End Hex.

(** C8, as amended.  [fromHexString] succeeds exactly on the strings made
    of an optional ['-'], an optional lower-case ["0x"], and then hex
    digits, none included (the empty string, ["-"], ["0x"] and ["-0x"] give
    zero); on every other string it throws [InvalidHex]. *)
Theorem fromHexString_accepted_format (s : string) :
  ((exists a, fromHexString s = Ok a) /\ accepted_hex_format s)
  \/ (fromHexString s = Err InvalidHex /\ ~ accepted_hex_format s).
Proof.
  pose proof (fromHexString_stripped s) as H. cbv zeta in H.
  destruct (forallb is_hex_digit (strip_0x (strip_sign (list_ascii_of_string s))))
    eqn:E.
  - left. split; [exact H|].
    destruct (strip_decompose (list_ascii_of_string s)) as (sign & prefix & Hd & Hs & Hp).
    exists sign, prefix, (strip_0x (strip_sign (list_ascii_of_string s))). auto.
  - right. split; [exact H|].
    intros (sign & prefix & body & Hd & Hs & Hp & Hb).
    rewrite Hd, (strip_of_format sign prefix body Hs Hp Hb) in E. congruence.
Qed.

(** C8 as stated fails on the code: the empty string is parsed (to zero)
    though the stated format asks for a digit, and the upper-case prefix
    of ["0X1F"] is in the stated format but not parsed. *)
Lemma fromHexString_not_spec_format :
  (fromHexString "" = Ok zero /\ ~ spec_hex_format "")
  /\ (fromHexString "0X1F" = Err InvalidHex /\ spec_hex_format "0X1F").
Proof.
  split; split; try reflexivity.
  - intros (sign & prefix & body & Hd & _ & _ & Hne & _).
    cbn in Hd. destruct sign; [|discriminate]. destruct prefix; [|discriminate].
    destruct body; [congruence | discriminate].
  - exists [], ["0"%char; "X"%char], ["1"%char; "F"%char]. cbn. repeat split; auto. discriminate.
Qed.


(** ** The operands of the evaluations

    Each of them is what [fromHexString] returns on its hex string. *)
Lemma operands_from_hex :
  fromHexString "100000000000000000000000000000000" = Ok two_pow_128
  /\ fromHexString "ffffffffffffffff0000000000000001" = Ok borrow_modulus
  /\ fromHexString
       "10000000000000000000000000000000000000000000000000000000000000000"
     = Ok karatsuba_a
  /\ fromHexString
       "10000000000000000ffffffffffffffff0000000000000001000000000000000000000000000000000000000000000000ffffffffffffffff"
     = Ok karatsuba_b
  /\ fromHexString
       "f000000000000000000000000000000000000000000000000000000000000001"
     = Ok montgomery_modulus
  /\ fromHexString
       "f000000000000000000000000000000000000000000000000000000000000000"
     = Ok montgomery_base.
Proof. repeat apply conj; vm_compute; reflexivity. Qed.

(** ** Signed addition *)

(** C1 fails on the code: [operator+] sets the sign after the sum was
    normalised and, unlike [operator*], [operator/] and [operator%], does
    not normalise again; (-5) + 5 is a zero with the sign set, which is not
    canonical. *)
Theorem operator_add_returns_negative_zero :
  operator_add (BigNum_of_int64 (-5)) (BigNum_of_int64 5) = mkBigNum [0] true
  /\ canonical (BigNum_of_int64 (-5))
  /\ canonical (BigNum_of_int64 5)
  /\ ~ canonical (operator_add (BigNum_of_int64 (-5)) (BigNum_of_int64 5)).
Proof.
  assert (C : forall x neg, 0 < x < 2 ^ 64 -> canonical (mkBigNum [x] neg)).
  { intros x neg Hx. unfold canonical, well_formed, magnitude, size, is_word.
    cbn [digits negative length eval].
    repeat split; try discriminate; try lia. repeat constructor; lia. }
  split; [reflexivity|]. split; [|split].
  - apply (C 5 true). lia.
  - apply (C 5 false). lia.
  - intros [_ H].
    change (operator_add (BigNum_of_int64 (-5)) (BigNum_of_int64 5))
      with (mkBigNum [0] true) in H.
    specialize (H eq_refl). discriminate H.
Qed.

(** The same zero is told apart from the canonical one by [operator==]. *)
Lemma negative_zero_is_not_equal_to_zero :
  operator_eq (operator_add (BigNum_of_int64 (-5)) (BigNum_of_int64 5)) zero
  = false.
Proof. reflexivity. Qed.

(** ** Division *)

(** C2 fails on the code: [divideUnsigned] compares its operands with the
    signed [compare], so a negative dividend is "smaller" than a positive
    divisor and is returned whole as the remainder: (-7) % 2 is -7 and
    (-7) / 2 is 0. *)
Theorem remainder_of_negative_dividend :
  forall fuel,
    operator_mod fuel (BigNum_of_int64 (-7)) (BigNum_of_int64 2)
    = Ok (BigNum_of_int64 (-7))
    /\ operator_div fuel (BigNum_of_int64 (-7)) (BigNum_of_int64 2)
       = Ok (BigNum_of_int64 0)
    /\ ~ (Z.abs (value (BigNum_of_int64 (-7)))
          < Z.abs (value (BigNum_of_int64 2))).
Proof.
  intros fuel. split; [reflexivity|]. split; [reflexivity|].
  vm_compute. intros H; discriminate H.
Qed.

(** On operands that are not negative the borrow of [subtractUnsigned] is
    lost when a word of the subtrahend is 2^64 - 1: the wrapped sum
    [bi + borrow] is 0. *)
Lemma remainder_with_lost_borrow :
  operator_mod 200 two_pow_128 borrow_modulus
  = Ok (mkBigNum [UINT64_MAX; 0; 1] false)
  /\ value two_pow_128 mod value borrow_modulus = 2 ^ 64 - 1.
Proof. repeat apply conj; vm_compute; reflexivity. Qed.

(** ** Multiplication *)

(** C6 fails on the code: on 2^256 and an eight-word factor the middle
    term [z1] of Karatsuba goes through the subtraction that loses a
    borrow, and the product differs from the schoolbook one (which is the
    product of the values) in the word of weight 2^384. *)
Theorem karatsuba_differs_from_schoolbook :
  multiplyKaratsuba 8 karatsuba_a karatsuba_b
  = Ok (mkBigNum [0; 0; 0; 0; UINT64_MAX; 0; 1; 0; 1; UINT64_MAX; 0; 1] false)
  /\ multiplySchoolbook karatsuba_a karatsuba_b
     = mkBigNum [0; 0; 0; 0; UINT64_MAX; 0; 0; 0; 1; UINT64_MAX; 0; 1] false
  /\ value (multiplySchoolbook karatsuba_a karatsuba_b)
     = value karatsuba_a * value karatsuba_b
  /\ sub_loop [0; 0; 1; 1] [1; UINT64_MAX; 0; 1] 0 = [UINT64_MAX; 0; 1; 0].
Proof. repeat apply conj; vm_compute; reflexivity. Qed.

(** ** Modular exponentiation *)

Section NoThrow.

Lemma no_throw_Ok {A : Type} (a : A) : no_throw (Ok a).
Proof. intros e H; discriminate H. Qed.

Lemma no_throw_OutOfFuel {A : Type} : no_throw (@OutOfFuel A).
Proof. intros e H; discriminate H. Qed.

Lemma no_throw_bind {A B : Type} (m : result A) (f : A -> result B) :
  no_throw m -> (forall a, m = Ok a -> no_throw (f a)) -> no_throw (bind m f).
Proof.
  intros Hm Hf. destruct m as [a | e | ]; cbn [bind].
  - apply Hf. reflexivity.
  - exfalso. exact (Hm e eq_refl).
  - apply no_throw_OutOfFuel.
Qed.

#[local] Hint Resolve no_throw_Ok no_throw_OutOfFuel : throws.

Lemma multiplyKaratsuba_with_no_throw rec a b :
  (forall x y, no_throw (rec x y)) ->
  no_throw (multiplyKaratsuba_with rec a b).
Proof.
  intros Hrec. unfold multiplyKaratsuba_with.
  destruct (_ <? _)%nat; [apply no_throw_Ok|].
  repeat (apply no_throw_bind; [apply Hrec | intros ? _]).
  apply no_throw_Ok.
Qed.

Lemma multiplyUnsigned_no_throw fuel :
  forall a b, no_throw (multiplyUnsigned fuel a b).
Proof.
  induction fuel as [|fuel IH]; intros a b; cbn [multiplyUnsigned];
    destruct (_ <=? _)%nat; auto with throws.
  apply multiplyKaratsuba_with_no_throw. exact IH.
Qed.

Lemma operator_mul_no_throw fuel a b : no_throw (operator_mul fuel a b).
Proof.
  unfold operator_mul. apply no_throw_bind.
  - apply multiplyUnsigned_no_throw.
  - intros; apply no_throw_Ok.
Qed.

Lemma div_scale_no_throw fuel :
  forall temp remainder shift, no_throw (div_scale fuel temp remainder shift).
Proof.
  induction fuel as [|fuel IH]; intros; cbn [div_scale];
    destruct (operator_le _ _); auto with throws.
Qed.

Lemma divideUnsigned_no_throw fuel a divisor :
  isZero divisor = false -> no_throw (divideUnsigned fuel a divisor).
Proof.
  intros Hnz. unfold divideUnsigned. rewrite Hnz.
  destruct (_ <? _); [apply no_throw_Ok|].
  apply no_throw_bind; [apply div_scale_no_throw|].
  intros [temp shift] _. apply no_throw_Ok.
Qed.

Lemma operator_mod_no_throw fuel a divisor :
  isZero divisor = false -> no_throw (operator_mod fuel a divisor).
Proof.
  intros Hnz. unfold operator_mod. apply no_throw_bind.
  - apply divideUnsigned_no_throw, Hnz.
  - intros; apply no_throw_Ok.
Qed.

Lemma modPow_plain_loop_no_throw fuel modulus :
  isZero modulus = false ->
  forall n result_ base exp,
    no_throw (modPow_plain_loop fuel n result_ base exp modulus).
Proof.
  intros Hnz. induction n as [|n IH]; intros; cbn [modPow_plain_loop];
    destruct (isZero exp); auto with throws.
  apply no_throw_bind.
  - destruct (isOdd exp); [|apply no_throw_Ok].
    apply no_throw_bind; [apply operator_mul_no_throw|].
    intros; apply operator_mod_no_throw, Hnz.
  - intros result' _. apply no_throw_bind.
    + apply no_throw_bind; [apply operator_mul_no_throw|].
      intros; apply operator_mod_no_throw, Hnz.
    + intros base' _. apply IH.
Qed.

Lemma modPowBinary_no_throw fuel this exponent modulus :
  isZero modulus = false -> no_throw (modPowBinary fuel this exponent modulus).
Proof.
  intros Hnz. unfold modPowBinary.
  apply no_throw_bind; [apply operator_mod_no_throw, Hnz|].
  intros base _.
  destruct (_ <=? _)%nat; [|apply modPow_plain_loop_no_throw, Hnz].
  destruct (Barrett.make fuel modulus) as [barrett | e | ].
  - destruct (modPow_barrett_loop _ _ _ _ _ _);
      auto using modPow_plain_loop_no_throw with throws.
  - apply modPow_plain_loop_no_throw, Hnz.
  - apply no_throw_OutOfFuel.
Qed.

Lemma modPowMontgomery_no_throw fuel this exponent modulus :
  isZero modulus = false ->
  no_throw (modPowMontgomery fuel this exponent modulus).
Proof.
  intros Hnz. unfold modPowMontgomery.
  destruct (modPowMontgomery_try fuel this exponent modulus);
    auto using modPowBinary_no_throw with throws.
Qed.

End NoThrow.

(** C4, as amended.  [modPow] throws exactly when the modulus is zero,
    and then [InvalidModulus]; with a modulus that is not zero it returns 1
    whenever the exponent is zero (also when the modulus is 1), and 0
    whenever the modulus is 1 and the exponent is not zero. *)
Theorem modPow_guards (fuel : nat) (base exp N : BigNum) :
  (modPow fuel base exp N = Err InvalidModulus <-> isZero N = true)
  /\ (forall e, modPow fuel base exp N = Err e -> isZero N = true)
  /\ (isZero N = false -> isZero exp = true -> modPow fuel base exp N = Ok one)
  /\ (isZero N = false -> isZero exp = false -> isOne N = true ->
      modPow fuel base exp N = Ok zero).
Proof.
  assert (Hthrow : forall e, modPow fuel base exp N = Err e -> isZero N = true).
  { intros e. unfold modPow. destruct (isZero N) eqn:HN; [reflexivity|].
    intros H. exfalso. revert H.
    destruct (isZero exp); [discriminate|].
    destruct (isOne N); [discriminate|].
    destruct (_ && _).
    - apply modPowMontgomery_no_throw, HN.
    - apply modPowBinary_no_throw, HN. }
  split; [split|split; [exact Hthrow|split]].
  - apply Hthrow.
  - intros HN. unfold modPow. rewrite HN. reflexivity.
  - intros HN He. unfold modPow. rewrite HN, He. reflexivity.
  - intros HN He H1. unfold modPow. rewrite HN, He, H1. reflexivity.
Qed.

Lemma modPow_guards_witness :
  modPow 10 two zero one = Ok one
  /\ modPow 10 two two one = Ok zero.
Proof.
  split.
  - apply (proj1 (proj2 (proj2 (modPow_guards 10 two zero one)))); reflexivity.
  - apply (proj2 (proj2 (proj2 (modPow_guards 10 two two one)))); reflexivity.
Defined.

(** C4 as stated fails on the code: with exponent 0 and modulus 1 the
    test of the exponent comes first and the result is 1, not 0. *)
Lemma modPow_exponent_zero_modulus_one :
  isZero one = false /\ isOne one = true
  /\ modPow 10 two zero one = Ok one
  /\ modPow 10 two zero one <> Ok zero.
Proof. repeat apply conj; try reflexivity. discriminate. Qed.

(** C3 fails on the code: 2^128 to the power 1 modulo 2^128 - 2^64 + 1 is
    returned as 2^65 - 2 where it is 2^64 - 1 (the reduction of the base
    loses a borrow), and -2 to the power 1 modulo 5 is returned as -2. *)
Theorem modPow_wrong_results :
  modPow 200 two_pow_128 one borrow_modulus
  = Ok (mkBigNum [2 ^ 64 - 2; 1] false)
  /\ value (mkBigNum [2 ^ 64 - 2; 1] false) = 2 ^ 65 - 2
  /\ (value two_pow_128 ^ value one) mod value borrow_modulus = 2 ^ 64 - 1
  /\ modPow 200 (BigNum_of_int64 (-2)) one (BigNum_of_int64 5)
     = Ok (BigNum_of_int64 (-2)).
Proof. repeat apply conj; vm_compute; reflexivity. Qed.

(** C5 fails on the code: for the odd four-word modulus 15 * 2^252 + 1
    and the base one below it, squared, the Montgomery path returns 0 and
    the binary path 1, which is the power; [modPow] takes the Montgomery
    path.  [MontgomeryContext::reduce] reads its result from the words
    [k .. 2k - 1] and drops the carry in word [2k]. *)
Theorem montgomery_path_differs :
  modPowMontgomery 300 montgomery_base two montgomery_modulus = Ok zero
  /\ modPowBinary 300 montgomery_base two montgomery_modulus = Ok one
  /\ modPow 300 montgomery_base two montgomery_modulus = Ok zero
  /\ (value montgomery_base ^ value two) mod value montgomery_modulus = 1.
Proof. repeat apply conj; vm_compute; reflexivity. Qed.

(** The reduction behind it: for the square of the base in Montgomery
    form the accumulator ends as 2^512, a 1 in word [2k] above eight zero
    words, and the result is read as 0. *)
Lemma montgomery_reduce_drops_carry :
  exists mont,
    Montgomery.make 300 montgomery_modulus = Ok mont
    /\ Montgomery.toMontgomery 300 mont montgomery_base
       = Ok (mkBigNum [2; 0; 0; 14 * 2 ^ 60] false)
    /\ operator_mul 8 (mkBigNum [2; 0; 0; 14 * 2 ^ 60] false)
                      (mkBigNum [2; 0; 0; 14 * 2 ^ 60] false)
       = Ok (mkBigNum [4; 0; 0; 2 ^ 63; 3; 0; 0; 196 * 2 ^ 56] false)
    /\ Montgomery.reduce_outer 4 0 4
         (digits (Montgomery.n_prime mont)) (digits montgomery_modulus)
         [4; 0; 0; 2 ^ 63; 3; 0; 0; 196 * 2 ^ 56; 0]
       = [0; 0; 0; 0; 0; 0; 0; 0; 1]
    /\ Montgomery.reduce mont
         (mkBigNum [4; 0; 0; 2 ^ 63; 3; 0; 0; 196 * 2 ^ 56] false)
       = zero.
Proof.
  destruct (Montgomery.make 300 montgomery_modulus) as [mont | e | ] eqn:E;
    [| vm_compute in E; discriminate E | vm_compute in E; discriminate E].
  exists mont. split; [reflexivity|].
  vm_compute in E. injection E as <-.
  repeat apply conj; vm_compute; reflexivity.
Qed.

(** ** One-word arithmetic *)

Section Words.

Lemma u64_small (x : Z) : 0 <= x < 2 ^ 64 -> u64 x = x.
Proof. intros H. unfold u64. apply Z.mod_small. exact H. Qed.

Lemma u128_small (x : Z) : 0 <= x < 2 ^ 128 -> u128 x = x.
Proof. intros H. unfold u128. apply Z.mod_small. exact H. Qed.

Lemma low_word (s : Z) : u64 (Z.land s UINT64_MAX) = s mod 2 ^ 64.
Proof.
  unfold u64. change UINT64_MAX with (Z.ones 64).
  rewrite Z.land_ones by lia. apply Z.mod_mod. lia.
Qed.

Lemma high_word (s : Z) : Z.shiftr s 64 = s / 2 ^ 64.
Proof. apply Z.shiftr_div_pow2. lia. Qed.

Lemma add_step_small (s : Z) :
  0 <= s < 2 ^ 64 -> add_step (u128 s) = (s, 0).
Proof.
  intros H. unfold add_step. rewrite u128_small by lia.
  rewrite low_word, high_word.
  rewrite Z.mod_small, Z.div_small by lia. reflexivity.
Qed.

Lemma lor_disjoint_high (c lo : Z) :
  0 <= c -> 0 <= lo < 2 ^ 64 ->
  Z.lor (Z.shiftl c 64) lo = c * 2 ^ 64 + lo.
Proof.
  intros Hc Hlo.
  rewrite Z.shiftl_mul_pow2 by lia.
  rewrite <- Z.lxor_lor, <- Z.add_nocarry_lxor; try reflexivity.
  all: rewrite <- Z.shiftl_mul_pow2 by lia.
  all: apply Z.bits_inj'; intros k Hk.
  all: rewrite Z.land_spec, Z.bits_0.
  all: destruct (Z.lt_ge_cases k 64).
  all: try (rewrite Z.shiftl_spec_low by lia; reflexivity).
  all: rewrite andb_comm.
  all: destruct (Z.eq_dec lo 0) as [->|];
    [rewrite Z.bits_0; reflexivity|].
  all: assert (Z.log2 lo < 64) by (apply Z.log2_lt_pow2; lia).
  all: rewrite (Z.bits_above_log2 lo k); [reflexivity | lia | lia].
Qed.


(** Normalisation of vectors of one and two words. *)
Lemma BigNum_of_digits_1 (x : Z) (neg : bool) :
  BigNum_of_digits [x] neg = mkBigNum [x] (if x =? 0 then false else neg).
Proof.
  unfold BigNum_of_digits, removeLeadingZeros.
  cbn [digits negative rev app pop_back_zeros].
  destruct (x =? 0); reflexivity.
Qed.

Lemma BigNum_of_digits_2 (x y : Z) (neg : bool) :
  BigNum_of_digits [x; y] neg =
  if y =? 0 then BigNum_of_digits [x] neg else mkBigNum [x; y] neg.
Proof.
  unfold BigNum_of_digits, removeLeadingZeros.
  cbn [digits negative rev app pop_back_zeros].
  destruct (y =? 0); reflexivity.
Qed.

Lemma BigNum_of_digits_word (x : Z) :
  BigNum_of_digits [x] false = word1 x.
Proof. rewrite BigNum_of_digits_1. destruct (x =? 0); reflexivity. Qed.

Lemma removeLeadingZeros_1 (x : Z) (neg : bool) :
  removeLeadingZeros (mkBigNum [x] neg)
  = mkBigNum [x] (if x =? 0 then false else neg).
Proof. apply BigNum_of_digits_1. Qed.

(** The unsigned core on one-word operands. *)
Lemma addUnsigned_1 (x y : Z) (nx ny : bool) :
  0 <= x -> 0 <= y -> x + y < 2 ^ 64 ->
  addUnsigned (mkBigNum [x] nx) (mkBigNum [y] ny) = word1 (x + y).
Proof.
  intros Hx Hy Hxy. unfold addUnsigned.
  cbn [digits add_loop add_rest add_carry_out].
  rewrite Z.add_0_l, add_step_small by lia.
  cbn [add_rest add_carry_out Z.eqb]. apply BigNum_of_digits_word.
Qed.

Lemma subtractUnsigned_1 (x y : Z) (nx ny : bool) :
  0 <= y <= x -> x < 2 ^ 64 ->
  subtractUnsigned (mkBigNum [x] nx) (mkBigNum [y] ny) = word1 (x - y).
Proof.
  intros Hy Hx. unfold subtractUnsigned.
  cbn [digits sub_loop hd tl].
  rewrite Z.add_0_r, Z.sub_0_r, (u64_small y) by lia.
  destruct (Z.leb_spec y x); [|lia].
  rewrite u64_small by lia. apply BigNum_of_digits_word.
Qed.

Lemma multiplySchoolbook_1 (x y : Z) (nx ny : bool) :
  0 <= x -> 0 <= y -> x * y < 2 ^ 64 ->
  multiplySchoolbook (mkBigNum [x] nx) (mkBigNum [y] ny) = word1 (x * y).
Proof.
  intros Hx Hy Hxy.
  assert (0 <= x * y) by lia.
  unfold multiplySchoolbook, size, zeros.
  cbn [digits length Nat.add repeat mul_rows mul_row Nat.ltb Nat.leb
       orb set_nth].
  unfold get. cbn [nth].
  rewrite !Z.add_0_l.
  rewrite !(u128_small (x * y)) by lia.
  rewrite high_word, Z.div_small by lia.
  cbn [Z.eqb negb].
  rewrite low_word, Z.mod_small by lia.
  rewrite BigNum_of_digits_2. cbn [Z.eqb]. apply BigNum_of_digits_word.
Qed.

End Words.

Section SignedWords.

Lemma value_1 (x : Z) (neg : bool) :
  value (mkBigNum [x] neg) = if neg then - x else x.
Proof.
  unfold value, magnitude. cbn [digits negative eval].
  rewrite Z.mul_0_r, Z.add_0_r. reflexivity.
Qed.

Lemma value_word1 (x : Z) : value (word1 x) = x.
Proof. apply value_1. Qed.

Lemma one_word_word1 (x : Z) : is_word x -> one_word (word1 x).
Proof. intros H. exists x. split; [reflexivity | exact H]. Qed.

Lemma operator_neg_1 (x : Z) (neg : bool) :
  operator_neg (mkBigNum [x] neg)
  = if x =? 0 then mkBigNum [x] neg else mkBigNum [x] (negb neg).
Proof.
  unfold operator_neg, isZero. cbn [digits negative].
  destruct (x =? 0); reflexivity.
Qed.

Lemma operator_add_1 (x y : Z) (nx ny : bool) :
  is_word x -> is_word y ->
  Z.abs (value (mkBigNum [x] nx) + value (mkBigNum [y] ny)) < 2 ^ 64 ->
  exists neg,
    operator_add (mkBigNum [x] nx) (mkBigNum [y] ny)
    = mkBigNum [Z.abs (value (mkBigNum [x] nx) + value (mkBigNum [y] ny))] neg
    /\ value (operator_add (mkBigNum [x] nx) (mkBigNum [y] ny))
       = value (mkBigNum [x] nx) + value (mkBigNum [y] ny).
Proof.
  unfold is_word. intros Hx Hy. rewrite !value_1. intros Hz.
  unfold operator_add, size. cbn [digits negative length rev app].
  change (1 =? 1)%nat with true. cbn [negb compare_from_top].
  destruct nx, ny; cbn [Bool.eqb].
  - rewrite addUnsigned_1 by lia. exists true.
    unfold set_negative, word1. cbn [digits]. rewrite value_1.
    split; [f_equal; f_equal; lia | lia].
  - destruct (Z.eqb_spec x y) as [->|Hne]; cbn [negb].
    + cbn [Z.leb Z.compare]. rewrite subtractUnsigned_1 by lia.
      exists true. unfold set_negative, word1. cbn [digits]. rewrite value_1.
      split; [f_equal; f_equal; lia | lia].
    + destruct (Z.ltb_spec x y); cbn [Z.leb Z.compare].
      * rewrite subtractUnsigned_1 by lia. exists false.
        unfold set_negative, word1. cbn [digits]. rewrite value_1.
        split; [f_equal; f_equal; lia | lia].
      * rewrite subtractUnsigned_1 by lia. exists true.
        unfold set_negative, word1. cbn [digits]. rewrite value_1.
        split; [f_equal; f_equal; lia | lia].
  - destruct (Z.eqb_spec x y) as [->|Hne]; cbn [negb].
    + cbn [Z.leb Z.compare]. rewrite subtractUnsigned_1 by lia.
      exists false. unfold set_negative, word1. cbn [digits]. rewrite value_1.
      split; [f_equal; f_equal; lia | lia].
    + destruct (Z.ltb_spec x y); cbn [Z.leb Z.compare].
      * rewrite subtractUnsigned_1 by lia. exists true.
        unfold set_negative, word1. cbn [digits]. rewrite value_1.
        split; [f_equal; f_equal; lia | lia].
      * rewrite subtractUnsigned_1 by lia. exists false.
        unfold set_negative, word1. cbn [digits]. rewrite value_1.
        split; [f_equal; f_equal; lia | lia].
  - rewrite addUnsigned_1 by lia. exists false.
    unfold set_negative, word1. cbn [digits]. rewrite value_1.
    split; [f_equal; f_equal; lia | lia].
Qed.

Lemma operator_add_one_word (a b : BigNum) :
  one_word a -> one_word b ->
  Z.abs (value a + value b) < 2 ^ 64 ->
  one_word (operator_add a b)
  /\ value (operator_add a b) = value a + value b.
Proof.
  intros (x & Ha & Hx) (y & Hb & Hy) Hz.
  destruct a as [da na], b as [db nb]. cbn [digits] in Ha, Hb. subst da db.
  destruct (operator_add_1 x y na nb Hx Hy Hz) as (neg & Heq & Hv).
  split; [|exact Hv].
  rewrite Heq. eexists. split; [reflexivity|]. unfold is_word. lia.
Qed.

Lemma operator_neg_one_word (a : BigNum) :
  one_word a ->
  one_word (operator_neg a) /\ value (operator_neg a) = - value a.
Proof.
  intros (x & Ha & Hx). destruct a as [da na]. cbn [digits] in Ha. subst da.
  rewrite operator_neg_1. destruct (Z.eqb_spec x 0) as [->|Hnz].
  - split; [exists 0; auto|]. rewrite value_1. destruct na; reflexivity.
  - split; [exists x; auto|]. rewrite !value_1. destruct na; cbn [negb]; lia.
Qed.

Lemma operator_sub_one_word (a b : BigNum) :
  one_word a -> one_word b ->
  Z.abs (value a - value b) < 2 ^ 64 ->
  one_word (operator_sub a b)
  /\ value (operator_sub a b) = value a - value b.
Proof.
  intros Ha Hb Hz. unfold operator_sub.
  destruct (operator_neg_one_word b Hb) as [Hnb Hvb].
  destruct (operator_add_one_word a (operator_neg b) Ha Hnb) as [H1 H2].
  - rewrite Hvb. replace (value a + - value b) with (value a - value b) by lia.
    exact Hz.
  - split; [exact H1 | lia].
Qed.

Lemma operator_mul_one_word (fuel : nat) (a b : BigNum) :
  one_word a -> one_word b ->
  Z.abs (value a * value b) < 2 ^ 64 ->
  exists c, operator_mul fuel a b = Ok c
            /\ one_word c /\ value c = value a * value b.
Proof.
  intros (x & Ha & Hx) (y & Hb & Hy).
  destruct a as [da na], b as [db nb]. cbn [digits] in Ha, Hb. subst da db.
  unfold is_word in Hx, Hy. rewrite !value_1. intros Hz.
  assert (Hxy : 0 <= x * y < 2 ^ 64) by (destruct na, nb; nia).
  unfold operator_mul.
  replace (multiplyUnsigned fuel (mkBigNum [x] na) (mkBigNum [y] nb))
    with (Ok (multiplySchoolbook (mkBigNum [x] na) (mkBigNum [y] nb)))
    by (destruct fuel; reflexivity).
  cbn [bind]. rewrite multiplySchoolbook_1 by lia.
  unfold set_negative, word1. cbn [digits negative].
  rewrite removeLeadingZeros_1. eexists. split; [reflexivity|].
  split; [exists (x * y); split; [reflexivity | exact Hxy]|].
  rewrite value_1.
  destruct (Z.eqb_spec (x * y) 0) as [E|E]; destruct na, nb; cbn [xorb]; nia.
Qed.

(** Exact results on non-negative one-word operands. *)
Lemma operator_sub_word (u v : Z) :
  0 <= v <= u -> u < 2 ^ 64 ->
  operator_sub (word1 u) (word1 v) = word1 (u - v).
Proof.
  intros Hv Hu. unfold operator_sub, word1. rewrite operator_neg_1.
  destruct (Z.eqb_spec v 0) as [->|Hnz].
  - unfold operator_add. cbn [negative Bool.eqb].
    rewrite addUnsigned_1 by lia. unfold set_negative, word1. cbn [digits].
    replace (u - 0) with (u + 0) by lia. reflexivity.
  - unfold operator_add, size.
    cbn [negative negb Bool.eqb digits length rev app compare_from_top].
    change (1 =? 1)%nat with true. cbn [negb].
    destruct (Z.eqb_spec u v); destruct (Z.ltb_spec u v);
      cbn [negb Z.leb Z.compare]; try lia;
      rewrite subtractUnsigned_1 by lia; reflexivity.
Qed.

Lemma operator_add_word (u v : Z) :
  0 <= u -> 0 <= v -> u + v < 2 ^ 64 ->
  operator_add (word1 u) (word1 v) = word1 (u + v).
Proof.
  intros Hu Hv Huv. unfold operator_add, word1. cbn [negative Bool.eqb].
  rewrite addUnsigned_1 by lia. reflexivity.
Qed.

Lemma operator_mul_word (fuel : nat) (u v : Z) :
  0 <= u -> 0 <= v -> u * v < 2 ^ 64 ->
  operator_mul fuel (word1 u) (word1 v) = Ok (word1 (u * v)).
Proof.
  intros Hu Hv Huv. unfold operator_mul.
  replace (multiplyUnsigned fuel (word1 u) (word1 v))
    with (Ok (multiplySchoolbook (word1 u) (word1 v)))
    by (destruct fuel; reflexivity).
  cbn [bind]. unfold word1. rewrite multiplySchoolbook_1 by lia.
  unfold set_negative, word1. cbn [digits negative xorb].
  rewrite removeLeadingZeros_1. destruct (u * v =? 0); reflexivity.
Qed.

End SignedWords.

Section Division.

Lemma nat_repr_small (v : Z) : v < 2 ^ 64 -> nat_repr v = word1 v.
Proof.
  intros H. unfold nat_repr. destruct (Z.ltb_spec v (2 ^ 64)); [reflexivity | lia].
Qed.

Lemma BigNum_of_int64_1 : BigNum_of_int64 1 = word1 1.
Proof. reflexivity. Qed.

Lemma BigNum_of_int64_0 : BigNum_of_int64 0 = word1 0.
Proof. reflexivity. Qed.

Lemma operator_shl_1 (v : Z) :
  0 <= v < 2 ^ 64 -> operator_shl (word1 v) 1 = nat_repr (2 * v).
Proof.
  intros Hv. unfold operator_shl, word1, zeros.
  change (1 <=? 0) with false. change (1 / 64) with 0.
  change (1 mod 64) with 1. change (1 =? 0) with false.
  cbn [Z.to_nat repeat app digits negative shl_loop].
  rewrite Z.lor_0_r, Z.shiftl_mul_pow2 by lia.
  rewrite u128_small by lia. rewrite low_word, high_word.
  change (2 ^ 1) with 2. replace (v * 2) with (2 * v) by lia.
  rewrite BigNum_of_digits_2. unfold nat_repr.
  destruct (Z.ltb_spec (2 * v) (2 ^ 64)).
  - rewrite Z.div_small, Z.mod_small by lia.
    rewrite (u64_small 0) by lia. cbn [Z.eqb]. apply BigNum_of_digits_word.
  - assert (Hq : 2 * v / 2 ^ 64 = 1).
    { symmetry. apply (Z.div_unique (2 * v) (2 ^ 64) 1 (2 * v - 2 ^ 64)); lia. }
    rewrite Hq. change (u64 1) with 1. cbn [Z.eqb]. reflexivity.
Qed.

Lemma operator_shl_one (i : Z) :
  0 <= i < 64 -> operator_shl (BigNum_of_int64 1) i = word1 (2 ^ i).
Proof.
  intros Hi. rewrite BigNum_of_int64_1. unfold operator_shl.
  destruct (Z.leb_spec i 0).
  - replace i with 0 by lia. reflexivity.
  - rewrite Z.div_small, Z.mod_small by lia.
    destruct (Z.eqb_spec i 0); [lia|].
    unfold word1, zeros.
    cbn [Z.to_nat repeat app digits negative shl_loop].
    rewrite Z.lor_0_r, Z.shiftl_mul_pow2, Z.mul_1_l by lia.
    assert (0 < 2 ^ i < 2 ^ 64).
    { split; [apply Z.pow_pos_nonneg; lia|].
      apply Z.pow_lt_mono_r; lia. }
    rewrite u128_small by lia. rewrite low_word, high_word.
    rewrite Z.div_small, Z.mod_small by lia.
    rewrite (u64_small 0) by lia.
    rewrite BigNum_of_digits_2. cbn [Z.eqb]. apply BigNum_of_digits_word.
Qed.

Lemma operator_shr_word (v : Z) :
  0 <= v < 2 ^ 64 -> operator_shr (word1 v) 1 = word1 (v / 2).
Proof.
  intros Hv. unfold operator_shr, word1, size.
  change (1 <=? 0) with false. change (1 / 64) with 0.
  change (1 mod 64) with 1. change (1 =? 0) with false.
  cbn [digits negative length Z.of_nat Z.leb Z.compare Pos.of_succ_nat
       Z.to_nat skipn rev app shr_loop].
  change (Z.shiftl 0 64) with 0. rewrite Z.lor_0_l.
  rewrite Z.shiftr_div_pow2 by lia. change (2 ^ 1) with 2.
  assert (0 <= v / 2 < 2 ^ 64).
  { split; [apply Z.div_pos; lia|].
    apply Z.div_lt_upper_bound; lia. }
  rewrite u64_small by lia. apply BigNum_of_digits_word.
Qed.

Lemma operator_shr_1 (v : Z) :
  0 <= v < 2 ^ 65 -> operator_shr (nat_repr v) 1 = word1 (v / 2).
Proof.
  intros Hv. unfold nat_repr. destruct (Z.ltb_spec v (2 ^ 64)) as [Hs|Hb].
  - apply operator_shr_word. lia.
  - assert (Hq : v / 2 ^ 64 = 1).
    { symmetry. apply (Z.div_unique v (2 ^ 64) 1 (v - 2 ^ 64)); lia. }
    assert (Hlo : 0 <= v mod 2 ^ 64 < 2 ^ 64) by (apply Z.mod_pos_bound; lia).
    assert (Hv' : v = 2 ^ 64 + v mod 2 ^ 64).
    { rewrite (Z.div_mod v (2 ^ 64)) at 1 by lia. rewrite Hq. lia. }
    rewrite Hq. set (lo := v mod 2 ^ 64) in *.
    unfold operator_shr, size.
    change (1 <=? 0) with false. change (1 / 64) with 0.
    change (1 mod 64) with 1. change (1 =? 0) with false.
    cbn [digits negative length Z.of_nat Z.leb Z.compare Pos.of_succ_nat
         Z.to_nat skipn rev app shr_loop].
    change (Z.shiftl 0 64) with 0. rewrite Z.lor_0_l.
    change (Z.shiftr 1 1) with 0.
    change (u64 (Z.land 1 (u64 (Z.shiftl 1 1) - 1))) with 1.
    rewrite lor_disjoint_high by lia.
    rewrite Z.shiftr_div_pow2 by lia. change (2 ^ 1) with 2.
    replace (1 * 2 ^ 64 + lo) with v by lia.
    assert (0 < v / 2 < 2 ^ 64).
    { split; [apply Z.div_str_pos; lia|].
      apply Z.div_lt_upper_bound; lia. }
    rewrite u64_small by lia. change (u64 0) with 0.
    rewrite BigNum_of_digits_2. cbn [Z.eqb]. apply BigNum_of_digits_word.
Qed.

Lemma compare_words (u v : Z) :
  compare (word1 u) (word1 v) = sign_of_comparison u v.
Proof.
  unfold compare, word1, size, sign_of_comparison.
  cbn [negative digits Bool.eqb negb length rev app compare_from_top].
  change (1 =? 1)%nat with true. cbn [negb].
  destruct (Z.eqb_spec u v); destruct (Z.ltb_spec u v); cbn [negb]; try lia;
    reflexivity.
Qed.

Lemma compare_nat_repr_word (u v : Z) :
  0 <= u < 2 ^ 65 -> 0 <= v < 2 ^ 64 ->
  compare (nat_repr u) (word1 v) = sign_of_comparison u v.
Proof.
  intros Hu Hv. unfold nat_repr. destruct (Z.ltb_spec u (2 ^ 64)).
  - apply compare_words.
  - unfold compare, word1, size, sign_of_comparison.
    cbn [negative digits Bool.eqb negb length].
    change (2 =? 1)%nat with false. change (2 <? 1)%nat with false.
    cbn [negb].
    destruct (Z.ltb_spec u v); [lia|]. destruct (Z.eqb_spec u v); [lia|].
    reflexivity.
Qed.


Lemma operator_le_nat_repr (t a : Z) :
  0 <= t < 2 ^ 65 -> 0 <= a < 2 ^ 64 ->
  operator_le (nat_repr t) (word1 a) = (t <=? a).
Proof.
  intros Ht Ha. unfold operator_le. rewrite compare_nat_repr_word by lia.
  unfold sign_of_comparison.
  destruct (Z.ltb_spec t a); destruct (Z.eqb_spec t a);
    destruct (Z.leb_spec t a); try lia; reflexivity.
Qed.

Lemma operator_ge_words (r t : Z) :
  operator_ge (word1 r) (word1 t) = (t <=? r).
Proof.
  unfold operator_ge. rewrite compare_words. unfold sign_of_comparison.
  destruct (Z.ltb_spec r t); destruct (Z.eqb_spec r t);
    destruct (Z.leb_spec t r); try lia; reflexivity.
Qed.

Lemma div_scale_spec (fuel : nat) :
  forall t sh a,
    0 < t < 2 ^ 65 -> 0 <= a < 2 ^ 64 ->
    a < t * 2 ^ Z.of_nat fuel ->
    exists k,
      0 <= k
      /\ div_scale fuel (nat_repr t) (word1 a) sh
         = Ok (nat_repr (t * 2 ^ k), sh + k)
      /\ a < t * 2 ^ k
      /\ t * 2 ^ k < 2 ^ 65
      /\ (0 < k -> t * 2 ^ (k - 1) <= a).
Proof.
  induction fuel as [|fuel IH]; intros t sh a Ht Ha Hfuel.
  - cbn [div_scale]. rewrite operator_le_nat_repr by lia.
    change (2 ^ Z.of_nat 0) with 1 in Hfuel.
    destruct (Z.leb_spec t a); [lia|].
    exists 0. change (2 ^ 0) with 1. rewrite Z.mul_1_r, Z.add_0_r.
    repeat split; try lia.
  - cbn [div_scale]. rewrite operator_le_nat_repr by lia.
    destruct (Z.leb_spec t a) as [Hle|Hgt].
    + rewrite (nat_repr_small t) by lia. rewrite operator_shl_1 by lia.
      rewrite Nat2Z.inj_succ, Z.pow_succ_r in Hfuel by lia.
      destruct (IH (2 * t) (sh + 1) a) as (k & Hk & Heq & Hlt & Hub & Hlow);
        try lia.
      exists (k + 1).
      replace (t * 2 ^ (k + 1)) with (2 * t * 2 ^ k)
        by (rewrite Z.pow_add_r by lia; change (2 ^ 1) with 2; lia).
      replace (sh + (k + 1)) with (sh + 1 + k) by lia.
      repeat split; try assumption; try lia.
      intros _. replace (k + 1 - 1) with k by lia.
      destruct (Z.eq_dec k 0) as [->|Hk0].
      * change (2 ^ 0) with 1. lia.
      * specialize (Hlow ltac:(lia)).
        replace (t * 2 ^ k) with (2 * t * 2 ^ (k - 1)); [exact Hlow|].
        replace k with (k - 1 + 1) at 2 by lia.
        rewrite Z.pow_add_r by lia. change (2 ^ 1) with 2. lia.
    + exists 0. change (2 ^ 0) with 1. rewrite Z.mul_1_r, Z.add_0_r.
      repeat split; try lia.
Qed.

Lemma div_loop_spec (b : Z) (Hb : 0 < b) (n : nat) :
  forall i T r q,
    i = Z.of_nat n - 1 ->
    0 <= r < b * 2 ^ Z.of_nat n -> r < 2 ^ 64 ->
    (n <> 0%nat -> T = b * 2 ^ (Z.of_nat n - 1) /\ T < 2 ^ 64) ->
    0 <= q -> q + r / b < 2 ^ 64 ->
    div_loop n i (word1 T) (word1 r) (word1 q)
    = (word1 (q + r / b), word1 (r mod b)).
Proof.
  induction n as [|n IH]; intros i T r q Hi Hr Hr64 HT Hq Hbound.
  - cbn [div_loop]. change (2 ^ Z.of_nat 0) with 1 in Hr.
    rewrite Z.div_small, Z.mod_small, Z.add_0_r by lia. reflexivity.
  - destruct (HT ltac:(discriminate)) as [HTeq HTlt].
    rewrite Nat2Z.inj_succ in *.
    replace (Z.succ (Z.of_nat n) - 1) with (Z.of_nat n) in * by lia.
    rewrite Z.pow_succ_r in Hr by lia.
    assert (Hpow : 0 < 2 ^ Z.of_nat n) by (apply Z.pow_pos_nonneg; lia).
    assert (HTpos : 0 < T) by nia.
    assert (Hn64 : Z.of_nat n < 64).
    { destruct (Z.lt_ge_cases (Z.of_nat n) 64) as [|Hge]; [assumption|].
      pose proof (Z.pow_le_mono_r 2 64 (Z.of_nat n) ltac:(lia) Hge). nia. }
    assert (Hhalf : n <> 0%nat ->
                    T / 2 = b * 2 ^ (Z.of_nat n - 1) /\ T / 2 < 2 ^ 64).
    { intros Hn0. assert (Hsplit : 2 ^ Z.of_nat n = 2 * 2 ^ (Z.of_nat n - 1)).
      { rewrite <- Z.pow_succ_r by lia. f_equal. lia. }
      rewrite HTeq, Hsplit.
      replace (b * (2 * 2 ^ (Z.of_nat n - 1)))
        with (b * 2 ^ (Z.of_nat n - 1) * 2) by lia.
      rewrite Z.div_mul by lia.
      assert (0 < 2 ^ (Z.of_nat n - 1)) by (apply Z.pow_pos_nonneg; lia).
      split; [reflexivity | nia]. }
    cbn [div_loop]. rewrite operator_ge_words.
    destruct (Z.leb_spec T r) as [Hge|Hlt].
    + assert (Hdiv : (r - T) / b = r / b - 2 ^ Z.of_nat n).
      { rewrite HTeq.
        replace (r - b * 2 ^ Z.of_nat n)
          with (r + (- 2 ^ Z.of_nat n) * b) by lia.
        rewrite Z.div_add by lia. lia. }
      assert (Hmod : (r - T) mod b = r mod b).
      { rewrite HTeq.
        replace (r - b * 2 ^ Z.of_nat n)
          with (r + (- 2 ^ Z.of_nat n) * b) by lia.
        apply Z.mod_add. lia. }
      assert (Hquot : 2 ^ Z.of_nat n <= r / b).
      { apply Z.div_le_lower_bound; lia. }
      rewrite operator_sub_word by lia.
      rewrite Hi, operator_shl_one by lia.
      rewrite operator_add_word by lia.
      rewrite operator_shr_word by lia.
      rewrite (IH (Z.of_nat n - 1) (T / 2) (r - T) (q + 2 ^ Z.of_nat n));
        try lia; try assumption.
      rewrite Hdiv, Hmod. f_equal. f_equal. lia.
    + rewrite operator_shr_word by lia.
      apply IH; try lia; assumption.
Qed.

Lemma isZero_word1 (x : Z) : isZero (word1 x) = (x =? 0).
Proof. reflexivity. Qed.

Lemma divideUnsigned_words (fuel : nat) (a b : Z) :
  (64 <= fuel)%nat -> 0 <= a < 2 ^ 64 -> 0 < b < 2 ^ 64 ->
  divideUnsigned fuel (word1 a) (word1 b)
  = Ok (word1 (a / b), word1 (a mod b)).
Proof.
  intros Hfuel Ha Hb. unfold divideUnsigned.
  rewrite isZero_word1. destruct (Z.eqb_spec b 0); [lia|].
  rewrite compare_words. unfold sign_of_comparison.
  destruct (Z.ltb_spec a b) as [Hlt|Hge].
  - change (-1 <? 0) with true. cbv iota.
    rewrite Z.div_small, Z.mod_small by lia. reflexivity.
  - replace ((if a =? b then 0 else 1) <? 0) with false
      by (destruct (a =? b); reflexivity).
    rewrite <- (nat_repr_small b) at 1 by lia.
    destruct (div_scale_spec fuel b 0 a) as (k & Hk & Heq & Hlt & Hub & Hlow);
      try lia.
    { assert (2 ^ 64 <= 2 ^ Z.of_nat fuel)
        by (apply Z.pow_le_mono_r; lia). nia. }
    rewrite Heq. cbn [bind].
    assert (Hkpos : 0 < k).
    { destruct (Z.eq_dec k 0) as [->|]; [|lia].
      change (2 ^ 0) with 1 in Hlt. lia. }
    specialize (Hlow Hkpos).
    assert (Hsplit : 2 ^ k = 2 * 2 ^ (k - 1)).
    { rewrite <- Z.pow_succ_r by lia. f_equal. lia. }
    assert (Hhalf : b * 2 ^ k / 2 = b * 2 ^ (k - 1)).
    { rewrite Hsplit.
      replace (b * (2 * 2 ^ (k - 1))) with (b * 2 ^ (k - 1) * 2) by lia.
      apply Z.div_mul. lia. }
    rewrite operator_shr_1 by lia. rewrite Hhalf, BigNum_of_int64_0.
    replace (0 + k - 1 + 1) with k by lia.
    rewrite (div_loop_spec b ltac:(lia) (Z.to_nat k)).
    + rewrite Z.add_0_l. reflexivity.
    + lia.
    + rewrite Z2Nat.id by lia. lia.
    + lia.
    + intros _. rewrite Z2Nat.id by lia. split; [reflexivity | lia].
    + lia.
    + assert (a / b <= a) by (apply Z.div_le_upper_bound; nia). lia.
Qed.

Lemma operator_div_words (fuel : nat) (a b : Z) :
  (64 <= fuel)%nat -> 0 <= a < 2 ^ 64 -> 0 < b < 2 ^ 64 ->
  operator_div fuel (word1 a) (word1 b) = Ok (word1 (a / b)).
Proof.
  intros Hfuel Ha Hb. unfold operator_div.
  rewrite divideUnsigned_words by assumption. cbn [bind fst].
  unfold word1, set_negative. cbn [digits negative xorb].
  rewrite removeLeadingZeros_1. destruct (a / b =? 0); reflexivity.
Qed.

Lemma operator_mod_words (fuel : nat) (a b : Z) :
  (64 <= fuel)%nat -> 0 <= a < 2 ^ 64 -> 0 < b < 2 ^ 64 ->
  operator_mod fuel (word1 a) (word1 b) = Ok (word1 (a mod b)).
Proof.
  intros Hfuel Ha Hb. unfold operator_mod.
  rewrite divideUnsigned_words by assumption. cbn [bind snd].
  unfold word1, set_negative. cbn [digits negative].
  rewrite removeLeadingZeros_1. destruct (a mod b =? 0); reflexivity.
Qed.

End Division.

(** Division identity on one-word operands that are not negative. *)
Corollary division_identity_one_word (fuel : nat) (a b : Z) :
  (64 <= fuel)%nat -> 0 <= a < 2 ^ 64 -> 0 < b < 2 ^ 64 ->
  exists q r,
    operator_div fuel (word1 a) (word1 b) = Ok q
    /\ operator_mod fuel (word1 a) (word1 b) = Ok r
    /\ value (word1 a) = value q * value (word1 b) + value r
    /\ 0 <= value r < value (word1 b).
Proof.
  intros Hfuel Ha Hb. exists (word1 (a / b)), (word1 (a mod b)).
  rewrite operator_div_words, operator_mod_words by assumption.
  rewrite !value_word1.
  pose proof (Z.div_mod a b ltac:(lia)).
  pose proof (Z.mod_pos_bound a b ltac:(lia)).
  repeat split; lia.
Qed.

(** ** Division by a negative divisor *)

Section NegativeDivisor.

Lemma lor_low_bit (d c : Z) :
  0 <= d -> 0 <= c <= 1 -> Z.lor (Z.shiftl d 1) c = 2 * d + c.
Proof.
  intros Hd Hc. rewrite Z.shiftl_mul_pow2 by lia. change (2 ^ 1) with 2.
  assert (E : c = 0 \/ c = 1) by lia. destruct E as [-> | ->].
  - rewrite Z.lor_0_r. lia.
  - rewrite <- Z.lxor_lor, <- Z.add_nocarry_lxor; try lia.
    all: replace (d * 2) with (2 * d) by lia.
    all: apply Z.bits_inj'; intros k Hk.
    all: rewrite Z.land_spec, Z.bits_0.
    all: destruct (Z.eq_dec k 0) as [->|].
    all: try (rewrite Z.testbit_even_0; reflexivity).
    all: rewrite andb_comm.
    all: replace k with (Z.succ (k - 1)) by lia.
    all: change 1 with (2 * 0 + 1) at 1.
    all: rewrite Z.testbit_odd_succ by lia.
    all: rewrite Z.bits_0; reflexivity.
Qed.

(** One round of the left shift by one bit. *)
Lemma shl_loop_round (d c : Z) (ds : list Z) :
  is_word d -> 0 <= c <= 1 ->
  shl_loop (d :: ds) 1 c
  = (2 * d + c) mod 2 ^ 64 :: shl_loop ds 1 ((2 * d + c) / 2 ^ 64)
  /\ 0 <= (2 * d + c) / 2 ^ 64 <= 1.
Proof.
  unfold is_word. intros Hd Hc. cbn [shl_loop].
  rewrite lor_low_bit by lia. rewrite u128_small by lia.
  rewrite low_word, high_word.
  assert (Hq : 0 <= (2 * d + c) / 2 ^ 64 <= 1).
  { split; [apply Z.div_pos; lia|].
    apply Z.lt_succ_r. apply Z.div_lt_upper_bound; lia. }
  rewrite u64_small by lia. split; [reflexivity | exact Hq].
Qed.

Lemma shl_loop_words (ds : list Z) :
  forall c, Forall is_word ds -> 0 <= c <= 1 ->
            Forall is_word (shl_loop ds 1 c).
Proof.
  induction ds as [|d ds IH]; intros c Hall Hc.
  - cbn [shl_loop]. constructor; [unfold is_word; lia | constructor].
  - inversion Hall as [|? ? Hd Hds]; subst.
    destruct (shl_loop_round d c ds Hd Hc) as [-> Hq].
    constructor; [apply Z.mod_pos_bound; lia | apply IH; assumption].
Qed.

Lemma shl_loop_nonzero (ds : list Z) :
  forall c, Forall is_word ds -> 0 <= c <= 1 ->
            c = 1 \/ Exists nonzero_word ds ->
            Exists nonzero_word (shl_loop ds 1 c).
Proof.
  induction ds as [|d ds IH]; intros c Hall Hc Hnz.
  - cbn [shl_loop]. destruct Hnz as [-> | Hex]; [|inversion Hex].
    apply Exists_cons_hd. unfold nonzero_word. lia.
  - inversion Hall as [|? ? Hd Hds]; subst.
    destruct (shl_loop_round d c ds Hd Hc) as [-> Hq].
    unfold is_word in Hd.
    destruct (Z.eq_dec ((2 * d + c) mod 2 ^ 64) 0) as [E|E];
      [|apply Exists_cons_hd; exact E].
    apply Exists_cons_tl. apply IH; try assumption.
    destruct (Z.lt_ge_cases d (2 ^ 63)) as [Hsmall|Hbig].
    + rewrite Z.mod_small in E by lia. right.
      destruct Hnz as [-> | Hex]; [lia|].
      inversion Hex as [? ? Hhead | ? ? Htail]; subst; [|assumption].
      unfold nonzero_word in Hhead. lia.
    + left. symmetry.
      apply (Z.div_unique _ (2 ^ 64) 1 (2 * d + c - 2 ^ 64)); lia.
Qed.

(** Doubling a negative number that is not zero gives one again. *)
Lemma operator_shl_negative (temp : BigNum) :
  negative temp = true ->
  Forall is_word (digits temp) -> Exists nonzero_word (digits temp) ->
  negative (operator_shl temp 1) = true
  /\ Forall is_word (digits (operator_shl temp 1))
  /\ Exists nonzero_word (digits (operator_shl temp 1)).
Proof.
  intros Hneg Hall Hnz. unfold operator_shl.
  change (1 <=? 0) with false. change (1 / 64) with 0.
  change (1 mod 64) with 1. change (1 =? 0) with false.
  cbn [Z.to_nat zeros repeat app]. rewrite Hneg.
  pose proof (shl_loop_words (digits temp) 0 Hall ltac:(lia)) as Hw.
  pose proof (shl_loop_nonzero (digits temp) 0 Hall ltac:(lia) (or_intror Hnz))
    as Hn.
  set (L := shl_loop (digits temp) 1 0) in *.
  assert (HL : rev L <> []).
  { intros E. apply (f_equal (@rev Z)) in E. rewrite rev_involutive in E.
    rewrite E in Hn. inversion Hn. }
  destruct (pop_back_zeros_spec (rev L) HL) as (_ & (z & Hz) & _).
  unfold BigNum_of_digits, removeLeadingZeros. cbn [digits negative].
  set (p := pop_back_zeros (rev L)) in *.
  assert (Hp : Forall is_word (rev p) /\ Exists nonzero_word (rev p)).
  { apply Forall_rev in Hw. rewrite Hz in Hw. apply Forall_app in Hw.
    split; [apply Forall_rev; apply Hw|].
    apply Exists_rev. apply Exists_rev in Hn. rewrite Hz in Hn.
    apply Exists_app in Hn. destruct Hn as [Hn | Hn]; [|exact Hn].
    exfalso. apply Exists_exists in Hn. destruct Hn as (x & Hin & Hx).
    apply repeat_spec in Hin. exact (Hx Hin). }
  destruct Hp as [Hp1 Hp2].
  destruct (rev p) as [|d [|d2 rest]]; [inversion Hp2 | |].
  - destruct (Z.eqb_spec d 0) as [->|Hd]; cbn [digits negative]; auto.
    exfalso. inversion Hp2 as [? ? Hhead | ? ? Htail]; subst;
      [exact (Hhead eq_refl) | inversion Htail].
  - cbn [digits negative]. auto.
Qed.

Lemma div_scale_negative_divisor (fuel : nat) :
  forall temp remainder shift,
    negative temp = true -> negative remainder = false ->
    Forall is_word (digits temp) -> Exists nonzero_word (digits temp) ->
    div_scale fuel temp remainder shift = OutOfFuel.
Proof.
  induction fuel as [|fuel IH]; intros temp remainder shift Hneg Hpos Hall Hnz;
    cbn [div_scale]; unfold operator_le, compare; rewrite Hneg, Hpos;
    cbn [Bool.eqb negb]; change (-1 <=? 0) with true; cbv iota;
    [reflexivity|].
  destruct (operator_shl_negative temp Hneg Hall Hnz) as (H1 & H2 & H3).
  apply IH; assumption.
Qed.

End NegativeDivisor.

(** Dividing a number that is not negative by a negative one does not
    end: [temp], a copy of the divisor, stays negative, hence below the
    dividend, however often it is doubled. *)
Theorem division_by_negative_never_ends (fuel : nat) (a b : BigNum) :
  negative a = false -> negative b = true ->
  Forall is_word (digits b) -> Exists nonzero_word (digits b) ->
  divideUnsigned fuel a b = OutOfFuel.
Proof.
  intros Ha Hb Hall Hnz. unfold divideUnsigned.
  assert (Hz : isZero b = false).
  { unfold isZero. destruct (digits b) as [|d [|d2 rest]]; try reflexivity.
    inversion Hnz as [? ? Hhead | ? ? Htail]; subst; [|inversion Htail].
    apply Z.eqb_neq. exact Hhead. }
  rewrite Hz. unfold compare at 1. rewrite Ha, Hb. cbn [Bool.eqb negb].
  change (1 <? 0) with false. cbv iota.
  rewrite div_scale_negative_divisor by assumption. reflexivity.
Qed.

Corollary remainder_by_negative_never_ends (fuel : nat) :
  operator_mod fuel (BigNum_of_int64 7) (BigNum_of_int64 (-2)) = OutOfFuel.
Proof.
  unfold operator_mod. rewrite division_by_negative_never_ends; try reflexivity.
  - repeat constructor; unfold is_word; cbn; lia.
  - apply Exists_cons_hd. discriminate.
Qed.

(** ** Extended Euclidean algorithm and modular inverse *)

Section ExtendedGcd.

Lemma egcd_state_step (A N R0 R1 sg s0 s1 t0 t1 : Z) :
  egcd_state A N R0 R1 sg s0 s1 t0 t1 -> 0 < R1 ->
  let q := R0 / R1 in
  egcd_state A N R1 (R0 mod R1) (- sg) s1 (s0 + q * s1) t1 (t0 + q * t1)
  /\ 0 <= q /\ q * R1 <= R0 /\ R0 - q * R1 = R0 mod R1
  /\ 0 <= q * s1 <= N /\ 0 <= q * t1 <= Z.max A 1
  /\ 2 * egcd_measure R1 (R0 mod R1) <= egcd_measure R0 R1.
Proof.
  intros [Hsg HR0 HR1 Hs0 Hs1 Ht0 Ht1 Hb0 Hb1 HN HA Hg] Hpos q.
  pose proof (Z.div_mod R0 R1 ltac:(lia)) as Hdm.
  pose proof (Z.mod_pos_bound R0 R1 Hpos) as Hm.
  assert (Hq : 0 <= q) by (apply Z.div_pos; lia).
  fold q in Hdm. set (m := R0 mod R1) in *.
  assert (Hm' : m = R0 - q * R1) by lia.
  assert (Hqs : 0 <= q * s1) by (apply Z.mul_nonneg_nonneg; lia).
  assert (Hqt : 0 <= q * t1) by (apply Z.mul_nonneg_nonneg; lia).
  assert (HN' : (s0 + q * s1) * R1 + s1 * m = N) by (rewrite Hm', <- HN; ring).
  assert (HA' : (t0 + q * t1) * R1 + t1 * m = A) by (rewrite Hm', <- HA; ring).
  assert (Hsm : 0 <= s1 * m) by (apply Z.mul_nonneg_nonneg; lia).
  assert (Htm : 0 <= t1 * m) by (apply Z.mul_nonneg_nonneg; lia).
  assert (Hs1' : s0 + q * s1 <= N).
  { assert (0 <= (s0 + q * s1) * (R1 - 1))
      by (apply Z.mul_nonneg_nonneg; lia).
    lia. }
  assert (Ht1' : t0 + q * t1 <= Z.max A 1).
  { assert (0 <= (t0 + q * t1) * (R1 - 1))
      by (apply Z.mul_nonneg_nonneg; lia).
    lia. }
  assert (HqR : q * R1 <= R0) by lia.
  split; [constructor|]; try lia.
  - rewrite Hm', Hb0, Hb1. destruct Hsg; subst sg; ring.
  - rewrite Z.gcd_comm, <- Hg. subst m. rewrite Z.gcd_mod by lia.
    apply Z.gcd_comm.
  - repeat split; try lia.
    unfold egcd_measure.
    destruct (Z.ltb_spec m R1); [|lia].
    destruct (Z.ltb_spec R1 R0).
    + assert (1 <= q) by (apply Z.div_le_lower_bound; lia).
      assert (0 <= (q - 1) * R1) by (apply Z.mul_nonneg_nonneg; lia).
      assert (0 <= R1 * (R0 - 2 * m)) by (apply Z.mul_nonneg_nonneg; lia).
      lia.
    + assert (0 <= R1 * (R1 - m)) by (apply Z.mul_nonneg_nonneg; lia).
      lia.
Qed.

Lemma egcd_measure_pos (R0 R1 : Z) :
  0 <= R0 -> 0 < R1 -> 1 <= egcd_measure R0 R1.
Proof.
  intros H0 H1. unfold egcd_measure. destruct (Z.ltb_spec R1 R0).
  - assert (0 <= (R0 - 1) * R1) by (apply Z.mul_nonneg_nonneg; lia). lia.
  - assert (0 <= (R1 - 1) * R1) by (apply Z.mul_nonneg_nonneg; lia). lia.
Qed.

Variables (fuel : nat) (A N : Z).
Hypothesis Hfuel : (64 <= fuel)%nat.
Hypothesis HA : 0 <= A < 2 ^ 64.
Hypothesis HN : 0 < N < 2 ^ 64.

Lemma extendedGcd_loop_spec (n : nat) :
  forall R0 R1 sg s0 s1 t0 t1 old_s s old_t t,
    egcd_state A N R0 R1 sg s0 s1 t0 t1 ->
    one_word old_s -> value old_s = sg * s0 ->
    one_word s -> value s = - sg * s1 ->
    one_word old_t -> value old_t = - sg * t0 ->
    one_word t -> value t = sg * t1 ->
    egcd_measure R0 R1 < 2 ^ Z.of_nat n ->
    exists gs gt,
      extendedGcd_loop fuel n (word1 R0) (word1 R1) old_s s old_t t
      = Ok (word1 (Z.gcd A N), (gs, gt))
      /\ one_word gs /\ Z.abs (value gs) <= N
      /\ A * value gs + N * value gt = Z.gcd A N.
Proof.
  assert (Hdone : forall R0 sg s0 s1 t0 t1 old_s old_t,
             egcd_state A N R0 0 sg s0 s1 t0 t1 ->
             one_word old_s -> value old_s = sg * s0 ->
             value old_t = - sg * t0 ->
             exists gs gt,
               Ok (word1 R0, (old_s, old_t))
               = Ok (word1 (Z.gcd A N), (gs, gt))
               /\ one_word gs /\ Z.abs (value gs) <= N
               /\ A * value gs + N * value gt = Z.gcd A N).
  { intros R0 sg s0 s1 t0 t1 old_s old_t St Hos Hvs Hvt.
    destruct St as [Hsg HR0 _ Hs0 _ _ _ Hb0 _ _ _ Hg].
    rewrite Z.gcd_0_r, Z.abs_eq in Hg by lia.
    exists old_s, old_t. rewrite <- Hg, Hvs, Hvt.
    repeat split; try assumption.
    - destruct Hsg; subst sg; lia.
    - symmetry. exact Hb0. }
  induction n as [|n IH];
    intros R0 R1 sg s0 s1 t0 t1 old_s s old_t t St Hos Hvos Hs Hvs Hot Hvot
           Ht Hvt Hmeasure;
    cbn [extendedGcd_loop]; rewrite isZero_word1;
    destruct (Z.eqb_spec R1 0) as [->|HR1nz];
    try (eapply Hdone; eassumption).
  - exfalso. pose proof (egcd_measure_pos R0 R1).
    change (2 ^ Z.of_nat 0) with 1 in Hmeasure.
    destruct St. lia.
  - assert (HR1 : 0 < R1) by (destruct St; lia).
    destruct (egcd_state_step _ _ _ _ _ _ _ _ _ St HR1)
      as (St' & Hq & HqR & Hrem & Hqs & Hqt & Hdec).
    set (q := R0 / R1) in *.
    pose proof St as [Hsg HR0 HR1' Hs0 Hs1 Ht0 Ht1 _ _ _ _ _].
    pose proof St' as [_ _ _ _ Hs1' _ Ht1' _ _ _ _ _].
    rewrite operator_div_words by (assumption || lia). cbn [bind].
    fold q. rewrite operator_mul_word by lia. cbn [bind].
    assert (Hwq : one_word (word1 q)).
    { apply one_word_word1. unfold is_word.
      assert (0 <= q * (R1 - 1)) by (apply Z.mul_nonneg_nonneg; lia). lia. }
    destruct (operator_mul_one_word fuel (word1 q) s Hwq Hs)
      as (qs & -> & Hqs1 & Hvqs).
    { rewrite value_word1, Hvs. destruct Hsg; subst sg; lia. }
    cbn [bind].
    destruct (operator_mul_one_word fuel (word1 q) t Hwq Ht)
      as (qt & -> & Hqt1 & Hvqt).
    { rewrite value_word1, Hvt. destruct Hsg; subst sg; lia. }
    cbn [bind].
    rewrite value_word1 in Hvqs, Hvqt.
    rewrite operator_sub_word by lia. rewrite Hrem.
    destruct (operator_sub_one_word old_s qs Hos Hqs1) as [Hs' Hvs'].
    { rewrite Hvos, Hvqs, Hvs. destruct Hsg; subst sg; lia. }
    destruct (operator_sub_one_word old_t qt Hot Hqt1) as [Ht' Hvt'].
    { rewrite Hvot, Hvqt, Hvt. destruct Hsg; subst sg; lia. }
    apply (IH R1 (R0 mod R1) (- sg) s1 (s0 + q * s1) t1 (t0 + q * t1));
      try assumption.
    + rewrite Hvs', Hvos, Hvqs, Hvs. ring.
    + rewrite Hvt. ring.
    + rewrite Hvt', Hvot, Hvqt, Hvt. ring.
    + rewrite Nat2Z.inj_succ, Z.pow_succ_r in Hmeasure by lia. lia.
Qed.

End ExtendedGcd.

Section ModInverse.

Lemma canonical_one_word (a : BigNum) :
  canonical a -> size a = 1%nat ->
  exists x, a = mkBigNum [x] (negative a) /\ is_word x
            /\ (x = 0 -> negative a = false).
Proof.
  destruct a as [ds neg]. unfold canonical, well_formed, magnitude, size.
  cbn [digits negative]. intros ((_ & Hall & _) & Hzero) Hsize.
  destruct ds as [|x [|y ds]]; try discriminate Hsize.
  exists x. split; [reflexivity|]. split.
  - inversion Hall; assumption.
  - intros ->. apply Hzero. reflexivity.
Qed.

Lemma isNegative_one_word (a : BigNum) :
  one_word a -> isNegative a = (value a <? 0).
Proof.
  intros (x & Ha & Hx). destruct a as [ds neg]. cbn [digits] in Ha. subst ds.
  unfold is_word in Hx. rewrite value_1. unfold isNegative, isZero.
  cbn [digits negative].
  destruct neg; cbn [andb]; destruct (Z.eqb_spec x 0); cbn [negb];
    symmetry; [apply Z.ltb_ge | apply Z.ltb_lt | apply Z.ltb_ge | apply Z.ltb_ge];
    lia.
Qed.

Lemma operator_mod_one_word (fuel : nat) (a : BigNum) (N : Z) :
  (64 <= fuel)%nat -> one_word a -> 0 <= value a -> 0 < N < 2 ^ 64 ->
  operator_mod fuel a (word1 N) = Ok (word1 (value a mod N)).
Proof.
  intros Hfuel (x & Ha & Hx) Hv HN.
  destruct a as [ds neg]. cbn [digits] in Ha. subst ds.
  unfold is_word in Hx. rewrite value_1 in *. destruct neg.
  - assert (x = 0) by lia. subst x.
    unfold operator_mod, divideUnsigned. rewrite isZero_word1.
    destruct (Z.eqb_spec N 0); [lia|]. reflexivity.
  - apply operator_mod_words; assumption || lia.
Qed.

Lemma extendedGcd_one_word (fuel : nat) (a n : BigNum) :
  (130 <= fuel)%nat ->
  canonical a -> size a = 1%nat ->
  canonical n -> size n = 1%nat -> 0 < value n ->
  n = word1 (value n) /\ value n < 2 ^ 64
  /\ exists gs gt,
      extendedGcd fuel a n
      = Ok (word1 (Z.gcd (value a) (value n)), (gs, gt))
      /\ one_word gs /\ Z.abs (value gs) <= value n
      /\ value a * value gs + value n * value gt
         = Z.gcd (value a) (value n).
Proof.
  intros Hfuel Ca Sa Cn Sn Hpos.
  destruct (canonical_one_word a Ca Sa) as (x & Ea & Hx & Hx0).
  destruct (canonical_one_word n Cn Sn) as (y & En & Hy & _).
  destruct a as [da na], n as [dn nn]. cbn [negative] in *.
  injection Ea as ->. injection En as ->.
  unfold is_word in Hx, Hy. rewrite value_1 in Hpos.
  destruct nn; [lia|]. rewrite !value_1.
  split; [reflexivity|]. split; [lia|].
  assert (Hmeasure : egcd_measure x y < 2 ^ Z.of_nat fuel).
  { assert (2 ^ 129 <= 2 ^ Z.of_nat fuel) by (apply Z.pow_le_mono_r; lia).
    assert (x * y <= (2 ^ 64 - 1) * (2 ^ 64 - 1))
      by (apply Z.mul_le_mono_nonneg; lia).
    assert (y * y <= (2 ^ 64 - 1) * (2 ^ 64 - 1))
      by (apply Z.mul_le_mono_nonneg; lia).
    unfold egcd_measure. destruct (y <? x); lia. }
  assert (Hinit : egcd_state x y x y 1 1 0 0 1).
  { constructor; lia. }
  destruct (extendedGcd_loop_spec fuel x y ltac:(lia) ltac:(lia) ltac:(lia)
              fuel x y 1 1 0 0 1
              (word1 1) (word1 0) (word1 0) (word1 1))
    as (gs & gt & Hloop & Hgs & Habs & Hbez);
    try assumption;
    try (apply one_word_word1; unfold is_word; lia);
    try reflexivity.
  unfold extendedGcd. rewrite BigNum_of_int64_1, BigNum_of_int64_0.
  replace (isNegative (mkBigNum [y] false)) with false by reflexivity.
  unfold isNegative, isZero. cbn [digits negative].
  destruct na; cbn [andb].
  - assert (x <> 0) by (intros ->; discriminate (Hx0 eq_refl)).
    destruct (Z.eqb_spec x 0); [lia|]. cbn [negb].
    rewrite operator_neg_1. destruct (Z.eqb_spec x 0); [lia|]. cbn [negb].
    change (mkBigNum [x] false) with (word1 x).
    change (mkBigNum [y] false) with (word1 y).
    rewrite Hloop. cbn [bind].
    destruct (operator_neg_one_word gs Hgs) as [Hngs Hvngs].
    exists (operator_neg gs), gt. rewrite Z.gcd_opp_l.
    repeat split; try assumption.
    + rewrite Hvngs. lia.
    + rewrite Hvngs, <- Hbez. ring.
  - destruct (x =? 0); cbn [negb];
      change (mkBigNum [x] false) with (word1 x);
      change (mkBigNum [y] false) with (word1 y);
      rewrite Hloop; cbn [bind];
      exists gs, gt; repeat split; assumption.
Qed.

End ModInverse.

(** On operands of one word [modInverse] is right, but for the modulus 1.
    For canonical operands of one word with a modulus [n >= 1], and fuel
    for 130 rounds of each loop, [modInverse] throws
    [NotInvertible] exactly when [gcd (a, n)] is not 1, and otherwise
    returns a canonical [r] in [[0, n)] with [(a * r) mod n = 1 mod n]
    (which is 1 for [n >= 2] and 0 for [n = 1]). *)
Theorem modInverse_one_word (fuel : nat) (a n : BigNum) :
  (130 <= fuel)%nat ->
  canonical a -> size a = 1%nat ->
  canonical n -> size n = 1%nat -> 1 <= value n ->
  (Z.gcd (value a) (value n) <> 1 /\ modInverse fuel a n = Err NotInvertible)
  \/ (Z.gcd (value a) (value n) = 1
      /\ exists r, modInverse fuel a n = Ok r
                   /\ canonical r
                   /\ 0 <= value r < value n
                   /\ (value a * value r) mod value n = 1 mod value n).
Proof.
  intros Hfuel Ca Sa Cn Sn Hpos.
  destruct (extendedGcd_one_word fuel a n Hfuel Ca Sa Cn Sn ltac:(lia))
    as (En & HN & gs & gt & Hegcd & Hgs & Habs & Hbez).
  set (N := value n) in *. set (g := Z.gcd (value a) N) in *.
  unfold modInverse. rewrite Hegcd. cbn [bind fst snd].
  unfold isOne, word1. cbn [digits negative negb andb].
  destruct (Z.eqb_spec g 1) as [Hg|Hg]; cbn [negb]; [right | left; auto].
  split; [exact Hg|].
  rewrite (isNegative_one_word gs Hgs).
  set (inv := if value gs <? 0 then operator_add gs n else gs).
  assert (Hinv : one_word inv /\ 0 <= value inv <= N
                 /\ (value inv - value gs) mod N = 0).
  { subst inv. destruct (Z.ltb_spec (value gs) 0).
    - destruct (operator_add_one_word gs n Hgs) as [H1 H2].
      + rewrite En. apply one_word_word1. unfold is_word. lia.
      + fold N. lia.
      + fold N in H2. rewrite H2. repeat split; try assumption; try lia.
        replace (value gs + N - value gs) with (1 * N) by lia.
        apply Z.mod_mul. lia.
    - repeat split; try assumption; try lia.
      rewrite Z.sub_diag. apply Z.mod_0_l. lia. }
  destruct Hinv as (Hinv1 & Hinv2 & Hinv3).
  assert (Hmod : operator_mod fuel inv n = operator_mod fuel inv (word1 N))
    by (rewrite <- En; reflexivity).
  rewrite Hmod, (operator_mod_one_word fuel inv N) by (assumption || lia).
  eexists. split; [reflexivity|].
  pose proof (Z.mod_pos_bound (value inv) N ltac:(lia)) as Hbound.
  split; [|split].
  - unfold canonical, well_formed, magnitude, size, word1, is_word.
    cbn [digits negative length].
    repeat split; try discriminate; try lia.
    repeat constructor; lia.
  - rewrite value_word1. exact Hbound.
  - rewrite value_word1. rewrite Z.mul_mod_idemp_r by lia.
    apply Z.mod_divide in Hinv3; [|lia]. destruct Hinv3 as [k Hk].
    replace (value a * value inv)
      with (1 + (value a * k - value gt) * N) by (rewrite Hg in Hbez; nia).
    apply Z.mod_add. lia.
Qed.

Lemma modInverse_one_word_witness :
  (canonical (BigNum_of_int64 3) /\ size (BigNum_of_int64 3) = 1%nat
   /\ canonical (BigNum_of_int64 11) /\ size (BigNum_of_int64 11) = 1%nat
   /\ 1 <= value (BigNum_of_int64 11))
  /\ ((Z.gcd (value (BigNum_of_int64 3)) (value (BigNum_of_int64 11)) <> 1
       /\ modInverse 130 (BigNum_of_int64 3) (BigNum_of_int64 11)
          = Err NotInvertible)
      \/ (Z.gcd (value (BigNum_of_int64 3)) (value (BigNum_of_int64 11)) = 1
          /\ exists r,
              modInverse 130 (BigNum_of_int64 3) (BigNum_of_int64 11) = Ok r
              /\ canonical r
              /\ 0 <= value r < value (BigNum_of_int64 11)
              /\ (value (BigNum_of_int64 3) * value r)
                 mod value (BigNum_of_int64 11)
                 = 1 mod value (BigNum_of_int64 11))).
Proof.
  assert (C : forall x, 0 < x < 2 ^ 64 -> canonical (mkBigNum [x] false)).
  { intros x Hx. unfold canonical, well_formed, magnitude, size, is_word.
    cbn [digits negative length eval].
    repeat split; try discriminate; try lia. repeat constructor; lia. }
  assert (C3 : canonical (BigNum_of_int64 3)) by (apply (C 3); lia).
  assert (C11 : canonical (BigNum_of_int64 11)) by (apply (C 11); lia).
  assert (V : 1 <= value (BigNum_of_int64 11)) by (vm_compute; discriminate).
  split; [exact (conj C3 (conj eq_refl (conj C11 (conj eq_refl V))))|].
  exact (modInverse_one_word 130 (BigNum_of_int64 3) (BigNum_of_int64 11)
           (Nat.le_refl 130) C3 eq_refl C11 eq_refl V).
Defined.

(** With modulus 1 every [a] has gcd 1 with it and the result is 0, so
    [(a * 0) mod 1] is 0, not 1. *)
Lemma modInverse_modulus_one :
  Z.gcd (value (BigNum_of_int64 5)) (value (BigNum_of_int64 1)) = 1
  /\ modInverse 130 (BigNum_of_int64 5) (BigNum_of_int64 1) = Ok zero
  /\ (value (BigNum_of_int64 5) * value zero) mod value (BigNum_of_int64 1)
     <> 1.
Proof. repeat apply conj; try (vm_compute; reflexivity). vm_compute. discriminate. Qed.

(** With modulus 0 the final [%] throws [DivisionByZero] although the gcd
    is 1, and on operands of two words the lost borrow reaches the
    inverse: 2^128 has the inverse 0xfffffffffffffffe0000000000000001
    modulo 2^128 - 2^64 + 1. *)
Lemma modInverse_outside_one_word :
  modInverse 130 (BigNum_of_int64 1) (BigNum_of_int64 0) = Err DivisionByZero
  /\ modInverse 300 two_pow_128 borrow_modulus
     = Ok (mkBigNum [2 ^ 63 + 1; 2 ^ 64 - 2] false)
  /\ (value two_pow_128 * (1 + 2 ^ 64 * (2 ^ 64 - 2))) mod value borrow_modulus
     = 1.
Proof. repeat apply conj; vm_compute; reflexivity. Qed.

(** C7.  [modInverse] returns a wrong inverse on operands of two words.
    The canonical numbers 2^128 and n = 2^128 - 2^64 + 1 >= 2 have gcd 1,
    and 0xfffffffffffffffe0000000000000001 in [0, n) is the inverse of
    2^128 modulo n; the value returned is
    0xfffffffffffffffe8000000000000001, whose product with 2^128 is
    2^127 - 2^63 + 1 modulo n, not 1: the computation loses a borrow in
    [subtractUnsigned]. *)
Theorem modInverse_wrong_inverse :
  canonical two_pow_128 /\ canonical borrow_modulus
  /\ 2 <= value borrow_modulus
  /\ Z.gcd (value two_pow_128) (value borrow_modulus) = 1
  /\ modInverse 300 two_pow_128 borrow_modulus
     = Ok (mkBigNum [2 ^ 63 + 1; 2 ^ 64 - 2] false)
  /\ (value two_pow_128 * value (mkBigNum [2 ^ 63 + 1; 2 ^ 64 - 2] false))
       mod value borrow_modulus
     = 2 ^ 127 - 2 ^ 63 + 1
  /\ (value two_pow_128 * value (mkBigNum [2 ^ 63 + 1; 2 ^ 64 - 2] false))
       mod value borrow_modulus
     <> 1
  /\ 0 <= value (mkBigNum [1; 2 ^ 64 - 2] false) < value borrow_modulus
  /\ (value two_pow_128 * value (mkBigNum [1; 2 ^ 64 - 2] false))
       mod value borrow_modulus
     = 1.
Proof.
  assert (C : forall x y l,
             0 <= x < 2 ^ 64 -> 0 < y < 2 ^ 64 -> Forall is_word l ->
             last (x :: l ++ [y]) 0 = y ->
             canonical (mkBigNum (x :: l ++ [y]) false)).
  { intros x y l Hx Hy Hl Hlast. split; [|reflexivity].
    unfold well_formed, size. cbn [digits]. repeat apply conj.
    - discriminate.
    - constructor; [exact Hx|]. apply Forall_app. split; [exact Hl|].
      constructor; [unfold is_word; lia | constructor].
    - intros _. rewrite Hlast. lia. }
  split; [apply (C 0 1 [0]);
          [lia | lia | repeat constructor; unfold is_word; lia | reflexivity]|].
  split; [apply (C 1 UINT64_MAX []);
          [lia | unfold UINT64_MAX; lia | constructor | reflexivity]|].
  repeat apply conj; try (vm_compute; reflexivity); vm_compute; discriminate.
Qed.


(** * Further properties of the code *)

Section Weights.

Lemma wpow_0 : wpow 0 = 1.
Proof. reflexivity. Qed.

Lemma wpow_S (n : nat) : wpow (S n) = 2 ^ 64 * wpow n.
Proof.
  unfold wpow. rewrite Nat2Z.inj_succ.
  replace (64 * Z.succ (Z.of_nat n)) with (64 + 64 * Z.of_nat n) by lia.
  apply Z.pow_add_r; lia.
Qed.

Lemma wpow_pos (n : nat) : 0 < wpow n.
Proof. unfold wpow. apply Z.pow_pos_nonneg; lia. Qed.

Lemma wpow_add (m n : nat) : wpow (m + n) = wpow m * wpow n.
Proof.
  unfold wpow. rewrite Nat2Z.inj_add, Z.mul_add_distr_l.
  apply Z.pow_add_r; lia.
Qed.

Lemma wpow_le (m n : nat) : (m <= n)%nat -> wpow m <= wpow n.
Proof. intros H. unfold wpow. apply Z.pow_le_mono_r; lia. Qed.

Lemma eval_app (l1 l2 : list Z) :
  eval (l1 ++ l2) = eval l1 + wpow (length l1) * eval l2.
Proof.
  induction l1 as [|d l1 IH]; cbn [app eval length].
  - rewrite wpow_0. lia.
  - rewrite IH, wpow_S. ring.
Qed.

Lemma eval_repeat_0 (n : nat) : eval (repeat 0 n) = 0.
Proof. induction n as [|n IH]; cbn [repeat eval]; lia. Qed.

Lemma eval_bound (ds : list Z) :
  Forall is_word ds -> 0 <= eval ds < wpow (length ds).
Proof.
  induction 1 as [|d ds Hd _ IH]; cbn [eval length].
  - rewrite wpow_0. lia.
  - rewrite wpow_S. unfold is_word in Hd. nia.
Qed.

Lemma eval_pop_back_zeros (ds : list Z) :
  eval (rev (pop_back_zeros (rev ds))) = eval ds.
Proof.
  destruct ds as [|d ds']; [reflexivity|].
  set (l := d :: ds').
  assert (Hne : rev l <> []).
  { intros E. apply (f_equal (@rev Z)) in E. rewrite rev_involutive in E.
    discriminate E. }
  destruct (pop_back_zeros_spec (rev l) Hne) as (_ & (z & Hz) & _).
  set (p := pop_back_zeros (rev l)) in *.
  apply (f_equal (@rev Z)) in Hz. rewrite rev_involutive, rev_app_distr in Hz.
  assert (E : eval l = eval (rev p ++ rev (repeat 0 z))) by (f_equal; exact Hz).
  rewrite E, eval_app, rev_repeat, eval_repeat_0. lia.
Qed.

Lemma magnitude_BigNum_of_digits (ds : list Z) (neg : bool) :
  magnitude (BigNum_of_digits ds neg) = eval ds.
Proof.
  unfold BigNum_of_digits, removeLeadingZeros, magnitude. cbn [digits negative].
  pose proof (eval_pop_back_zeros ds) as E.
  destruct (rev (pop_back_zeros (rev ds))) as [|x [|y l]]; try exact E.
  destruct (x =? 0); exact E.
Qed.

Lemma negative_BigNum_of_digits (ds : list Z) (neg : bool) :
  eval ds <> 0 -> negative (BigNum_of_digits ds neg) = neg.
Proof.
  intros Hpos. pose proof (magnitude_BigNum_of_digits ds neg) as Hm.
  unfold BigNum_of_digits, removeLeadingZeros, magnitude in *.
  cbn [digits negative] in *.
  destruct (rev (pop_back_zeros (rev ds))) as [|x [|y l]]; try reflexivity.
  destruct (Z.eqb_spec x 0) as [E|E]; [|reflexivity].
  subst x. cbn [digits eval] in Hm. lia.
Qed.

Lemma value_BigNum_of_digits (ds : list Z) (neg : bool) :
  value (BigNum_of_digits ds neg) = if neg then - eval ds else eval ds.
Proof.
  unfold value. rewrite magnitude_BigNum_of_digits.
  destruct (Z.eq_dec (eval ds) 0) as [E|E].
  - rewrite E. destruct (negative _), neg; reflexivity.
  - rewrite negative_BigNum_of_digits by assumption. reflexivity.
Qed.

Lemma BigNum_of_digits_canonical (ds : list Z) (neg : bool) :
  ds <> [] -> Forall is_word ds -> canonical (BigNum_of_digits ds neg).
Proof. intros H1 H2. apply removeLeadingZeros_canonical; assumption. Qed.

(** Canonical form is unique: the value decides the vector. *)
Lemma eval_inj (l1 : list Z) :
  forall l2, Forall is_word l1 -> Forall is_word l2 ->
             length l1 = length l2 -> eval l1 = eval l2 -> l1 = l2.
Proof.
  induction l1 as [|d1 l1 IH]; intros [|d2 l2] H1 H2 Hlen Heq;
    try discriminate Hlen; [reflexivity|].
  inversion H1 as [|? ? Hd1 Hl1]; inversion H2 as [|? ? Hd2 Hl2]; subst.
  cbn [eval] in Heq. unfold is_word in Hd1, Hd2.
  assert (d1 = d2 /\ eval l1 = eval l2) as [-> He] by lia.
  f_equal. apply IH; auto.
Qed.

Lemma eval_top (ds : list Z) (t : Z) :
  eval (ds ++ [t]) = eval ds + wpow (length ds) * t.
Proof. rewrite eval_app. cbn [eval]. lia. Qed.

Lemma well_formed_lower_bound (a : BigNum) :
  well_formed a -> (1 < size a)%nat -> wpow (size a - 1) <= magnitude a.
Proof.
  destruct a as [ds neg]. unfold well_formed, size, magnitude. cbn [digits].
  intros (Hne & Hall & Htop) Hlen. specialize (Htop Hlen).
  destruct (exists_last Hne) as (l & t & ->).
  rewrite last_last in Htop. rewrite length_app in *. cbn [length] in *.
  replace (length l + 1 - 1)%nat with (length l) by lia.
  apply Forall_app in Hall. destruct Hall as [Hl Ht].
  inversion Ht as [|? ? Htw _]; subst. unfold is_word in Htw.
  rewrite eval_top. pose proof (eval_bound l Hl). pose proof (wpow_pos (length l)).
  nia.
Qed.

Lemma well_formed_size_le (a b : BigNum) :
  well_formed a -> well_formed b -> magnitude a <= magnitude b ->
  (size a <= size b)%nat.
Proof.
  intros Ha Hb Hle.
  destruct (Nat.le_gt_cases (size a) (size b)) as [|Hgt]; [assumption|].
  exfalso.
  assert (Hsa : (1 < size a)%nat).
  { destruct Hb as (Hne & _). unfold size in *.
    destruct (digits b); [congruence | cbn [length] in *; lia]. }
  pose proof (well_formed_lower_bound a Ha Hsa) as Hlow.
  destruct Hb as (_ & Hallb & _).
  pose proof (eval_bound (digits b) Hallb) as Hup.
  pose proof (wpow_le (size b) (size a - 1) ltac:(lia)).
  unfold magnitude, size in *. lia.
Qed.

Lemma canonical_eq (a b : BigNum) :
  canonical a -> canonical b -> value a = value b -> a = b.
Proof.
  intros [Ha Hza] [Hb Hzb] Hv.
  pose proof (eval_bound _ (proj1 (proj2 Ha))) as Ba.
  pose proof (eval_bound _ (proj1 (proj2 Hb))) as Bb.
  assert (Hm : magnitude a = magnitude b /\ negative a = negative b).
  { unfold value, magnitude in *.
    destruct (negative a) eqn:Na, (negative b) eqn:Nb; try (split; [lia | reflexivity]).
    - assert (eval (digits a) = 0) by lia.
      specialize (Hza ltac:(assumption)). congruence.
    - assert (eval (digits b) = 0) by lia.
      specialize (Hzb ltac:(assumption)). congruence. }
  destruct Hm as [Hm Hn].
  assert (Hsize : size a = size b).
  { apply Nat.le_antisymm; apply well_formed_size_le; auto; lia. }
  destruct a as [da na], b as [db nb]. cbn [negative] in Hn. subst nb.
  f_equal. apply eval_inj; try apply Ha; try apply Hb; assumption.
Qed.

End Weights.

Section UnsignedCore.

Lemma add_step_spec (s : Z) :
  0 <= s < 2 ^ 65 ->
  add_step (u128 s) = (s mod 2 ^ 64, s / 2 ^ 64)
  /\ is_word (s mod 2 ^ 64) /\ 0 <= s / 2 ^ 64 <= 1
  /\ s mod 2 ^ 64 + 2 ^ 64 * (s / 2 ^ 64) = s.
Proof.
  intros Hs. unfold add_step. rewrite u128_small by lia.
  rewrite low_word, high_word.
  pose proof (Z.mod_pos_bound s (2 ^ 64) ltac:(lia)).
  pose proof (Z.div_mod s (2 ^ 64) ltac:(lia)).
  repeat split; unfold is_word; lia.
Qed.

Lemma add_carry_out_spec (carry : Z) :
  0 <= carry <= 1 ->
  eval (add_carry_out 2 carry) = carry
  /\ Forall is_word (add_carry_out 2 carry).
Proof.
  intros Hc. cbn [add_carry_out].
  destruct (Z.eqb_spec carry 0) as [->|Hnz].
  - split; [reflexivity | constructor].
  - assert (carry = 1) by lia. subst carry. split; [reflexivity|].
    repeat constructor; unfold is_word; cbn; lia.
Qed.

Lemma add_rest_spec (r : list Z) :
  forall carry,
    Forall is_word r -> 0 <= carry <= 1 ->
    eval (add_rest r carry) = eval r + carry
    /\ Forall is_word (add_rest r carry).
Proof.
  induction r as [|d r IH]; intros carry Hall Hc; cbn [add_rest].
  - destruct (add_carry_out_spec carry Hc) as [H1 H2].
    split; [cbn [eval]; lia | exact H2].
  - inversion Hall as [|? ? Hd Hr]; subst. unfold is_word in Hd.
    destruct (add_step_spec (carry + d) ltac:(lia)) as (-> & Hw & Hq & Hsum).
    destruct (IH ((carry + d) / 2 ^ 64) Hr Hq) as [H1 H2].
    split; [cbn [eval]; lia | constructor; assumption].
Qed.

Lemma add_loop_spec (a : list Z) :
  forall b carry,
    Forall is_word a -> Forall is_word b -> 0 <= carry <= 1 ->
    eval (add_loop a b carry) = eval a + eval b + carry
    /\ Forall is_word (add_loop a b carry).
Proof.
  induction a as [|x a IH]; intros b carry Ha Hb Hc.
  - cbn [add_loop eval]. destruct (add_rest_spec b carry Hb Hc). split; [lia | assumption].
  - destruct b as [|y b].
    + cbn [add_loop]. destruct (add_rest_spec (x :: a) carry Ha Hc).
      cbn [eval] in *. split; [lia | assumption].
    + inversion Ha as [|? ? Hx Ha']; inversion Hb as [|? ? Hy Hb']; subst.
      unfold is_word in Hx, Hy. cbn [add_loop].
      destruct (add_step_spec (carry + x + y) ltac:(lia)) as (-> & Hw & Hq & Hsum).
      destruct (IH b ((carry + x + y) / 2 ^ 64) Ha' Hb' Hq) as [H1 H2].
      split; [cbn [eval]; lia | constructor; assumption].
Qed.

Lemma add_loop_nonempty (a b : list Z) (carry : Z) :
  a <> [] \/ b <> [] -> add_loop a b carry <> [].
Proof.
  destruct a as [|x a], b as [|y b]; cbn [add_loop add_rest]; intros [H|H];
    try congruence;
    repeat match goal with
           | |- context [let '(_, _) := ?p in _] => destruct p
           end; discriminate.
Qed.

(** Subtraction: a borrow is lost only at a word 2^64 - 1 of the
    subtrahend. *)
Lemma sub_loop_spec (a : list Z) :
  forall b borrow,
    Forall is_word a -> Forall is_word b -> (length b <= length a)%nat ->
    0 <= borrow <= 1 ->
    (borrow = 1 -> Forall below_max b) -> Forall below_max (tl b) ->
    exists borrow_out,
      0 <= borrow_out <= 1
      /\ eval (sub_loop a b borrow)
         = eval a - eval b - borrow + borrow_out * wpow (length a)
      /\ Forall is_word (sub_loop a b borrow)
      /\ length (sub_loop a b borrow) = length a.
Proof.
  induction a as [|ai a IH]; intros b borrow Ha Hb Hlen Hbor Hmax Htl.
  - destruct b; [|cbn [length] in Hlen; lia].
    exists borrow. cbn [sub_loop eval length]. rewrite wpow_0.
    repeat split; try lia. constructor.
  - inversion Ha as [|? ? Hai Ha']; subst. unfold is_word in Hai.
    cbn [sub_loop].
    assert (Hbi : is_word (hd 0 b) /\ (borrow = 1 -> hd 0 b <> UINT64_MAX)
                  /\ eval b = hd 0 b + 2 ^ 64 * eval (tl b)
                  /\ Forall is_word (tl b) /\ (length (tl b) <= length a)%nat).
    { destruct b as [|bi b']; cbn [hd tl eval length] in *.
      - split; [unfold is_word; lia|]. split; [intros _; discriminate|].
        split; [lia|]. split; [constructor | lia].
      - inversion Hb as [|? ? Hbi0 Hb0]; subst.
        split; [assumption|]. split.
        + intros Hb1. specialize (Hmax Hb1). inversion Hmax; assumption.
        + split; [reflexivity|]. split; [assumption | lia]. }
    destruct Hbi as (Hbw & Hnomax & Heval & Hbtl & Hlentl).
    unfold is_word in Hbw. unfold UINT64_MAX in Hnomax.
    set (bi := hd 0 b) in *.
    assert (Hsum : u64 (bi + borrow) = bi + borrow).
    { apply u64_small. destruct (Z.eq_dec borrow 1) as [E|E]; [|lia].
      specialize (Hnomax E). lia. }
    rewrite Hsum. change (u64 (UINT64_MAX + 1)) with 0.
    assert (Htl' : Forall below_max (tl (tl b))).
    { destruct (tl b) as [|? ?]; [constructor|]. inversion Htl; assumption. }
    destruct (Z.leb_spec (bi + borrow) ai) as [Hle|Hgt].
    + destruct (IH (tl b) 0 Ha' Hbtl Hlentl ltac:(lia) ltac:(lia) Htl')
        as (bo & Hbo & He & Hw & Hl).
      exists bo. rewrite u64_small by lia. cbn [eval length].
      rewrite wpow_S, He, Heval.
      repeat split; try lia; try (constructor; [unfold is_word; lia | assumption]).
    + destruct (IH (tl b) 1 Ha' Hbtl Hlentl ltac:(lia) ltac:(intros _; exact Htl) Htl')
        as (bo & Hbo & He & Hw & Hl).
      exists bo.
      replace (u64 (ai + 0 - bi - borrow)) with (ai - bi - borrow + 2 ^ 64).
      2:{ unfold u64. apply (Z.mod_unique_pos _ _ (-1)); lia. }
      cbn [eval length]. rewrite wpow_S, He, Heval.
      repeat split; try lia; try (constructor; [unfold is_word; lia | assumption]).
Qed.

End UnsignedCore.

Section Comparison.

Lemma compare_from_top_spec (ra : list Z) :
  forall rb,
    length ra = length rb -> Forall is_word ra -> Forall is_word rb ->
    compare_from_top ra rb = sign_of_comparison (eval (rev ra)) (eval (rev rb)).
Proof.
  induction ra as [|x ra IH]; intros [|y rb] Hlen Ha Hb; try discriminate Hlen.
  - reflexivity.
  - inversion Ha as [|? ? Hx Ha']; inversion Hb as [|? ? Hy Hb']; subst.
    injection Hlen as Hlen. unfold is_word in Hx, Hy.
    cbn [compare_from_top rev]. rewrite !eval_top, !length_rev, <- Hlen.
    pose proof (eval_bound (rev ra) (Forall_rev Ha')) as Ba.
    pose proof (eval_bound (rev rb) (Forall_rev Hb')) as Bb.
    rewrite !length_rev in *. rewrite <- Hlen in Bb.
    set (W := wpow (length ra)) in *.
    destruct (Z.eqb_spec x y) as [->|Hxy]; cbn [negb].
    + rewrite (IH rb Hlen Ha' Hb'). unfold sign_of_comparison.
      destruct (Z.ltb_spec (eval (rev ra)) (eval (rev rb)));
        destruct (Z.ltb_spec (eval (rev ra) + W * y) (eval (rev rb) + W * y));
        try lia.
      destruct (Z.eqb_spec (eval (rev ra)) (eval (rev rb)));
        destruct (Z.eqb_spec (eval (rev ra) + W * y) (eval (rev rb) + W * y));
        try lia; reflexivity.
    + unfold sign_of_comparison. destruct (Z.ltb_spec x y) as [Hlt|Hge].
      * assert (W * x + W <= W * y) by nia.
        destruct (Z.ltb_spec (eval (rev ra) + W * x) (eval (rev rb) + W * y));
          [reflexivity | lia].
      * assert (W * y + W <= W * x) by nia.
        destruct (Z.ltb_spec (eval (rev ra) + W * x) (eval (rev rb) + W * y));
          [lia|].
        destruct (Z.eqb_spec (eval (rev ra) + W * x) (eval (rev rb) + W * y));
          [lia | reflexivity].
Qed.

Lemma abs_compare_spec (a b : BigNum) :
  well_formed a -> well_formed b ->
  abs_compare a b = sign_of_comparison (magnitude a) (magnitude b).
Proof.
  intros Ha Hb. unfold abs_compare.
  destruct (Nat.eqb_spec (size a) (size b)) as [Hs|Hs]; cbn [negb].
  - unfold magnitude. rewrite compare_from_top_spec.
    + rewrite !rev_involutive. reflexivity.
    + rewrite !length_rev. exact Hs.
    + apply Forall_rev, Ha.
    + apply Forall_rev, Hb.
  - unfold sign_of_comparison. destruct (Nat.ltb_spec (size a) (size b)) as [Hlt|Hge].
    + destruct (Z.ltb_spec (magnitude a) (magnitude b)); [reflexivity|].
      pose proof (well_formed_size_le b a Hb Ha ltac:(lia)). lia.
    + destruct (Z.ltb_spec (magnitude a) (magnitude b)) as [Hm|Hm].
      * pose proof (well_formed_size_le a b Ha Hb ltac:(lia)). lia.
      * destruct (Z.eqb_spec (magnitude a) (magnitude b)) as [E|E]; [|reflexivity].
        pose proof (well_formed_size_le a b Ha Hb ltac:(lia)). lia.
Qed.

Lemma compare_unfold (a b : BigNum) :
  compare a b =
  if negb (Bool.eqb (negative a) (negative b)) then
    (if negative a then -1 else 1)
  else (if negative a then -1 else 1) * abs_compare a b.
Proof.
  unfold compare, abs_compare.
  destruct (negb (Bool.eqb (negative a) (negative b))); [reflexivity|].
  destruct (negb (size a =? size b)%nat); reflexivity.
Qed.

Lemma canonical_negative_nonzero (a : BigNum) :
  canonical a -> negative a = true -> 0 < magnitude a.
Proof.
  intros [Hwf Hz] Hn.
  pose proof (eval_bound _ (proj1 (proj2 Hwf))). unfold magnitude in *.
  destruct (Z.eq_dec (eval (digits a)) 0) as [E|E]; [|lia].
  specialize (Hz E). congruence.
Qed.

Lemma compare_spec (a b : BigNum) :
  canonical a -> canonical b ->
  compare a b = sign_of_comparison (value a) (value b).
Proof.
  intros Ca Cb. rewrite compare_unfold.
  rewrite (abs_compare_spec a b (proj1 Ca) (proj1 Cb)).
  pose proof (eval_bound _ (proj1 (proj2 (proj1 Ca)))) as Ba.
  pose proof (eval_bound _ (proj1 (proj2 (proj1 Cb)))) as Bb.
  unfold value, magnitude in *. unfold sign_of_comparison.
  destruct (negative a) eqn:Na, (negative b) eqn:Nb; cbn [Bool.eqb negb].
  - destruct (Z.ltb_spec (eval (digits a)) (eval (digits b)));
      destruct (Z.ltb_spec (- eval (digits a)) (- eval (digits b))); try lia.
    + destruct (Z.eqb_spec (- eval (digits a)) (- eval (digits b))); [lia | reflexivity].
    + destruct (Z.eqb_spec (eval (digits a)) (eval (digits b))); lia.
    + destruct (Z.eqb_spec (eval (digits a)) (eval (digits b)));
        destruct (Z.eqb_spec (- eval (digits a)) (- eval (digits b))); lia.
  - pose proof (canonical_negative_nonzero a Ca Na). unfold magnitude in *.
    destruct (Z.ltb_spec (- eval (digits a)) (eval (digits b))); [reflexivity | lia].
  - pose proof (canonical_negative_nonzero b Cb Nb). unfold magnitude in *.
    destruct (Z.ltb_spec (eval (digits a)) (- eval (digits b))); [lia|].
    destruct (Z.eqb_spec (eval (digits a)) (- eval (digits b))); [lia | reflexivity].
  - destruct (Z.ltb_spec (eval (digits a)) (eval (digits b))); [reflexivity|].
    destruct (Z.eqb_spec (eval (digits a)) (eval (digits b))); reflexivity.
Qed.

End Comparison.

Section SignedArithmetic.

Lemma value_set_negative (x : BigNum) (n : bool) :
  value (set_negative x n) = if n then - magnitude x else magnitude x.
Proof. reflexivity. Qed.

Lemma well_formed_set_negative (x : BigNum) (n : bool) :
  well_formed x -> well_formed (set_negative x n).
Proof. intros H. exact H. Qed.

Lemma addUnsigned_magnitude (a b : BigNum) :
  well_formed a -> well_formed b ->
  magnitude (addUnsigned a b) = magnitude a + magnitude b.
Proof.
  intros Ha Hb. unfold addUnsigned. rewrite magnitude_BigNum_of_digits.
  destruct (add_loop_spec (digits a) (digits b) 0
              (proj1 (proj2 Ha)) (proj1 (proj2 Hb)) ltac:(lia)) as [E _].
  unfold magnitude. lia.
Qed.

Lemma addUnsigned_canonical (a b : BigNum) :
  well_formed a -> well_formed b -> canonical (addUnsigned a b).
Proof.
  intros Ha Hb. unfold addUnsigned. apply BigNum_of_digits_canonical.
  - apply add_loop_nonempty. left. exact (proj1 Ha).
  - apply (add_loop_spec (digits a) (digits b) 0
             (proj1 (proj2 Ha)) (proj1 (proj2 Hb)) ltac:(lia)).
Qed.

Lemma subtractUnsigned_spec (a b : BigNum) :
  well_formed a -> well_formed b ->
  magnitude b <= magnitude a ->
  Forall below_max (tl (digits b)) ->
  magnitude (subtractUnsigned a b) = magnitude a - magnitude b
  /\ canonical (subtractUnsigned a b).
Proof.
  intros Ha Hb Hle Hmax.
  pose proof (well_formed_size_le b a Hb Ha Hle) as Hsz. unfold size in Hsz.
  destruct (sub_loop_spec (digits a) (digits b) 0
              (proj1 (proj2 Ha)) (proj1 (proj2 Hb)) Hsz ltac:(lia)
              ltac:(intros; lia) Hmax)
    as (bo & Hbo & E & Hw & Hlen).
  pose proof (eval_bound _ Hw) as Bs. rewrite Hlen in Bs.
  pose proof (eval_bound _ (proj1 (proj2 Ha))) as Ba.
  pose proof (eval_bound _ (proj1 (proj2 Hb))) as Bb.
  unfold magnitude in Hle.
  assert (Hb0 : bo = 0).
  { assert (Hc : bo = 0 \/ bo = 1) by lia. destruct Hc as [->| ->]; [reflexivity|].
    lia. }
  subst bo. unfold subtractUnsigned. split.
  - rewrite magnitude_BigNum_of_digits. unfold magnitude. lia.
  - apply BigNum_of_digits_canonical; [|exact Hw].
    intros Hnil. rewrite Hnil in Hlen. cbn in Hlen.
    apply (proj1 Ha). destruct (digits a); [reflexivity | discriminate Hlen].
Qed.

Lemma isZero_magnitude (a : BigNum) : isZero a = true -> magnitude a = 0.
Proof.
  unfold isZero, magnitude. destruct (digits a) as [|d [|d' l]]; try discriminate.
  intros H. apply Z.eqb_eq in H. subst d. reflexivity.
Qed.

Lemma well_formed_zero (a : BigNum) :
  well_formed a -> magnitude a = 0 -> isZero a = true.
Proof.
  intros Ha Hm. unfold isZero.
  destruct (Nat.ltb_spec 1 (size a)) as [Hs|Hs].
  - pose proof (well_formed_lower_bound a Ha Hs).
    pose proof (wpow_pos (size a - 1)). lia.
  - destruct Ha as (Hne & _ & _). unfold size, magnitude in *.
    destruct (digits a) as [|d [|d' l]]; [congruence| |cbn in Hs; lia].
    cbn in Hm. apply Z.eqb_eq. lia.
Qed.

Lemma operator_neg_value (a : BigNum) : value (operator_neg a) = - value a.
Proof.
  unfold operator_neg. destruct (isZero a) eqn:Hz; cbn [negb].
  - apply isZero_magnitude in Hz. unfold value. rewrite Hz.
    destruct (negative a); reflexivity.
  - unfold value, magnitude. cbn [digits negative].
    destruct (negative a); cbn [negb]; lia.
Qed.

Lemma operator_neg_involutive (a : BigNum) :
  operator_neg (operator_neg a) = a.
Proof.
  unfold operator_neg. destruct (isZero a) eqn:Hz; cbn [negb].
  - rewrite Hz. reflexivity.
  - assert (Hz' : isZero (mkBigNum (digits a) (negb (negative a))) = false)
      by exact Hz.
    rewrite Hz'. cbn [negb digits negative]. rewrite negb_involutive.
    destruct a; reflexivity.
Qed.

Lemma operator_neg_well_formed (a : BigNum) :
  well_formed a -> well_formed (operator_neg a).
Proof.
  intros Ha. unfold operator_neg. destruct (isZero a); cbn [negb]; exact Ha.
Qed.

Lemma operator_neg_canonical (a : BigNum) :
  canonical a -> canonical (operator_neg a).
Proof.
  intros [Ha Hz]. split; [apply operator_neg_well_formed, Ha|].
  unfold operator_neg. destruct (isZero a) eqn:Z0; cbn [negb].
  - exact Hz.
  - unfold magnitude. cbn [digits]. intros Hm.
    rewrite (well_formed_zero a Ha Hm) in Z0. discriminate Z0.
Qed.

Lemma operator_neg_digits (a : BigNum) : digits (operator_neg a) = digits a.
Proof. unfold operator_neg. destruct (isZero a); reflexivity. Qed.

Lemma operator_add_spec (a b : BigNum) :
  well_formed a -> well_formed b ->
  negative a = negative b
  \/ (Forall below_max (tl (digits a)) /\ Forall below_max (tl (digits b))) ->
  value (operator_add a b) = value a + value b
  /\ well_formed (operator_add a b).
Proof.
  intros Ha Hb Hcond. unfold operator_add.
  fold (abs_compare a b). rewrite (abs_compare_spec a b Ha Hb).
  destruct (Bool.eqb (negative a) (negative b)) eqn:Hs.
  - apply Bool.eqb_prop in Hs. split.
    + rewrite value_set_negative, addUnsigned_magnitude by assumption.
      unfold value. rewrite <- Hs. destruct (negative a); lia.
    + apply well_formed_set_negative, addUnsigned_canonical; assumption.
  - destruct Hcond as [Heq|[Ma Mb]].
    { rewrite Heq, Bool.eqb_reflx in Hs. discriminate Hs. }
    unfold sign_of_comparison.
    destruct (Z.ltb_spec (magnitude a) (magnitude b)) as [Hlt|Hge].
    + cbn [Z.leb Z.compare].
      destruct (subtractUnsigned_spec b a Hb Ha ltac:(lia) Ma) as [E C].
      split; [|apply well_formed_set_negative, C].
      rewrite value_set_negative, E. unfold value.
      destruct (negative a), (negative b); try discriminate Hs; lia.
    + assert (Hle : (0 <=? (if magnitude a =? magnitude b then 0 else 1)) = true)
        by (destruct (magnitude a =? magnitude b); reflexivity).
      rewrite Hle.
      destruct (subtractUnsigned_spec a b Ha Hb ltac:(lia) Mb) as [E C].
      split; [|apply well_formed_set_negative, C].
      rewrite value_set_negative, E. unfold value.
      destruct (negative a), (negative b); try discriminate Hs; lia.
Qed.

Lemma operator_sub_spec (a b : BigNum) :
  well_formed a -> well_formed b ->
  Forall below_max (tl (digits a)) -> Forall below_max (tl (digits b)) ->
  value (operator_sub a b) = value a - value b
  /\ well_formed (operator_sub a b).
Proof.
  intros Ha Hb Ma Mb. unfold operator_sub.
  destruct (operator_add_spec a (operator_neg b) Ha
              (operator_neg_well_formed b Hb)) as [E W].
  - right. rewrite operator_neg_digits. split; assumption.
  - split; [|exact W]. rewrite E, operator_neg_value. lia.
Qed.

End SignedArithmetic.

Section Shifts.

Lemma lor_disjoint (d c b : Z) :
  0 <= b -> 0 <= d -> 0 <= c < 2 ^ b ->
  Z.lor (Z.shiftl d b) c = d * 2 ^ b + c.
Proof.
  intros Hb Hd Hc.
  rewrite Z.shiftl_mul_pow2 by lia.
  rewrite <- Z.lxor_lor, <- Z.add_nocarry_lxor; try reflexivity.
  all: rewrite <- Z.shiftl_mul_pow2 by lia.
  all: apply Z.bits_inj'; intros k Hk.
  all: rewrite Z.land_spec, Z.bits_0.
  all: destruct (Z.lt_ge_cases k b).
  all: try (rewrite Z.shiftl_spec_low by lia; reflexivity).
  all: rewrite andb_comm.
  all: destruct (Z.eq_dec c 0) as [->|];
    [rewrite Z.bits_0; reflexivity|].
  all: assert (Z.log2 c < b) by (apply Z.log2_lt_pow2; lia).
  all: rewrite (Z.bits_above_log2 c k); [reflexivity | lia | lia].
Qed.

Lemma pow2_split (b : Z) : 0 <= b <= 64 -> 2 ^ b * 2 ^ (64 - b) = 2 ^ 64.
Proof. intros H. rewrite <- Z.pow_add_r by lia. f_equal. lia. Qed.

Lemma shl_loop_spec (bs : Z) (ds : list Z) :
  0 < bs < 64 ->
  forall carry,
    Forall is_word ds -> 0 <= carry < 2 ^ bs ->
    eval (shl_loop ds bs carry) = eval ds * 2 ^ bs + carry
    /\ Forall is_word (shl_loop ds bs carry).
Proof.
  intros Hbs. pose proof (pow2_split bs ltac:(lia)) as Hsplit.
  assert (Hp : 0 < 2 ^ bs) by (apply Z.pow_pos_nonneg; lia).
  assert (Hq : 0 < 2 ^ (64 - bs)) by (apply Z.pow_pos_nonneg; lia).
  assert (Hlt : 2 ^ bs < 2 ^ 64) by (apply Z.pow_lt_mono_r; lia).
  induction ds as [|d ds IH]; intros carry Hds Hc.
  - cbn [shl_loop eval]. split; [lia|]. constructor; [|constructor].
    unfold is_word. lia.
  - inversion Hds as [|? ? Hd Hds']; subst. unfold is_word in Hd.
    cbn [shl_loop].
    rewrite lor_disjoint by lia.
    assert (Ht : 0 <= d * 2 ^ bs + carry < 2 ^ 64 * 2 ^ bs) by nia.
    assert (H128 : 2 ^ 64 * 2 ^ bs < 2 ^ 128).
    { change (2 ^ 128) with (2 ^ 64 * 2 ^ 64). nia. }
    rewrite u128_small by lia.
    rewrite low_word, high_word.
    set (t := d * 2 ^ bs + carry) in *.
    assert (Hhi : 0 <= t / 2 ^ 64 < 2 ^ bs).
    { split; [apply Z.div_pos; lia|]. apply Z.div_lt_upper_bound; lia. }
    rewrite (u64_small (t / 2 ^ 64)) by lia.
    destruct (IH (t / 2 ^ 64) Hds' Hhi) as [E W].
    pose proof (Z.mod_pos_bound t (2 ^ 64) ltac:(lia)) as Hm.
    pose proof (Z.div_mod t (2 ^ 64) ltac:(lia)) as Hdm.
    split.
    + cbn [eval]. rewrite E. unfold t in *. lia.
    + constructor; [exact Hm | exact W].
Qed.

Lemma shl_loop_nonempty (ds : list Z) (bs carry : Z) :
  shl_loop ds bs carry <> [].
Proof. destruct ds; discriminate. Qed.

Lemma Forall_zeros (n : nat) : Forall is_word (zeros n).
Proof.
  unfold zeros. induction n; cbn [repeat]; constructor; [|assumption].
  unfold is_word. lia.
Qed.

Lemma eval_zeros_app (n : nat) (ds : list Z) :
  eval (zeros n ++ ds) = wpow n * eval ds.
Proof.
  rewrite eval_app. unfold zeros. rewrite eval_repeat_0, repeat_length. lia.
Qed.

Lemma wpow_shift (shift : Z) :
  0 <= shift ->
  2 ^ shift = wpow (Z.to_nat (shift / 64)) * 2 ^ (shift mod 64).
Proof.
  intros H. unfold wpow.
  pose proof (Z.div_pos shift 64 H ltac:(lia)).
  pose proof (Z.mod_pos_bound shift 64 ltac:(lia)).
  rewrite Z2Nat.id by lia. rewrite <- Z.pow_add_r by lia.
  f_equal. pose proof (Z.div_mod shift 64 ltac:(lia)). lia.
Qed.

Lemma operator_shl_magnitude (a : BigNum) (shift : Z) :
  Forall is_word (digits a) -> 0 <= shift ->
  magnitude (operator_shl a shift) = magnitude a * 2 ^ shift.
Proof.
  intros Hw Hs. unfold operator_shl.
  destruct (Z.leb_spec shift 0) as [H0|H0].
  - assert (shift = 0) by lia. subst shift. change (2 ^ 0) with 1. lia.
  - rewrite (wpow_shift shift Hs).
    pose proof (Z.mod_pos_bound shift 64 ltac:(lia)) as Hm.
    destruct (Z.eqb_spec (shift mod 64) 0) as [E|E].
    + rewrite magnitude_BigNum_of_digits, eval_zeros_app, eval_top. rewrite E.
      change (2 ^ 0) with 1. unfold magnitude. lia.
    + rewrite magnitude_BigNum_of_digits, eval_zeros_app.
      destruct (shl_loop_spec (shift mod 64) (digits a) ltac:(lia) 0 Hw) as [Ev _].
      { split; [lia|]. apply Z.pow_pos_nonneg; lia. }
      rewrite Ev. unfold magnitude. lia.
Qed.

Lemma operator_shl_canonical (a : BigNum) (shift : Z) :
  canonical a -> canonical (operator_shl a shift).
Proof.
  intros Ca. pose proof (proj1 (proj2 (proj1 Ca))) as Hw. unfold operator_shl.
  destruct (Z.leb_spec shift 0) as [H0|H0]; [exact Ca|].
  pose proof (Z.mod_pos_bound shift 64 ltac:(lia)) as Hm.
  destruct (Z.eqb_spec (shift mod 64) 0) as [E|E];
    apply BigNum_of_digits_canonical.
  - intros Hnil. apply app_eq_nil in Hnil. destruct Hnil as [_ Hnil].
    apply app_eq_nil in Hnil. destruct Hnil as [_ Hnil]. discriminate Hnil.
  - apply Forall_app. split; [apply Forall_zeros|].
    apply Forall_app. split; [exact Hw|]. constructor; [|constructor].
    unfold is_word. lia.
  - intros Hnil. apply app_eq_nil in Hnil. destruct Hnil as [_ Hnil].
    exact (shl_loop_nonempty _ _ _ Hnil).
  - apply Forall_app. split; [apply Forall_zeros|].
    apply (shl_loop_spec (shift mod 64) (digits a) ltac:(lia) 0 Hw).
    split; [lia|]. apply Z.pow_pos_nonneg; lia.
Qed.

Lemma operator_shl_value (a : BigNum) (shift : Z) :
  Forall is_word (digits a) -> 0 <= shift ->
  value (operator_shl a shift) = value a * 2 ^ shift.
Proof.
  intros Hw Hs.
  unfold operator_shl.
  destruct (Z.leb_spec shift 0) as [H0|H0].
  - assert (shift = 0) by lia. subst shift. change (2 ^ 0) with 1. lia.
  - pose proof (operator_shl_magnitude a shift Hw Hs) as Hmag.
    unfold operator_shl in Hmag.
    destruct (Z.leb_spec shift 0) as [H0'|_]; [lia|].
    destruct (shift mod 64 =? 0);
      rewrite magnitude_BigNum_of_digits in Hmag;
      rewrite value_BigNum_of_digits, Hmag; unfold value;
      destruct (negative a); lia.
Qed.

End Shifts.

Section RightShift.

Lemma shr_loop_length (bs : Z) (rds : list Z) :
  forall carry, length (shr_loop rds bs carry) = length rds.
Proof.
  induction rds as [|d rest IH]; intros carry; cbn [shr_loop length];
    [reflexivity | rewrite IH; reflexivity].
Qed.

Lemma shr_loop_spec (bs : Z) (rds : list Z) :
  0 < bs < 64 ->
  forall carry,
    Forall is_word rds -> 0 <= carry < 2 ^ bs ->
    eval (rev (shr_loop rds bs carry))
      = (carry * wpow (length rds) + eval (rev rds)) / 2 ^ bs
    /\ Forall is_word (shr_loop rds bs carry).
Proof.
  intros Hbs.
  assert (Hp : 0 < 2 ^ bs) by (apply Z.pow_pos_nonneg; lia).
  assert (Hlt : 2 ^ bs < 2 ^ 64) by (apply Z.pow_lt_mono_r; lia).
  induction rds as [|d rest IH]; intros carry Hds Hc.
  - cbn [shr_loop rev eval length]. rewrite wpow_0. split; [|constructor].
    rewrite Z.add_0_r, Z.mul_1_r. symmetry. apply Z.div_small. lia.
  - inversion Hds as [|? ? Hd Hds']; subst. unfold is_word in Hd.
    cbn [shr_loop].
    rewrite lor_disjoint_high by lia.
    set (t := carry * 2 ^ 64 + d).
    assert (Ht : 0 <= t < 2 ^ bs * 2 ^ 64) by (unfold t; nia).
    rewrite Z.shiftr_div_pow2 by lia.
    rewrite Z.shiftl_mul_pow2, Z.mul_1_l by lia.
    rewrite (u64_small (2 ^ bs)) by lia.
    replace (2 ^ bs - 1) with (Z.ones bs)
      by (rewrite Z.ones_equiv; lia).
    rewrite Z.land_ones by lia.
    pose proof (Z.mod_pos_bound t (2 ^ bs) ltac:(lia)) as Hm.
    assert (Hq : 0 <= t / 2 ^ bs < 2 ^ 64).
    { split; [apply Z.div_pos; lia|]. apply Z.div_lt_upper_bound; lia. }
    rewrite (u64_small (t / 2 ^ bs)) by lia.
    rewrite (u64_small (t mod 2 ^ bs)) by lia.
    destruct (IH (t mod 2 ^ bs) Hds' Hm) as [E W].
    split; [|constructor; [exact Hq | exact W]].
    cbn [rev length]. rewrite !eval_top, E, !length_rev, shr_loop_length.
    rewrite wpow_S.
    set (W' := wpow (length rest)). set (E' := eval (rev rest)).
    pose proof (Z.div_mod t (2 ^ bs) ltac:(lia)) as Hdm.
    replace (carry * (2 ^ 64 * W') + (E' + W' * d))
      with (W' * (t / 2 ^ bs) * 2 ^ bs + (t mod 2 ^ bs * W' + E')).
    + rewrite Z.div_add_l by lia. lia.
    + unfold t in *. nia.
Qed.

Lemma Forall_firstn_skipn (n : nat) (ds : list Z) :
  Forall is_word ds ->
  Forall is_word (firstn n ds) /\ Forall is_word (skipn n ds).
Proof.
  intros H. apply Forall_app. rewrite firstn_skipn. exact H.
Qed.

Lemma eval_skipn (n : nat) (ds : list Z) :
  Forall is_word ds -> eval (skipn n ds) = eval ds / wpow n.
Proof.
  intros Hw. destruct (Nat.le_gt_cases (length ds) n) as [Hle|Hgt].
  - rewrite skipn_all2 by exact Hle. cbn [eval]. symmetry. apply Z.div_small.
    pose proof (eval_bound ds Hw). pose proof (wpow_le _ _ Hle). lia.
  - rewrite <- (firstn_skipn n ds) at 2. rewrite eval_app.
    rewrite length_firstn, Nat.min_l by lia.
    pose proof (eval_bound (firstn n ds) (proj1 (Forall_firstn_skipn n ds Hw))) as B.
    rewrite length_firstn, Nat.min_l in B by lia.
    pose proof (wpow_pos n).
    rewrite Z.mul_comm, Z.div_add by lia.
    rewrite Z.div_small by lia. lia.
Qed.

Lemma operator_shr_magnitude (a : BigNum) (shift : Z) :
  Forall is_word (digits a) -> 0 <= shift ->
  magnitude (operator_shr a shift) = magnitude a / 2 ^ shift.
Proof.
  intros Hw Hs. unfold operator_shr.
  destruct (Z.leb_spec shift 0) as [H0|H0].
  - assert (shift = 0) by lia. subst shift. change (2 ^ 0) with 1.
    rewrite Z.div_1_r. reflexivity.
  - rewrite (wpow_shift shift Hs).
    pose proof (Z.mod_pos_bound shift 64 ltac:(lia)) as Hm.
    pose proof (Z.div_pos shift 64 Hs ltac:(lia)) as Hd.
    assert (Hp : 0 < 2 ^ (shift mod 64)) by (apply Z.pow_pos_nonneg; lia).
    pose proof (wpow_pos (Z.to_nat (shift / 64))) as Hwp.
    pose proof (eval_bound _ Hw) as B.
    destruct (Z.leb_spec (Z.of_nat (size a)) (shift / 64)) as [Hsz|Hsz].
    + change (magnitude zero) with 0. symmetry. apply Z.div_small.
      unfold magnitude.
      pose proof (wpow_le (size a) (Z.to_nat (shift / 64)) ltac:(lia)).
      unfold size in *. nia.
    + rewrite <- Z.div_div by lia. unfold magnitude at 2.
      rewrite <- (eval_skipn _ _ Hw).
      set (kept := skipn (Z.to_nat (shift / 64)) (digits a)).
      assert (Hk : Forall is_word kept) by (apply Forall_firstn_skipn, Hw).
      destruct (Z.eqb_spec (shift mod 64) 0) as [E|E].
      * rewrite magnitude_BigNum_of_digits, E. change (2 ^ 0) with 1.
        rewrite Z.div_1_r. reflexivity.
      * rewrite magnitude_BigNum_of_digits.
        destruct (shr_loop_spec (shift mod 64) (rev kept) ltac:(lia) 0
                    (Forall_rev Hk) ltac:(lia)) as [Ev _].
        rewrite Ev, rev_involutive. f_equal.
Qed.

Lemma operator_shr_canonical_pos (a : BigNum) (shift : Z) :
  Forall is_word (digits a) -> 0 < shift -> canonical (operator_shr a shift).
Proof.
  intros Hw H0. unfold operator_shr.
  destruct (Z.leb_spec shift 0) as [H0'|_]; [lia|].
  pose proof (Z.mod_pos_bound shift 64 ltac:(lia)) as Hm.
  pose proof (Z.div_pos shift 64 ltac:(lia) ltac:(lia)) as Hd.
  destruct (Z.leb_spec (Z.of_nat (size a)) (shift / 64)) as [Hsz|Hsz].
  - split; [|reflexivity]. repeat split; cbn; try discriminate; try lia.
    constructor; [unfold is_word; lia | constructor].
  - set (kept := skipn (Z.to_nat (shift / 64)) (digits a)).
    assert (Hk : Forall is_word kept) by (apply Forall_firstn_skipn, Hw).
    assert (Hlen : (0 < length kept)%nat).
    { unfold kept. rewrite length_skipn. unfold size in Hsz. lia. }
    destruct (Z.eqb_spec (shift mod 64) 0) as [E|E];
      apply BigNum_of_digits_canonical.
    + intros Hnil. rewrite Hnil in Hlen. cbn in Hlen. lia.
    + exact Hk.
    + intros Hnil. apply (f_equal (@length Z)) in Hnil.
      rewrite length_rev, shr_loop_length, length_rev in Hnil.
      cbn in Hnil. lia.
    + apply Forall_rev.
      apply (shr_loop_spec (shift mod 64) (rev kept) ltac:(lia) 0
               (Forall_rev Hk)). lia.
Qed.

Lemma operator_shr_canonical (a : BigNum) (shift : Z) :
  canonical a -> canonical (operator_shr a shift).
Proof.
  intros Ca. destruct (Z.leb_spec shift 0) as [H0|H0].
  - unfold operator_shr. destruct (Z.leb_spec shift 0); [exact Ca | lia].
  - apply operator_shr_canonical_pos; [apply Ca | exact H0].
Qed.

Lemma value_of_canonical (a : BigNum) (m : Z) (neg : bool) :
  canonical a -> magnitude a = m ->
  (m <> 0 -> negative a = neg) ->
  value a = if neg then - m else m.
Proof.
  intros Ca Hm Hn. unfold value. rewrite Hm.
  destruct (Z.eq_dec m 0) as [->|Hz].
  - destruct (negative a), neg; reflexivity.
  - rewrite (Hn Hz). reflexivity.
Qed.

Lemma operator_shr_value (a : BigNum) (shift : Z) :
  canonical a -> 0 <= shift ->
  value (operator_shr a shift) = Z.quot (value a) (2 ^ shift).
Proof.
  intros Ca Hs. pose proof (proj1 (proj2 (proj1 Ca))) as Hw.
  pose proof (operator_shr_magnitude a shift Hw Hs) as Hmag.
  assert (Hp : 0 < 2 ^ shift) by (apply Z.pow_pos_nonneg; lia).
  pose proof (eval_bound _ Hw) as B. fold (magnitude a) in B.
  assert (Hq : value (operator_shr a shift)
               = if negative a then - (magnitude a / 2 ^ shift)
                 else magnitude a / 2 ^ shift).
  { revert Hmag. unfold operator_shr.
    destruct (Z.leb_spec shift 0) as [H0|H0].
    - assert (shift = 0) by lia. subst shift. change (2 ^ 0) with 1.
      rewrite !Z.div_1_r. intros _. reflexivity.
    - destruct (Z.leb_spec (Z.of_nat (size a)) (shift / 64)) as [Hsz|Hsz].
      + change (magnitude zero) with 0. change (value zero) with 0.
        intros <-. destruct (negative a); reflexivity.
      + destruct (shift mod 64 =? 0);
          rewrite magnitude_BigNum_of_digits, value_BigNum_of_digits;
          intros ->; reflexivity. }
  rewrite Hq. unfold value.
  destruct (negative a).
  - rewrite Z.quot_opp_l by lia. rewrite Z.quot_div_nonneg by lia. reflexivity.
  - rewrite Z.quot_div_nonneg by lia. reflexivity.
Qed.

Lemma shift_round_trip (a : BigNum) (shift : Z) :
  canonical a -> 0 <= shift ->
  operator_shr (operator_shl a shift) shift = a.
Proof.
  intros Ca Hs. pose proof (proj1 (proj2 (proj1 Ca))) as Hw.
  assert (Hp : 0 < 2 ^ shift) by (apply Z.pow_pos_nonneg; lia).
  apply canonical_eq.
  - apply operator_shr_canonical, operator_shl_canonical, Ca.
  - exact Ca.
  - rewrite operator_shr_value, operator_shl_value by
      (try apply operator_shl_canonical; assumption).
    apply Z.quot_mul. lia.
Qed.

End RightShift.

Section Vectors.

Lemma length_set_nth (i : nat) (v : list Z) (x : Z) :
  length (set_nth i v x) = length v.
Proof.
  revert i. induction v as [|d v IH]; intros [|i]; cbn [set_nth length];
    try reflexivity. rewrite IH. reflexivity.
Qed.

Lemma get_set_nth_other (i k : nat) (v : list Z) (x : Z) :
  k <> i -> get (set_nth i v x) k = get v k.
Proof.
  unfold get. revert i k.
  induction v as [|d v IH]; intros [|i] [|k] H; cbn [set_nth nth];
    try reflexivity; try congruence.
  apply IH. congruence.
Qed.

Lemma eval_set_nth (i : nat) (v : list Z) (x : Z) :
  (i < length v)%nat ->
  eval (set_nth i v x) = eval v + wpow i * (x - get v i).
Proof.
  unfold get. revert i.
  induction v as [|d v IH]; intros [|i] H; cbn [length] in H; try lia.
  - cbn [set_nth eval nth]. rewrite wpow_0. lia.
  - cbn [set_nth eval nth]. rewrite IH by lia. rewrite wpow_S. lia.
Qed.

Lemma Forall_set_nth (i : nat) (v : list Z) (x : Z) :
  Forall is_word v -> is_word x -> Forall is_word (set_nth i v x).
Proof.
  intros Hv Hx. revert i.
  induction Hv as [|d v Hd Hv IH]; intros [|i]; cbn [set_nth];
    constructor; auto.
Qed.

Lemma get_word (v : list Z) (i : nat) :
  Forall is_word v -> is_word (get v i).
Proof.
  unfold get. intros Hv. revert i.
  induction Hv as [|d v Hd Hv IH]; intros [|i]; cbn [nth]; auto;
    unfold is_word; lia.
Qed.

Lemma eval_skipn_get (j : nat) (b : list Z) :
  (j < length b)%nat ->
  eval (skipn j b) = get b j + 2 ^ 64 * eval (skipn (S j) b).
Proof.
  unfold get. revert j.
  induction b as [|d b IH]; intros [|j] H; cbn [length] in H; try lia.
  - reflexivity.
  - cbn [skipn nth]. apply IH. lia.
Qed.

Lemma get_zeros (n k : nat) : get (zeros n) k = 0.
Proof.
  unfold get, zeros. revert k.
  induction n as [|n IH]; intros [|k]; cbn [repeat nth]; auto.
Qed.

End Vectors.

Section Schoolbook.

Variable ai : Z.
Variable b : list Z.
Variable i : nat.
Hypothesis Hai : is_word ai.
Hypothesis Hb : Forall is_word b.

Lemma mul_row_done (n j : nat) (res : list Z) :
  (length b <= j)%nat -> mul_row n ai b i j 0 res = res.
Proof.
  intros H. destruct n; cbn [mul_row]; [reflexivity|].
  destruct (Nat.ltb_spec j (length b)); [lia|]. reflexivity.
Qed.

Lemma mul_row_spec (n : nat) :
  forall j carry res,
    Forall is_word res -> 0 <= carry < 2 ^ 64 ->
    (j <= length b)%nat -> (i + length b < length res)%nat ->
    (length b + 1 - j <= n)%nat ->
    (forall k, (i + length b <= k)%nat -> get res k = 0) ->
    eval (mul_row n ai b i j carry res)
      = eval res + wpow (i + j) * (carry + ai * eval (skipn j b))
    /\ Forall is_word (mul_row n ai b i j carry res)
    /\ length (mul_row n ai b i j carry res) = length res
    /\ (forall k, (i + length b < k)%nat ->
                  get (mul_row n ai b i j carry res) k = 0).
Proof.
  induction n as [|n IH]; intros j carry res Hres Hc Hj Hlen Hn Hz; [lia|].
  cbn [mul_row]. unfold is_word in Hai.
  destruct (Nat.ltb_spec j (length b)) as [Hlt|Hge]; cbn [orb].
  - pose proof (get_word res (i + j) Hres) as Hr.
    pose proof (get_word b j Hb) as Hbj. unfold is_word in Hr, Hbj.
    assert (Hab : 0 <= ai * get b j <= (2 ^ 64 - 1) * (2 ^ 64 - 1)).
    { split; [apply Z.mul_nonneg_nonneg; lia|].
      apply Z.mul_le_mono_nonneg; lia. }
    rewrite (u128_small (ai * get b j)) by lia.
    set (prod := get res (i + j) + carry + ai * get b j).
    assert (Hprod : 0 <= prod < 2 ^ 128) by (unfold prod; lia).
    rewrite (u128_small prod) by exact Hprod.
    rewrite low_word, high_word.
    pose proof (Z.mod_pos_bound prod (2 ^ 64) ltac:(lia)) as Hm.
    pose proof (Z.div_mod prod (2 ^ 64) ltac:(lia)) as Hdm.
    assert (Hq : 0 <= prod / 2 ^ 64 < 2 ^ 64).
    { split; [apply Z.div_pos; lia|]. apply Z.div_lt_upper_bound; lia. }
    destruct (IH (S j) (prod / 2 ^ 64)
                (set_nth (i + j) res (prod mod 2 ^ 64))) as (E & W & L & Z0).
    + apply Forall_set_nth; assumption.
    + exact Hq.
    + lia.
    + rewrite length_set_nth. exact Hlen.
    + lia.
    + intros k Hk. rewrite get_set_nth_other by lia. apply Hz, Hk.
    + rewrite length_set_nth in L. repeat apply conj; try assumption.
      rewrite E, eval_set_nth by lia.
      rewrite (eval_skipn_get j b Hlt).
      replace (i + S j)%nat with (S (i + j)) by lia. rewrite wpow_S.
      set (W' := wpow (i + j)). set (E' := eval (skipn (S j) b)).
      replace (prod mod 2 ^ 64) with (prod - 2 ^ 64 * (prod / 2 ^ 64)) by lia.
      unfold prod. ring.
  - assert (Ej : j = length b) by lia. subst j.
    rewrite skipn_all. cbn [eval]. rewrite Z.mul_0_r, Z.add_0_r.
    destruct (Z.eqb_spec carry 0) as [->|Hc0]; cbn [negb].
    + repeat apply conj; try assumption; try reflexivity; try lia.
      intros k Hk. apply Hz. lia.
    + rewrite (Hz (i + length b)%nat) by lia. rewrite Z.add_0_l.
      rewrite (u128_small carry) by lia.
      rewrite low_word, high_word.
      rewrite Z.mod_small, Z.div_small by lia.
      rewrite mul_row_done by lia.
      rewrite eval_set_nth, length_set_nth by lia.
      rewrite (Hz (i + length b)%nat) by lia.
      repeat apply conj.
      * lia.
      * apply Forall_set_nth; [assumption | unfold is_word; lia].
      * reflexivity.
      * intros k Hk. rewrite get_set_nth_other by lia. apply Hz. lia.
Qed.

End Schoolbook.

Section SchoolbookRows.

Variable b : list Z.
Hypothesis Hb : Forall is_word b.

Lemma mul_rows_spec (a_rest : list Z) :
  forall i res,
    Forall is_word a_rest -> Forall is_word res ->
    (i + length a_rest + length b <= length res)%nat ->
    (forall k, (i + length b <= k)%nat -> get res k = 0) ->
    eval (mul_rows a_rest b i res)
      = eval res + wpow i * (eval a_rest * eval b)
    /\ Forall is_word (mul_rows a_rest b i res)
    /\ length (mul_rows a_rest b i res) = length res.
Proof.
  induction a_rest as [|ai a' IH]; intros i res Ha Hres Hlen Hz.
  - cbn [mul_rows eval]. repeat apply conj; try assumption; try reflexivity.
    lia.
  - inversion Ha as [|? ? Hai Ha']; subst. cbn [mul_rows length] in *.
    destruct (mul_row_spec ai b i Hai Hb (S (length res)) 0 0 res)
      as (E & W & L & Z0); try assumption; try lia.
    destruct (IH (S i) (mul_row (S (length res)) ai b i 0 0 res))
      as (E' & W' & L'); try assumption.
    + rewrite L. lia.
    + repeat apply conj; try assumption; [|congruence].
      rewrite E', E. cbn [skipn eval]. rewrite Nat.add_0_r, wpow_S. ring.
Qed.

End SchoolbookRows.

Section Product.

Lemma multiplySchoolbook_spec (a b : BigNum) :
  well_formed a -> well_formed b ->
  magnitude (multiplySchoolbook a b) = magnitude a * magnitude b
  /\ canonical (multiplySchoolbook a b).
Proof.
  intros Ha Hb. unfold multiplySchoolbook.
  destruct (mul_rows_spec (digits b) (proj1 (proj2 Hb)) (digits a) 0
              (zeros (size a + size b)))
    as (E & W & L).
  - exact (proj1 (proj2 Ha)).
  - apply Forall_zeros.
  - unfold zeros, size. rewrite repeat_length. lia.
  - intros k _. apply get_zeros.
  - split.
    + rewrite magnitude_BigNum_of_digits, E. unfold zeros.
      rewrite eval_repeat_0, wpow_0. unfold magnitude. lia.
    + apply BigNum_of_digits_canonical; [|exact W].
      intros Hnil. rewrite Hnil in L. unfold zeros, size in L.
      rewrite repeat_length in L. cbn [length] in L.
      apply (proj1 Ha). destruct (digits a); [reflexivity | cbn in L; lia].
Qed.

Lemma multiplyUnsigned_small (fuel : nat) (a b : BigNum) :
  (size a < KARATSUBA_THRESHOLD)%nat -> (size b < KARATSUBA_THRESHOLD)%nat ->
  multiplyUnsigned fuel a b = Ok (multiplySchoolbook a b).
Proof.
  intros Ha Hb.
  assert (H : (KARATSUBA_THRESHOLD <=? Nat.max (size a) (size b))%nat = false).
  { apply Nat.leb_gt. lia. }
  destruct fuel; cbn [multiplyUnsigned]; rewrite H; reflexivity.
Qed.

Lemma operator_mul_small (fuel : nat) (a b : BigNum) :
  well_formed a -> well_formed b ->
  (size a < KARATSUBA_THRESHOLD)%nat -> (size b < KARATSUBA_THRESHOLD)%nat ->
  exists r, operator_mul fuel a b = Ok r
            /\ value r = value a * value b /\ canonical r.
Proof.
  intros Wa Wb Ha Hb. unfold operator_mul.
  rewrite (multiplyUnsigned_small fuel a b Ha Hb). cbn [bind].
  destruct (multiplySchoolbook_spec a b Wa Wb) as [E C].
  eexists. split; [reflexivity|].
  change (removeLeadingZeros
            (set_negative (multiplySchoolbook a b)
                          (xorb (negative a) (negative b))))
    with (BigNum_of_digits (digits (multiplySchoolbook a b))
                           (xorb (negative a) (negative b))).
  split.
  - rewrite value_BigNum_of_digits. fold (magnitude (multiplySchoolbook a b)).
    rewrite E. unfold value.
    destruct (negative a), (negative b); cbn [xorb]; lia.
  - apply BigNum_of_digits_canonical; apply C.
Qed.

End Product.

Section Bits.

Lemma testbit_above_word (x n : Z) :
  is_word x -> 64 <= n -> Z.testbit x n = false.
Proof.
  intros Hx Hn. unfold is_word in Hx.
  destruct (Z.eq_dec x 0) as [->|Hnz]; [apply Z.bits_0|].
  apply Z.bits_above_log2; [lia|].
  assert (Z.log2 x < 64) by (apply Z.log2_lt_pow2; lia). lia.
Qed.

Lemma word_of_bits (z : Z) :
  0 <= z -> (forall n, 64 <= n -> Z.testbit z n = false) -> is_word z.
Proof.
  intros Hz Hbits. unfold is_word. split; [exact Hz|].
  destruct (Z.lt_ge_cases z (2 ^ 64)) as [H|H]; [exact H|].
  assert (Hl : 64 <= Z.log2 z) by (apply Z.log2_le_pow2; lia).
  pose proof (Z.bit_log2 z ltac:(lia)) as Hb.
  rewrite (Hbits _ Hl) in Hb. discriminate Hb.
Qed.

Lemma testbit_cons (x e n : Z) :
  is_word x -> 0 <= e -> 0 <= n ->
  Z.testbit (x + 2 ^ 64 * e) n
  = if n <? 64 then Z.testbit x n else Z.testbit e (n - 64).
Proof.
  intros Hx He Hn.
  replace (x + 2 ^ 64 * e) with (e * 2 ^ 64 + x) by lia.
  rewrite <- lor_disjoint_high by (unfold is_word in Hx; lia).
  rewrite Z.lor_spec.
  destruct (Z.ltb_spec n 64) as [Hlt|Hge].
  - rewrite Z.shiftl_spec_low by lia. reflexivity.
  - rewrite Z.shiftl_spec by lia. rewrite (testbit_above_word x n Hx Hge).
    apply orb_false_r.
Qed.

Variable f : Z -> Z -> Z.
Variable fb : bool -> bool -> bool.
Hypothesis f_spec :
  forall u v n, Z.testbit (f u v) n = fb (Z.testbit u n) (Z.testbit v n).
Hypothesis fb_false : fb false false = false.
Hypothesis f_nonneg : forall u v, 0 <= u -> 0 <= v -> 0 <= f u v.

Lemma bitwise_word (x y : Z) : is_word x -> is_word y -> is_word (f x y).
Proof.
  intros Hx Hy. apply word_of_bits.
  - apply f_nonneg; [apply Hx | apply Hy].
  - intros n Hn. rewrite f_spec, !testbit_above_word by assumption.
    exact fb_false.
Qed.

Lemma bitwise_cons (x y e g : Z) :
  is_word x -> is_word y -> 0 <= e -> 0 <= g ->
  f (x + 2 ^ 64 * e) (y + 2 ^ 64 * g) = f x y + 2 ^ 64 * f e g.
Proof.
  intros Hx Hy He Hg. apply Z.bits_inj'. intros n Hn.
  rewrite f_spec, !testbit_cons; try assumption;
    try (apply f_nonneg; assumption);
    try (apply bitwise_word; assumption).
  destruct (n <? 64); rewrite f_spec; reflexivity.
Qed.

Lemma zero_word : is_word 0.
Proof. unfold is_word. lia. Qed.

Lemma bitwise_map_l (b : list Z) :
  Forall is_word b ->
  eval (map (fun y => f 0 y) b) = f 0 (eval b)
  /\ Forall is_word (map (fun y => f 0 y) b).
Proof.
  induction 1 as [|y b Hy Hb [IH IW]]; cbn [map eval].
  - split; [|constructor]. apply Z.bits_inj'. intros n Hn.
    rewrite f_spec, Z.bits_0. symmetry. exact fb_false.
  - split.
    + rewrite IH.
      rewrite <- (bitwise_cons 0 y 0 (eval b) zero_word Hy ltac:(lia)
                    (eval_nonneg b Hb)).
      reflexivity.
    + constructor; [apply bitwise_word; [exact zero_word | exact Hy] | exact IW].
Qed.

Lemma bitwise_loop_spec (a : list Z) :
  forall b,
    Forall is_word a -> Forall is_word b ->
    eval (bitwise_loop f a b) = f (eval a) (eval b)
    /\ Forall is_word (bitwise_loop f a b)
    /\ (a <> [] -> bitwise_loop f a b <> []).
Proof.
  induction a as [|x a IH]; intros b Ha Hb.
  - cbn [bitwise_loop eval]. destruct (bitwise_map_l b Hb) as [E W].
    repeat apply conj; [exact E | exact W | congruence].
  - inversion Ha as [|? ? Hx Ha']; subst. cbn [bitwise_loop].
    destruct b as [|y b].
    + destruct (IH [] Ha' (Forall_nil _)) as (E & W & _).
      repeat apply conj; [| |discriminate].
      * cbn [eval]. rewrite E. cbn [eval].
        rewrite <- (bitwise_cons x 0 (eval a) 0 Hx zero_word
                      (eval_nonneg a Ha') ltac:(lia)).
        f_equal.
      * constructor; [apply bitwise_word; [exact Hx | exact zero_word] | exact W].
    + inversion Hb as [|? ? Hy Hb']; subst.
      destruct (IH b Ha' Hb') as (E & W & _).
      repeat apply conj; [| |discriminate].
      * cbn [eval]. rewrite E.
        rewrite <- (bitwise_cons x y (eval a) (eval b) Hx Hy
                      (eval_nonneg a Ha') (eval_nonneg b Hb')).
        reflexivity.
      * constructor; [apply bitwise_word; assumption | exact W].
Qed.

Lemma bitwise_operator (a b : BigNum) :
  well_formed a -> well_formed b ->
  let r := BigNum_of_digits (bitwise_loop f (digits a) (digits b)) false in
  value r = f (magnitude a) (magnitude b) /\ canonical r.
Proof.
  intros Ha Hb r.
  destruct (bitwise_loop_spec (digits a) (digits b)
              (proj1 (proj2 Ha)) (proj1 (proj2 Hb))) as (E & W & N).
  split.
  - unfold r. rewrite value_BigNum_of_digits. exact E.
  - apply BigNum_of_digits_canonical; [apply N, Ha | exact W].
Qed.

End Bits.

Section BitLength.

Lemma count_bits_spec (n : nat) :
  forall top bits,
    0 <= top < 2 ^ Z.of_nat n ->
    count_bits n top bits
    = bits + (if top =? 0 then 0 else Z.log2 top + 1).
Proof.
  induction n as [|n IH]; intros top bits Ht.
  - change (2 ^ Z.of_nat 0) with 1 in Ht. assert (top = 0) by lia. subst top.
    cbn. lia.
  - cbn [count_bits]. destruct (Z.eqb_spec top 0) as [E|E]; [lia|].
    rewrite Nat2Z.inj_succ, Z.pow_succ_r in Ht by lia.
    rewrite Z.shiftr_div_pow2 by lia. change (2 ^ 1) with 2.
    assert (Hh : 0 <= top / 2 < 2 ^ Z.of_nat n).
    { split; [apply Z.div_pos; lia|]. apply Z.div_lt_upper_bound; lia. }
    rewrite (IH (top / 2) (bits + 1) Hh).
    destruct (Z.eqb_spec (top / 2) 0) as [E2|E2].
    + assert (top = 1).
      { pose proof (Z.div_mod top 2 ltac:(lia)).
        pose proof (Z.mod_pos_bound top 2 ltac:(lia)). lia. }
      subst top. change (Z.log2 1) with 0. lia.
    + pose proof (Z.log2_shiftr top 1) as Hl.
      rewrite Z.shiftr_div_pow2 in Hl by lia. change (2 ^ 1) with 2 in Hl.
      assert (0 < Z.log2 top).
      { apply Z.log2_pos. pose proof (Z.div_mod top 2 ltac:(lia)).
        pose proof (Z.mod_pos_bound top 2 ltac:(lia)). lia. }
      lia.
Qed.

Lemma log2_top (lo top k : Z) :
  0 <= k -> 0 <= lo < 2 ^ k -> 0 < top ->
  Z.log2 (lo + 2 ^ k * top) = k + Z.log2 top.
Proof.
  intros Hk Hlo Ht.
  pose proof (Z.log2_spec top Ht) as [L U].
  pose proof (Z.log2_nonneg top) as Hn.
  apply Z.log2_unique; [lia|].
  rewrite Z.pow_succ_r in * by lia. rewrite !Z.pow_add_r by lia.
  assert (0 < 2 ^ k) by (apply Z.pow_pos_nonneg; lia).
  split; nia.
Qed.

Lemma bitLength_spec (a : BigNum) :
  well_formed a ->
  bitLength a
  = if magnitude a =? 0 then 0 else Z.log2 (magnitude a) + 1.
Proof.
  intros Ha. pose proof Ha as (Hne & Hw & Htop). unfold bitLength.
  destruct (isZero a) eqn:Hz.
  - rewrite (isZero_magnitude a Hz). reflexivity.
  - destruct (Z.eqb_spec (magnitude a) 0) as [E|E].
    { rewrite (well_formed_zero a Ha E) in Hz. discriminate Hz. }
    unfold size, magnitude in *.
    destruct (exists_last Hne) as (lo & top & Hd).
    rewrite Hd in *. rewrite last_last in *. rewrite length_app in *.
    cbn [length] in *.
    apply Forall_app in Hw. destruct Hw as [Hlo Htw].
    inversion Htw as [|? ? Ht _]; subst. unfold is_word in Ht.
    pose proof (eval_bound lo Hlo) as B. rewrite eval_top in *.
    assert (Hnz : top <> 0).
    { destruct lo as [|d lo']; [|apply Htop; cbn [length]; lia].
      cbn [eval length] in E. rewrite wpow_0 in E. lia. }
    rewrite count_bits_spec by (change (2 ^ Z.of_nat 64) with (2 ^ 64); lia).
    destruct (Z.eqb_spec top 0) as [|_]; [contradiction|].
    unfold wpow in *. rewrite log2_top by lia. lia.
Qed.

End BitLength.

Section Parity.

Lemma land_1_odd (d : Z) : Z.land d 1 = if Z.odd d then 1 else 0.
Proof.
  change 1 with (Z.ones 1) at 1. rewrite Z.land_ones by lia.
  change (2 ^ 1) with 2. rewrite <- Z.bit0_mod, Z.bit0_odd.
  destruct (Z.odd d); reflexivity.
Qed.

Lemma odd_value (a : BigNum) : Z.odd (value a) = Z.odd (get (digits a) 0).
Proof.
  assert (H : Z.odd (magnitude a) = Z.odd (get (digits a) 0)).
  { unfold magnitude, get. destruct (digits a) as [|d l]; cbn [eval nth];
      [reflexivity|].
    replace (2 ^ 64 * eval l) with (2 * (2 ^ 63 * eval l))
      by (change (2 ^ 64) with (2 * 2 ^ 63); ring).
    apply Z.odd_add_mul_2. }
  unfold value. destruct (negative a); [rewrite Z.odd_opp|]; exact H.
Qed.

Lemma isOdd_spec (a : BigNum) : isOdd a = Z.odd (value a).
Proof.
  unfold isOdd. rewrite land_1_odd, odd_value.
  destruct (Z.odd (get (digits a) 0)); reflexivity.
Qed.

Lemma isEven_spec (a : BigNum) : isEven a = Z.even (value a).
Proof.
  unfold isEven. rewrite land_1_odd, <- Z.negb_odd, odd_value.
  destruct (Z.odd (get (digits a) 0)); reflexivity.
Qed.

End Parity.

Section Int64.

Lemma BigNum_of_int64_spec (v : Z) :
  INT64_MIN <= v <= INT64_MAX ->
  BigNum_of_int64 v = mkBigNum [Z.abs v] (v <? 0).
Proof.
  unfold INT64_MIN, INT64_MAX, BigNum_of_int64. intros Hv.
  destruct (Z.ltb_spec v 0) as [Hneg|Hpos].
  - assert (E : u64 (- u64 v) = - v).
    { unfold u64.
      replace v with (v + 2 ^ 64 + (-1) * 2 ^ 64) at 1 by lia.
      rewrite Z.mod_add by lia. rewrite (Z.mod_small (v + 2 ^ 64)) by lia.
      replace (- (v + 2 ^ 64)) with (- v + (-1) * 2 ^ 64) by lia.
      rewrite Z.mod_add by lia. apply Z.mod_small. lia. }
    rewrite E. destruct (Z.eqb_spec (- v) 0); [lia|].
    rewrite Z.abs_neq by lia. reflexivity.
  - rewrite u64_small by lia. rewrite Z.abs_eq by lia.
    destruct (Z.eqb_spec v 0) as [->|]; reflexivity.
Qed.

Lemma int64_round_trip (v : Z) :
  INT64_MIN <= v <= INT64_MAX ->
  value (BigNum_of_int64 v) = v
  /\ canonical (BigNum_of_int64 v)
  /\ toInt64 (BigNum_of_int64 v) = Ok v.
Proof.
  intros Hv. rewrite (BigNum_of_int64_spec v Hv).
  unfold INT64_MIN, INT64_MAX in Hv.
  split; [|split; [split|]].
  - unfold value, magnitude. cbn [digits negative eval].
    destruct (Z.ltb_spec v 0); lia.
  - unfold well_formed, size. cbn [digits length]. repeat apply conj.
    + discriminate.
    + constructor; [unfold is_word; lia | constructor].
    + lia.
  - unfold magnitude. cbn [digits negative eval]. intros H.
    destruct (Z.ltb_spec v 0); [lia | reflexivity].
  - rewrite toInt64_one_word.
    destruct (Z.eqb_spec (Z.abs v) 0) as [E|E]; [f_equal; lia|].
    destruct (Z.ltb_spec v 0) as [Hneg|Hpos].
    + rewrite Z.abs_neq by lia.
      destruct (Z.ltb_spec (2 ^ 63) (- v)); [lia|]. f_equal.
      destruct (Z.eq_dec v (- 2 ^ 63)) as [->|Hne]; [reflexivity|].
      rewrite (to_int64_small (- v)) by lia. rewrite Z.opp_involutive.
      assert (Hm : v mod 2 ^ 64 = v + 2 ^ 64).
      { replace v with (v + 2 ^ 64 + (-1) * 2 ^ 64) at 1 by lia.
        rewrite Z.mod_add by lia. apply Z.mod_small. lia. }
      unfold to_int64. rewrite Hm. cbv zeta.
      destruct (Z.ltb_spec (v + 2 ^ 64) (2 ^ 63)); lia.
    + rewrite Z.abs_eq by lia.
      destruct (Z.ltb_spec (2 ^ 63 - 1) v); [lia|].
      rewrite to_int64_small by lia. reflexivity.
Qed.

End Int64.

Section Euclid.

Lemma euclid_measure_halves (R0 R1 : Z) :
  0 <= R0 -> 0 < R1 ->
  2 * egcd_measure R1 (R0 mod R1) <= egcd_measure R0 R1.
Proof.
  intros H0 H1.
  pose proof (Z.div_mod R0 R1 ltac:(lia)) as Hdm.
  pose proof (Z.mod_pos_bound R0 R1 H1) as Hm.
  assert (Hq : 0 <= R0 / R1) by (apply Z.div_pos; lia).
  set (q := R0 / R1) in *. set (m := R0 mod R1) in *.
  unfold egcd_measure.
  destruct (Z.ltb_spec m R1); [|lia].
  destruct (Z.ltb_spec R1 R0).
  - assert (1 <= q) by (apply Z.div_le_lower_bound; lia).
    assert (0 <= (q - 1) * R1) by (apply Z.mul_nonneg_nonneg; lia).
    assert (0 <= R1 * (R0 - 2 * m)) by (apply Z.mul_nonneg_nonneg; lia).
    lia.
  - assert (0 <= R1 * (R1 - m)) by (apply Z.mul_nonneg_nonneg; lia).
    lia.
Qed.

Lemma gcd_loop_words (fuel : nat) :
  (64 <= fuel)%nat ->
  forall n R0 R1,
    0 <= R0 < 2 ^ 64 -> 0 <= R1 < 2 ^ 64 ->
    (R1 <> 0 -> egcd_measure R0 R1 < 2 ^ Z.of_nat n) ->
    gcd_loop fuel n (word1 R0) (word1 R1) = Ok (word1 (Z.gcd R0 R1)).
Proof.
  intros Hfuel. induction n as [|n IH]; intros R0 R1 H0 H1 Hm;
    cbn [gcd_loop]; rewrite isZero_word1;
    destruct (Z.eqb_spec R1 0) as [->|Hnz];
    try (rewrite Z.gcd_0_r, Z.abs_eq by lia; reflexivity).
  - exfalso. pose proof (egcd_measure_pos R0 R1 ltac:(lia) ltac:(lia)).
    specialize (Hm Hnz). change (2 ^ Z.of_nat 0) with 1 in Hm. lia.
  - rewrite operator_mod_words by (assumption || lia). cbn [bind].
    pose proof (Z.mod_pos_bound R0 R1 ltac:(lia)) as Hb.
    rewrite IH; try lia.
    + rewrite (Z.gcd_comm R1), Z.gcd_mod by lia.
      rewrite Z.gcd_comm. reflexivity.
    + intros _. specialize (Hm Hnz).
      pose proof (euclid_measure_halves R0 R1 ltac:(lia) ltac:(lia)).
      rewrite Nat2Z.inj_succ, Z.pow_succ_r in Hm by lia. lia.
Qed.

Lemma abs_one_word (a : BigNum) :
  canonical a -> size a = 1%nat ->
  (if negative a then operator_neg a else a) = word1 (Z.abs (value a))
  /\ is_word (Z.abs (value a)).
Proof.
  intros Ca Sa. destruct (canonical_one_word a Ca Sa) as (x & Ea & Hx & Hx0).
  destruct a as [da na]. cbn [negative] in *. injection Ea as ->.
  unfold is_word in Hx. rewrite value_1. destruct na.
  - rewrite operator_neg_1. destruct (Z.eqb_spec x 0) as [E|E].
    + discriminate (Hx0 E).
    + rewrite Z.abs_neq by lia. rewrite Z.opp_involutive.
      split; [reflexivity | unfold is_word; lia].
  - rewrite Z.abs_eq by lia. split; [reflexivity | unfold is_word; lia].
Qed.

Lemma gcd_words (fuel : nat) (a b : BigNum) :
  (130 <= fuel)%nat ->
  canonical a -> size a = 1%nat -> canonical b -> size b = 1%nat ->
  gcd fuel a b = Ok (word1 (Z.gcd (value a) (value b))).
Proof.
  intros Hfuel Ca Sa Cb Sb. unfold gcd.
  destruct (abs_one_word a Ca Sa) as [-> Ha].
  destruct (abs_one_word b Cb Sb) as [-> Hb].
  unfold is_word in Ha, Hb.
  rewrite gcd_loop_words; try lia.
  - rewrite Z.gcd_abs_l, Z.gcd_abs_r. reflexivity.
  - intros _.
    assert (2 ^ 129 <= 2 ^ Z.of_nat fuel) by (apply Z.pow_le_mono_r; lia).
    assert (Z.abs (value a) * Z.abs (value b) <= (2 ^ 64 - 1) * (2 ^ 64 - 1))
      by (apply Z.mul_le_mono_nonneg; lia).
    assert (Z.abs (value b) * Z.abs (value b) <= (2 ^ 64 - 1) * (2 ^ 64 - 1))
      by (apply Z.mul_le_mono_nonneg; lia).
    unfold egcd_measure. destruct (_ <? _); lia.
Qed.

End Euclid.

Section SmallModulus.

Variable fuel : nat.
Variable N : Z.
Hypothesis Hfuel : (64 <= fuel)%nat.
Hypothesis HN : 2 <= N <= 2 ^ 32.

Lemma mul_mod_words (x y : Z) :
  0 <= x < N -> 0 <= y < N ->
  (p <- operator_mul fuel (word1 x) (word1 y) ;; operator_mod fuel p (word1 N))
  = Ok (word1 ((x * y) mod N)).
Proof.
  intros Hx Hy.
  assert (Hxy : 0 <= x * y <= (2 ^ 32 - 1) * (2 ^ 32 - 1)).
  { split; [apply Z.mul_nonneg_nonneg; lia|].
    apply Z.mul_le_mono_nonneg; lia. }
  rewrite operator_mul_word by lia. cbn [bind].
  apply operator_mod_words; lia.
Qed.

Lemma modPow_plain_loop_spec (n : nat) :
  forall r b e,
    0 <= r < N -> 0 <= b < N ->
    well_formed e -> magnitude e < 2 ^ Z.of_nat n ->
    modPow_plain_loop fuel n (word1 r) (word1 b) e (word1 N)
    = Ok (word1 ((r * b ^ magnitude e) mod N)).
Proof.
  induction n as [|n IH]; intros r b e Hr Hb We Hn.
  - pose proof (eval_bound _ (proj1 (proj2 We))) as B. fold (magnitude e) in B.
    change (2 ^ Z.of_nat 0) with 1 in Hn.
    assert (E0 : magnitude e = 0) by lia.
    cbn [modPow_plain_loop]. rewrite (well_formed_zero e We E0), E0.
    rewrite Z.pow_0_r, Z.mul_1_r, Z.mod_small by lia. reflexivity.
  - pose proof (eval_bound _ (proj1 (proj2 We))) as B. fold (magnitude e) in B.
    cbn [modPow_plain_loop].
    destruct (isZero e) eqn:Hz.
    + rewrite (isZero_magnitude e Hz).
      rewrite Z.pow_0_r, Z.mul_1_r, Z.mod_small by lia. reflexivity.
    + rewrite (mul_mod_words b b Hb Hb). cbn [bind].
      pose proof (operator_shr_canonical_pos e 1 (proj1 (proj2 We)) ltac:(lia))
        as [We' _].
      pose proof (operator_shr_magnitude e 1 (proj1 (proj2 We)) ltac:(lia))
        as Hm'.
      change (2 ^ 1) with 2 in Hm'.
      set (m := magnitude e) in *.
      pose proof (Z.div_mod m 2 ltac:(lia)) as Hdm.
      pose proof (Z.mod_pos_bound m 2 ltac:(lia)) as Hmb.
      assert (Hlt : magnitude (operator_shr e 1) < 2 ^ Z.of_nat n).
      { rewrite Hm'. rewrite Nat2Z.inj_succ, Z.pow_succ_r in Hn by lia.
        apply Z.div_lt_upper_bound; lia. }
      pose proof (Z.mod_pos_bound (b * b) N ltac:(lia)) as Hbb.
      assert (Hodd : isOdd e = Z.odd m).
      { rewrite isOdd_spec. unfold value. fold m.
        destruct (negative e); [apply Z.odd_opp | reflexivity]. }
      assert (Hsq : ((b * b) mod N) ^ (m / 2) mod N = (b * b) ^ (m / 2) mod N).
      { apply Z.mod_pow_l. }
      assert (Hhalf : 0 <= m / 2) by (apply Z.div_pos; lia).
      rewrite Hodd. destruct (Z.odd m) eqn:Ho.
      * rewrite (mul_mod_words r b Hr Hb). cbn [bind].
        pose proof (Z.mod_pos_bound (r * b) N ltac:(lia)) as Hrb.
        rewrite (IH _ _ _ Hrb Hbb We' Hlt), Hm'. f_equal. f_equal.
        rewrite (Z.mul_mod ((r * b) mod N)) by lia.
        rewrite Z.mod_mod, Hsq, <- Z.mul_mod by lia.
        f_equal.
        assert (E1 : m = 1 + 2 * (m / 2)).
        { rewrite Zmod_odd, Ho in Hdm. lia. }
        rewrite E1 at 2. rewrite Z.pow_add_r, Z.pow_1_r by lia.
        rewrite Z.pow_mul_r by lia. replace (b ^ 2) with (b * b) by ring.
        ring.
      * cbn [bind].
        rewrite (IH _ _ _ Hr Hbb We' Hlt), Hm'. f_equal. f_equal.
        rewrite (Z.mul_mod r) by lia.
        rewrite Hsq, <- Z.mul_mod by lia.
        f_equal.
        assert (E1 : m = 2 * (m / 2)).
        { rewrite Zmod_odd, Ho in Hdm. lia. }
        rewrite E1 at 2. rewrite Z.pow_mul_r by lia.
        replace (b ^ 2) with (b * b) by ring. reflexivity.
Qed.

Lemma modPow_small (a e : BigNum) :
  canonical a -> size a = 1%nat -> 0 <= value a ->
  well_formed e -> magnitude e < 2 ^ Z.of_nat fuel ->
  modPow fuel a e (word1 N)
  = Ok (word1 ((value a ^ magnitude e) mod N)).
Proof.
  intros Ca Sa Ha We He.
  destruct (canonical_one_word a Ca Sa) as (x & Ea & Hx & _).
  assert (Ha1 : one_word a) by (exists x; rewrite Ea; split; [reflexivity | exact Hx]).
  unfold modPow. rewrite isZero_word1.
  destruct (Z.eqb_spec N 0); [lia|].
  destruct (isZero e) eqn:Hz.
  - rewrite (isZero_magnitude e Hz), Z.pow_0_r, Z.mod_small by lia.
    reflexivity.
  - change (isOne (word1 N)) with (N =? 1).
    destruct (Z.eqb_spec N 1); [lia|].
    change (MONTGOMERY_THRESHOLD <=? size (word1 N))%nat with false.
    cbn [andb]. unfold modPowBinary.
    rewrite (operator_mod_one_word fuel a N Hfuel Ha1 Ha) by lia.
    cbn [bind].
    change (BARRETT_THRESHOLD <=? size (word1 N))%nat with false. cbv iota.
    rewrite BigNum_of_int64_1.
    pose proof (Z.mod_pos_bound (value a) N ltac:(lia)) as Hb.
    rewrite modPow_plain_loop_spec by (assumption || lia).
    rewrite Z.mul_1_l, Z.mod_pow_l. reflexivity.
Qed.

End SmallModulus.

Section HexOutput.

Lemma hex_digit_cases (d : Z) :
  0 <= d < 16 ->
  d = 0 \/ d = 1 \/ d = 2 \/ d = 3 \/ d = 4 \/ d = 5 \/ d = 6 \/ d = 7 \/
  d = 8 \/ d = 9 \/ d = 10 \/ d = 11 \/ d = 12 \/ d = 13 \/ d = 14 \/ d = 15.
Proof. lia. Qed.

Lemma is_hex_digit_char (d : Z) :
  0 <= d < 16 -> is_hex_digit (hex_digit_char d) = true.
Proof.
  intros H. pose proof (hex_digit_cases d H) as C.
  repeat (destruct C as [C | C]); subst d; reflexivity.
Qed.

Lemma hex_char_step_digit (v d : Z) :
  0 <= v < 2 ^ 60 -> 0 <= d < 16 ->
  hex_char_step v (hex_digit_char d) = Ok (16 * v + d).
Proof.
  intros Hv Hd.
  assert (Hs : u64 (Z.shiftl v 4) = Z.shiftl v 4).
  { rewrite Z.shiftl_mul_pow2 by lia. apply u64_small.
    change (2 ^ 4) with 16. lia. }
  assert (Hl : forall c, 0 <= c < 16 -> Z.lor (Z.shiftl v 4) c = 16 * v + c).
  { intros c Hc. rewrite lor_disjoint by (try change (2 ^ 4) with 16; lia).
    change (2 ^ 4) with 16. lia. }
  pose proof (hex_digit_cases d Hd) as C.
  unfold hex_char_step. rewrite Hs.
  repeat (destruct C as [C | C]); subst d;
    match goal with
    | |- context [hex_digit_char ?d] =>
        let c := eval vm_compute in (hex_digit_char d) in
        change (hex_digit_char d) with c
    end;
    repeat match goal with
      | |- context [char_between ?a ?b ?c] =>
          let r := eval vm_compute in (char_between a b c) in
          change (char_between a b c) with r
      end;
    cbv iota;
    match goal with
    | |- context [Z.lor _ ?k] =>
        let r := eval vm_compute in k in change k with r
    end;
    rewrite Hl by lia; reflexivity.
Qed.

Lemma hex_chunk_value_app (l1 l2 : list ascii) :
  forall v,
    hex_chunk_value (l1 ++ l2) v
    = (v' <- hex_chunk_value l1 v ;; hex_chunk_value l2 v').
Proof.
  induction l1 as [|c l1 IH]; intros v; cbn [app hex_chunk_value bind];
    [reflexivity|].
  destruct (hex_char_step v c); cbn [bind]; [apply IH | reflexivity..].
Qed.

Lemma hex_of_word_rev_spec (n : nat) :
  forall w,
    (n <= 16)%nat -> 0 <= w < 16 ^ Z.of_nat n -> (0 < n)%nat ->
    hex_chunk_value (rev (hex_of_word_rev n w)) 0 = Ok w
    /\ forallb is_hex_digit (hex_of_word_rev n w) = true
    /\ (1 <= length (hex_of_word_rev n w) <= n)%nat.
Proof.
  induction n as [|n IH]; intros w Hn Hw Hpos; [lia|].
  cbn [hex_of_word_rev].
  pose proof (Z.mod_pos_bound w 16 ltac:(lia)) as Hm.
  pose proof (Z.div_mod w 16 ltac:(lia)) as Hdm.
  rewrite Nat2Z.inj_succ, Z.pow_succ_r in Hw by lia.
  assert (Hq : 0 <= w / 16 < 16 ^ Z.of_nat n).
  { split; [apply Z.div_pos; lia|]. apply Z.div_lt_upper_bound; lia. }
  destruct (Z.eqb_spec (w / 16) 0) as [E|E].
  - cbn [rev app hex_chunk_value length forallb].
    rewrite hex_char_step_digit by lia. cbn [bind].
    rewrite is_hex_digit_char by lia.
    repeat apply conj; try reflexivity; try lia. f_equal. lia.
  - destruct n as [|n'].
    { change (16 ^ Z.of_nat 0) with 1 in Hq. lia. }
    destruct (IH (w / 16) ltac:(lia) Hq ltac:(lia)) as (E1 & E2 & E3).
    cbn [rev length forallb]. rewrite hex_chunk_value_app, E1. cbn [bind].
    cbn [hex_chunk_value].
    assert (Hb : 16 ^ Z.of_nat (S n') <= 16 ^ 15)
      by (apply Z.pow_le_mono_r; lia).
    rewrite hex_char_step_digit by (try change (2 ^ 60) with (16 ^ 15); lia).
    cbn [bind]. rewrite is_hex_digit_char, E2 by lia.
    repeat apply conj; try reflexivity; try lia. f_equal. lia.
Qed.

Lemma hex_of_word_spec (w : Z) :
  is_word w ->
  hex_chunk_value (hex_of_word w) 0 = Ok w
  /\ forallb is_hex_digit (hex_of_word w) = true
  /\ (1 <= length (hex_of_word w) <= 16)%nat.
Proof.
  intros Hw. unfold hex_of_word.
  destruct (hex_of_word_rev_spec 16 w ltac:(lia) Hw ltac:(lia)) as (E1 & E2 & E3).
  rewrite length_rev. repeat apply conj; try assumption; try lia.
  rewrite forallb_forall in *. intros c Hc. apply E2, in_rev, Hc.
Qed.

Lemma setw16_spec (w : Z) :
  is_word w ->
  hex_chunk_value (setw16 (hex_of_word w)) 0 = Ok w
  /\ forallb is_hex_digit (setw16 (hex_of_word w)) = true
  /\ length (setw16 (hex_of_word w)) = 16%nat.
Proof.
  intros Hw. destruct (hex_of_word_spec w Hw) as (E1 & E2 & E3).
  unfold setw16. set (k := (16 - length (hex_of_word w))%nat).
  repeat apply conj.
  - clearbody k. induction k as [|k IH]; [exact E1|].
    cbn [repeat app hex_chunk_value]. exact IH.
  - rewrite forallb_app, E2, andb_true_r. clearbody k.
    induction k as [|k IH]; [reflexivity | exact IH].
  - rewrite length_app, repeat_length. unfold k. lia.
Qed.

End HexOutput.

Section HexRoundTrip.

Lemma substr_app (str extra : list ascii) (pos len : nat) :
  (pos + len <= length str)%nat ->
  substr (str ++ extra) pos len = substr str pos len.
Proof.
  intros H. unfold substr. rewrite skipn_app, firstn_app, length_skipn.
  replace (len - (length str - pos))%nat with 0%nat by lia.
  cbn [firstn]. apply app_nil_r.
Qed.

Lemma hex_chunks_app (n : nat) (str extra : list ascii) :
  forall i, i <= Z.of_nat (length str) ->
            hex_chunks n (str ++ extra) i = hex_chunks n str i.
Proof.
  induction n as [|n IH]; intros i Hi; [reflexivity|].
  cbn [hex_chunks]. destruct (Z.ltb_spec 0 i); [|reflexivity].
  rewrite substr_app by lia. rewrite IH by lia. reflexivity.
Qed.

Lemma hex_body_cons (d : Z) (lo : list Z) (top : Z) :
  hex_body (d :: lo) top = hex_body lo top ++ setw16 (hex_of_word d).
Proof.
  unfold hex_body. cbn [rev]. rewrite map_app, concat_app. cbn [map concat].
  rewrite app_nil_r, app_assoc. reflexivity.
Qed.

Lemma hex_body_digits (lo : list Z) (top : Z) :
  Forall is_word lo -> is_word top ->
  forallb is_hex_digit (hex_body lo top) = true /\ hex_body lo top <> [].
Proof.
  intros Hlo Ht. destruct (hex_of_word_spec top Ht) as (_ & E2 & E3).
  induction Hlo as [|d lo Hd Hlo [IH1 IH2]].
  - unfold hex_body. cbn [rev map concat]. rewrite app_nil_r.
    split; [exact E2|]. intros Hnil. rewrite Hnil in E3. cbn in E3. lia.
  - rewrite hex_body_cons, forallb_app, IH1.
    destruct (setw16_spec d Hd) as (_ & F & _). rewrite F.
    split; [reflexivity|]. intros Hnil. apply app_eq_nil in Hnil. tauto.
Qed.

Lemma hex_body_length (lo : list Z) (top : Z) :
  Forall is_word lo -> is_word top ->
  (length lo < length (hex_body lo top))%nat.
Proof.
  intros Hlo Ht. destruct (hex_of_word_spec top Ht) as (_ & _ & E3).
  induction Hlo as [|d lo Hd Hlo IH].
  - unfold hex_body. cbn [rev map concat length]. rewrite app_nil_r. lia.
  - rewrite hex_body_cons, length_app.
    destruct (setw16_spec d Hd) as (_ & _ & ->). cbn [length]. lia.
Qed.

Lemma hex_chunks_body (lo : list Z) (top : Z) :
  Forall is_word lo -> is_word top ->
  forall n, (length lo < n)%nat ->
    hex_chunks n (hex_body lo top) (Z.of_nat (length (hex_body lo top)))
    = Ok (lo ++ [top]).
Proof.
  intros Hlo Ht. destruct (hex_of_word_spec top Ht) as (E1 & _ & E3).
  induction Hlo as [|d lo Hd Hlo IH]; intros n Hn.
  - unfold hex_body. cbn [rev map concat]. rewrite app_nil_r.
    destruct n as [|n]; [cbn in Hn; lia|]. cbn [hex_chunks].
    set (len := length (hex_of_word top)) in *.
    destruct (Z.ltb_spec 0 (Z.of_nat len)); [|lia].
    replace (Z.max 0 (Z.of_nat len - 16)) with 0 by lia.
    rewrite Z.sub_0_r, Nat2Z.id. unfold substr. cbn [Z.to_nat skipn].
    unfold len. rewrite firstn_all, E1. cbn [bind].
    rewrite hex_chunks_done by lia. reflexivity.
  - destruct n as [|n]; [cbn in Hn; lia|]. cbn [length] in Hn.
    destruct (setw16_spec d Hd) as (S1 & _ & S3).
    rewrite hex_body_cons, length_app, S3.
    set (str := hex_body lo top) in *. set (len := length str).
    cbn [hex_chunks].
    destruct (Z.ltb_spec 0 (Z.of_nat (len + 16))); [|lia].
    replace (Z.max 0 (Z.of_nat (len + 16) - 16)) with (Z.of_nat len) by lia.
    replace (Z.of_nat (len + 16) - Z.of_nat len) with 16 by lia.
    replace (Z.of_nat (len + 16) - 16) with (Z.of_nat len) by lia.
    rewrite Nat2Z.id. unfold substr, len.
    rewrite skipn_app, skipn_all, Nat.sub_diag. cbn [app skipn].
    change (Z.to_nat 16) with 16%nat. rewrite <- S3 at 1.
    rewrite firstn_all, S1. cbn [bind].
    rewrite hex_chunks_app by lia.
    rewrite (IH n) by lia. reflexivity.
Qed.

Lemma BigNum_of_digits_id (a : BigNum) :
  canonical a -> BigNum_of_digits (digits a) (negative a) = a.
Proof.
  intros Ca. apply canonical_eq.
  - apply BigNum_of_digits_canonical; apply Ca.
  - exact Ca.
  - rewrite value_BigNum_of_digits. reflexivity.
Qed.

Lemma fromHexString_unfold (s : string) :
  fromHexString s =
  let l := list_ascii_of_string s in
  let str := strip_0x (strip_sign l) in
  match l with
  | [] => Ok (BigNum_of_int64 0)
  | c0 :: _ =>
      match str with
      | [] => Ok (BigNum_of_int64 0)
      | _ => result_ <- hex_chunks (length str) str (Z.of_nat (length str)) ;;
             Ok (BigNum_of_digits result_ (Ascii.eqb c0 "-"))
      end
  end.
Proof.
  unfold fromHexString, strip_sign.
  destruct (list_ascii_of_string s) as [|c0 after_sign]; reflexivity.
Qed.

Lemma hex_digit_not_minus (c : ascii) :
  is_hex_digit c = true -> Ascii.eqb c "-" = false.
Proof.
  intros H. destruct (Ascii.eqb_spec c "-"%char) as [->|]; [|reflexivity].
  discriminate H.
Qed.

Lemma fromHexString_toHexString (a : BigNum) :
  canonical a -> fromHexString (toHexString a) = Ok a.
Proof.
  intros Ca. pose proof Ca as [Wa Hz0]. pose proof Wa as (Hne & Hw & _).
  unfold toHexString. destruct (isZero a) eqn:Hz.
  - pose proof (isZero_magnitude a Hz) as Hm. specialize (Hz0 Hm).
    unfold isZero in Hz. destruct a as [ds neg]. cbn [digits negative] in *.
    destruct ds as [|d [|d' ds]]; try discriminate Hz.
    apply Z.eqb_eq in Hz. subst d neg. reflexivity.
  - destruct (exists_last Hne) as (lo & top & Hd).
    rewrite Hd in Hw. apply Forall_app in Hw. destruct Hw as [Hlo Htw].
    inversion Htw as [|? ? Ht _]; subst.
    rewrite Hd, rev_app_distr. cbn [rev app].
    fold (hex_body lo top).
    destruct (hex_body_digits lo top Hlo Ht) as [Hdig Hnil].
    rewrite fromHexString_unfold, list_ascii_of_string_of_list_ascii.
    cbv zeta.
    assert (Hstrip : strip_0x (strip_sign
               ((if negative a then ["-"%char] else []) ++ hex_body lo top))
             = hex_body lo top).
    { apply (strip_of_format _ [] (hex_body lo top)); auto.
      destruct (negative a); auto. }
    assert (Hl : exists c0 rest,
               (if negative a then ["-"%char] else []) ++ hex_body lo top
               = c0 :: rest /\ Ascii.eqb c0 "-" = negative a).
    { destruct (hex_body lo top) as [|c body]; [congruence|].
      destruct (negative a); cbn [app]; eexists _, _;
        (split; [reflexivity|]); [reflexivity|].
      apply hex_digit_not_minus. cbn [forallb] in Hdig.
      apply andb_true_iff in Hdig. apply Hdig. }
    destruct Hl as (c0 & rest & El & Hs).
    rewrite Hstrip, El, Hs.
    pose proof (hex_chunks_body lo top Hlo Ht _ (hex_body_length lo top Hlo Ht))
      as Hc.
    destruct (hex_body lo top) as [|c body]; [congruence|].
    rewrite Hc. cbn [bind]. rewrite <- Hd, BigNum_of_digits_id by exact Ca.
    reflexivity.
Qed.

End HexRoundTrip.

Section Random.

Lemma log2_of_bits (a k : Z) :
  0 < a -> 0 <= k -> Z.testbit a k = true ->
  (forall j, k < j -> Z.testbit a j = false) ->
  Z.log2 a = k.
Proof.
  intros Ha Hk Hbit Habove.
  destruct (Z.lt_trichotomy (Z.log2 a) k) as [H|[H|H]]; [|exact H|].
  - rewrite Z.bits_above_log2 in Hbit by lia. discriminate Hbit.
  - pose proof (Z.bit_log2 a Ha) as Hb. rewrite Habove in Hb by lia.
    discriminate Hb.
Qed.

Lemma pow2_bit (k j : Z) : 0 <= k -> Z.testbit (2 ^ k) j = (j =? k).
Proof.
  intros Hk. destruct (Z.eqb_spec j k) as [->|Hne].
  - apply Z.pow2_bits_true. exact Hk.
  - apply Z.pow2_bits_false. congruence.
Qed.

Lemma random_top_spec (tb w : Z) :
  0 <= tb < 64 -> is_word w ->
  let k := if tb =? 0 then 63 else tb - 1 in
  is_word (random_top tb w) /\ 0 < random_top tb w
  /\ Z.log2 (random_top tb w) = k.
Proof.
  intros Htb Hw k. unfold random_top.
  assert (Hk : 0 <= k < 64) by (unfold k; destruct (Z.eqb_spec tb 0); lia).
  assert (Hp : forall e, 0 <= e < 64 -> u64 (Z.shiftl 1 e) = 2 ^ e).
  { intros e He. rewrite Z.shiftl_mul_pow2, Z.mul_1_l by lia.
    apply u64_small. split; [apply Z.pow_nonneg; lia|].
    apply Z.pow_lt_mono_r; lia. }
  set (x := if tb =? 0 then w
            else Z.land w (u64 (u64 (Z.shiftl 1 tb) - 1))).
  assert (Hx : is_word x /\ forall j, k < j -> Z.testbit x j = false).
  { unfold x, k. destruct (Z.eqb_spec tb 0) as [E|E].
    - split; [exact Hw|]. intros j Hj. apply testbit_above_word; [exact Hw | lia].
    - rewrite Hp by lia.
      assert (P : 2 <= 2 ^ tb < 2 ^ 64).
      { split; [|apply Z.pow_lt_mono_r; lia].
        change 2 with (2 ^ 1) at 1. apply Z.pow_le_mono_r; lia. }
      rewrite u64_small by lia.
      replace (2 ^ tb - 1) with (Z.ones tb) by (rewrite Z.ones_equiv; lia).
      rewrite Z.land_ones by lia.
      pose proof (Z.mod_pos_bound w (2 ^ tb) ltac:(lia)) as Hm.
      split; [unfold is_word; lia|].
      intros j Hj. apply Z.mod_pow2_bits_high. lia. }
  destruct Hx as [Hxw Hxb].
  assert (E : random_top tb w = Z.lor x (2 ^ k)).
  { unfold random_top, x, k. destruct (Z.eqb_spec tb 0); rewrite !Hp by lia;
      reflexivity. }
  unfold random_top in E. rewrite E.
  assert (Hnn : 0 <= Z.lor x (2 ^ k)).
  { apply Z.lor_nonneg. split; [apply Hxw | apply Z.pow_nonneg; lia]. }
  assert (Hbit : Z.testbit (Z.lor x (2 ^ k)) k = true).
  { rewrite Z.lor_spec, pow2_bit, Z.eqb_refl by lia. apply orb_true_r. }
  assert (Habove : forall j, k < j -> Z.testbit (Z.lor x (2 ^ k)) j = false).
  { intros j Hj. rewrite Z.lor_spec, pow2_bit, Hxb by lia.
    destruct (Z.eqb_spec j k); [lia | reflexivity]. }
  assert (Hpos : 0 < Z.lor x (2 ^ k)).
  { destruct (Z.eq_dec (Z.lor x (2 ^ k)) 0) as [E0|E0]; [|lia].
    rewrite E0, Z.bits_0 in Hbit. discriminate Hbit. }
  split; [|split].
  - apply word_of_bits; [exact Hnn|]. intros j Hj. apply Habove. lia.
  - exact Hpos.
  - apply log2_of_bits; (assumption || lia).
Qed.

Lemma set_nth_last (l : list Z) (x y : Z) :
  set_nth (length l) (l ++ [x]) y = l ++ [y]
  /\ get (l ++ [x]) (length l) = x.
Proof.
  unfold get. induction l as [|d l [IH1 IH2]]; cbn [length app set_nth nth].
  - split; reflexivity.
  - rewrite IH1, IH2. split; reflexivity.
Qed.

Lemma random_spec (dis : nat -> Z) (bits : Z) :
  (forall i, is_word (dis i)) -> 0 < bits -> bits + 63 < 2 ^ 64 ->
  bitLength (random dis bits) = bits
  /\ canonical (random dis bits)
  /\ negative (random dis bits) = false.
Proof.
  intros Hdis Hpos Hmax. unfold random.
  destruct (Z.eqb_spec bits 0); [lia|].
  rewrite (u64_small (bits + 63)) by lia.
  pose proof (Z.div_mod bits 64 ltac:(lia)) as Hdm.
  pose proof (Z.mod_pos_bound bits 64 ltac:(lia)) as Hmb.
  set (tb := bits mod 64) in *.
  assert (Hn : exists m, Z.to_nat ((bits + 63) / 64) = S m
                         /\ Z.of_nat m = (bits - 1) / 64).
  { exists (Z.to_nat ((bits - 1) / 64)).
    assert (0 <= (bits - 1) / 64) by (apply Z.div_pos; lia).
    replace (bits + 63) with (bits - 1 + 1 * 64) by lia.
    rewrite Z.div_add by lia. split; lia. }
  destruct Hn as (m & -> & Hm).
  replace (S m - 1)%nat with m by lia.
  rewrite seq_S, map_app. cbn [Nat.add map].
  set (lo := map dis (seq 0 m)).
  assert (Hlen : length lo = m) by (unfold lo; rewrite length_map, length_seq; reflexivity).
  assert (Hlo : Forall is_word lo).
  { unfold lo. apply Forall_forall. intros x Hx. apply in_map_iff in Hx.
    destruct Hx as (i & <- & _). apply Hdis. }
  destruct (set_nth_last lo (dis m) (random_top tb (dis m))) as [Hset Hget].
  rewrite Hlen in Hset, Hget. rewrite Hget, Hset.
  destruct (random_top_spec tb (dis m) ltac:(lia) (Hdis m)) as (Tw & Tpos & Tlog).
  set (top := random_top tb (dis m)) in *.
  assert (Hcan : canonical (BigNum_of_digits (lo ++ [top]) false)).
  { apply BigNum_of_digits_canonical.
    - intros Hnil. apply app_eq_nil in Hnil. destruct Hnil as [_ Hnil].
      discriminate Hnil.
    - apply Forall_app. split; [exact Hlo|]. constructor; [exact Tw | constructor]. }
  pose proof (eval_bound lo Hlo) as Blo.
  assert (Hmag : magnitude (BigNum_of_digits (lo ++ [top]) false)
                 = eval lo + 2 ^ (64 * Z.of_nat m) * top).
  { rewrite magnitude_BigNum_of_digits, eval_top, Hlen. reflexivity. }
  assert (Hwp : 0 < 2 ^ (64 * Z.of_nat m)) by (apply Z.pow_pos_nonneg; lia).
  rewrite Hlen in Blo. unfold wpow in Blo.
  split; [|split; [exact Hcan|]].
  - rewrite (bitLength_spec _ (proj1 Hcan)), Hmag.
    assert (0 < 2 ^ (64 * Z.of_nat m) * top) by (apply Z.mul_pos_pos; lia).
    destruct (Z.eqb_spec (eval lo + 2 ^ (64 * Z.of_nat m) * top) 0); [lia|].
    rewrite log2_top by lia. rewrite Tlog, Hm.
    destruct (Z.eqb_spec tb 0) as [E|E].
    + assert (Hq : (bits - 1) / 64 = bits / 64 - 1).
      { replace (bits - 1) with (63 + (bits / 64 - 1) * 64) by lia.
        rewrite Z.div_add by lia. reflexivity. }
      lia.
    + assert (Hq : (bits - 1) / 64 = bits / 64).
      { replace (bits - 1) with (tb - 1 + bits / 64 * 64) by lia.
        rewrite Z.div_add by lia. rewrite (Z.div_small (tb - 1)) by lia.
        reflexivity. }
      lia.
  - apply negative_BigNum_of_digits. rewrite eval_top, Hlen. unfold wpow. lia.
Qed.

End Random.

Lemma canonical_b_sound (a : BigNum) : canonical_b a = true -> canonical a.
Proof.
  unfold canonical_b, canonical, well_formed.
  destruct (digits a) as [|d ds] eqn:Hd; [discriminate|].
  rewrite <- Hd. intros H.
  apply andb_true_iff in H. destruct H as [H H3].
  apply andb_true_iff in H. destruct H as [H1 H2].
  repeat apply conj.
  - rewrite Hd. discriminate.
  - apply Forall_forall. intros x Hx.
    rewrite forallb_forall in H1. specialize (H1 x Hx).
    unfold is_word_b in H1. apply andb_true_iff in H1. unfold is_word. lia.
  - intros Hs. apply orb_true_iff in H2. destruct H2 as [H2|H2].
    + apply Nat.leb_le in H2. lia.
    + apply negb_true_iff, Z.eqb_neq in H2. exact H2.
  - intros Hm. apply orb_true_iff in H3. destruct H3 as [H3|H3].
    + apply negb_true_iff, Z.eqb_neq in H3. contradiction.
    + apply negb_true_iff in H3. exact H3.
Qed.

(** ** Representation *)

(** X1.  The constructor from a vector (and [removeLeadingZeros], which
    it runs) turns every non-empty vector of 64-bit words into a
    canonical number of the same magnitude, with the sign asked for. *)
Theorem constructor_normalises (ds : list Z) (neg : bool) :
  ds <> [] -> Forall is_word ds ->
  canonical (BigNum_of_digits ds neg)
  /\ value (BigNum_of_digits ds neg) = (if neg then - eval ds else eval ds).
Proof.
  intros Hne Hw. split.
  - apply BigNum_of_digits_canonical; assumption.
  - apply value_BigNum_of_digits.
Qed.

Lemma constructor_normalises_witness :
  canonical (BigNum_of_digits [5; 0; 0] true)
  /\ value (BigNum_of_digits [5; 0; 0] true) = - eval [5; 0; 0].
Proof.
  apply (constructor_normalises [5; 0; 0] true).
  - discriminate.
  - repeat constructor; unfold is_word; lia.
Defined.

(** X2.  On canonical numbers [compare] is the order of the integers they
    stand for, [==] is equality of the stored numbers, and the other five
    comparison operators are the integer comparisons. *)
Theorem comparison_operators (a b : BigNum) :
  canonical a -> canonical b ->
  compare a b = sign_of_comparison (value a) (value b)
  /\ (operator_eq a b = true <-> a = b)
  /\ (operator_ne a b = true <-> a <> b)
  /\ (operator_lt a b = true <-> value a < value b)
  /\ (operator_le a b = true <-> value a <= value b)
  /\ (operator_gt a b = true <-> value b < value a)
  /\ (operator_ge a b = true <-> value b <= value a).
Proof.
  intros Ca Cb.
  unfold operator_eq, operator_ne, operator_lt, operator_le, operator_gt,
    operator_ge.
  rewrite (compare_spec a b Ca Cb).
  assert (Heq : value a = value b <-> a = b).
  { split; [apply canonical_eq; assumption | intros ->; reflexivity]. }
  assert (Hc : (value a < value b
                /\ sign_of_comparison (value a) (value b) = -1)
               \/ (value a = value b
                   /\ sign_of_comparison (value a) (value b) = 0)
               \/ (value b < value a
                   /\ sign_of_comparison (value a) (value b) = 1)).
  { unfold sign_of_comparison.
    destruct (Z.ltb_spec (value a) (value b)); [left; split; [lia | reflexivity]|].
    destruct (Z.eqb_spec (value a) (value b));
      [right; left | right; right]; split; (lia || reflexivity). }
  destruct Hc as [[H ->]|[[H ->]|[H ->]]];
    (repeat apply conj; try reflexivity; cbn; intros X;
     try reflexivity; try discriminate X; try lia;
     try (apply Heq; lia); try (apply Heq in X; lia);
     try (intros E; apply Heq in E; lia);
     try (exfalso; apply X, Heq; lia)).
Qed.

Lemma comparison_operators_witness :
  compare (mkBigNum [0; 1] true) (word1 7)
  = sign_of_comparison (value (mkBigNum [0; 1] true)) (value (word1 7))
  /\ (operator_eq (mkBigNum [0; 1] true) (word1 7) = true
      <-> mkBigNum [0; 1] true = word1 7)
  /\ (operator_ne (mkBigNum [0; 1] true) (word1 7) = true
      <-> mkBigNum [0; 1] true <> word1 7)
  /\ (operator_lt (mkBigNum [0; 1] true) (word1 7) = true
      <-> value (mkBigNum [0; 1] true) < value (word1 7))
  /\ (operator_le (mkBigNum [0; 1] true) (word1 7) = true
      <-> value (mkBigNum [0; 1] true) <= value (word1 7))
  /\ (operator_gt (mkBigNum [0; 1] true) (word1 7) = true
      <-> value (word1 7) < value (mkBigNum [0; 1] true))
  /\ (operator_ge (mkBigNum [0; 1] true) (word1 7) = true
      <-> value (word1 7) <= value (mkBigNum [0; 1] true)).
Proof.
  apply (comparison_operators (mkBigNum [0; 1] true) (word1 7));
    apply canonical_b_sound; vm_compute; reflexivity.
Defined.

(** ** Addition and subtraction *)

Lemma not_negative_BigNum_of_digits (ds : list Z) :
  negative (BigNum_of_digits ds false) = false.
Proof.
  unfold BigNum_of_digits, removeLeadingZeros. cbn [digits negative].
  destruct (rev (pop_back_zeros (rev ds))) as [|d [|d' l]]; try reflexivity.
  destruct (d =? 0); reflexivity.
Qed.

(** X3.  [addUnsigned] returns the canonical number whose magnitude is the
    sum of the two magnitudes. *)
Theorem addUnsigned_exact (a b : BigNum) :
  well_formed a -> well_formed b ->
  magnitude (addUnsigned a b) = magnitude a + magnitude b
  /\ canonical (addUnsigned a b)
  /\ negative (addUnsigned a b) = false.
Proof.
  intros Ha Hb. split; [|split].
  - apply addUnsigned_magnitude; assumption.
  - apply addUnsigned_canonical; assumption.
  - apply not_negative_BigNum_of_digits.
Qed.

Lemma addUnsigned_exact_witness :
  magnitude (addUnsigned (mkBigNum [UINT64_MAX; UINT64_MAX] false) (word1 1))
  = magnitude (mkBigNum [UINT64_MAX; UINT64_MAX] false) + magnitude (word1 1)
  /\ canonical (addUnsigned (mkBigNum [UINT64_MAX; UINT64_MAX] false) (word1 1))
  /\ negative (addUnsigned (mkBigNum [UINT64_MAX; UINT64_MAX] false) (word1 1))
     = false.
Proof.
  apply (addUnsigned_exact (mkBigNum [UINT64_MAX; UINT64_MAX] false) (word1 1));
    apply canonical_b_sound; vm_compute; reflexivity.
Defined.

(** X4.  [subtractUnsigned] returns the canonical difference of the
    magnitudes when the first is not the smaller one and no word of the
    subtrahend above its lowest is 2^64 - 1 (where a borrow coming in is
    lost by the wrapped test [ai >= bi + borrow]). *)
Theorem subtractUnsigned_exact (a b : BigNum) :
  well_formed a -> well_formed b ->
  magnitude b <= magnitude a ->
  Forall below_max (tl (digits b)) ->
  magnitude (subtractUnsigned a b) = magnitude a - magnitude b
  /\ canonical (subtractUnsigned a b)
  /\ negative (subtractUnsigned a b) = false.
Proof.
  intros Ha Hb Hle Hmax.
  destruct (subtractUnsigned_spec a b Ha Hb Hle Hmax) as [E C].
  split; [exact E | split; [exact C|]].
  apply not_negative_BigNum_of_digits.
Qed.

Lemma subtractUnsigned_exact_witness :
  magnitude (subtractUnsigned (mkBigNum [0; 0; 1] false)
                              (mkBigNum [1; 5] false))
  = magnitude (mkBigNum [0; 0; 1] false) - magnitude (mkBigNum [1; 5] false)
  /\ canonical (subtractUnsigned (mkBigNum [0; 0; 1] false)
                                 (mkBigNum [1; 5] false))
  /\ negative (subtractUnsigned (mkBigNum [0; 0; 1] false)
                                (mkBigNum [1; 5] false)) = false.
Proof.
  apply (subtractUnsigned_exact (mkBigNum [0; 0; 1] false)
                                (mkBigNum [1; 5] false)).
  - apply canonical_b_sound; vm_compute; reflexivity.
  - apply canonical_b_sound; vm_compute; reflexivity.
  - vm_compute. discriminate.
  - repeat constructor. unfold below_max, UINT64_MAX. lia.
Defined.

(** X5.  Unary minus negates the value and is its own inverse, on every
    stored number. *)
Theorem operator_neg_negates (a : BigNum) :
  value (operator_neg a) = - value a
  /\ operator_neg (operator_neg a) = a.
Proof.
  split; [apply operator_neg_value | apply operator_neg_involutive].
Qed.

(** X6.  [operator+] returns a well-formed number whose value is the sum
    of the values, when the operands have one sign or neither has a word
    2^64 - 1 above its lowest word.  (The sign may be set on a zero
    result.) *)
Theorem operator_add_exact (a b : BigNum) :
  well_formed a -> well_formed b ->
  negative a = negative b
  \/ (Forall below_max (tl (digits a)) /\ Forall below_max (tl (digits b))) ->
  value (operator_add a b) = value a + value b
  /\ well_formed (operator_add a b).
Proof. apply operator_add_spec. Qed.

Lemma operator_add_exact_witness :
  value (operator_add (mkBigNum [0; 0; 1] false) (mkBigNum [1; 5] true))
  = value (mkBigNum [0; 0; 1] false) + value (mkBigNum [1; 5] true)
  /\ well_formed (operator_add (mkBigNum [0; 0; 1] false)
                               (mkBigNum [1; 5] true)).
Proof.
  apply (operator_add_exact (mkBigNum [0; 0; 1] false) (mkBigNum [1; 5] true)).
  - apply canonical_b_sound; vm_compute; reflexivity.
  - apply canonical_b_sound; vm_compute; reflexivity.
  - right. split; repeat constructor; unfold below_max, UINT64_MAX; lia.
Defined.

(** X7.  [operator-] returns a well-formed number whose value is the
    difference of the values, when neither operand has a word 2^64 - 1
    above its lowest word. *)
Theorem operator_sub_exact (a b : BigNum) :
  well_formed a -> well_formed b ->
  Forall below_max (tl (digits a)) -> Forall below_max (tl (digits b)) ->
  value (operator_sub a b) = value a - value b
  /\ well_formed (operator_sub a b).
Proof. apply operator_sub_spec. Qed.

Lemma operator_sub_exact_witness :
  value (operator_sub (mkBigNum [1; 5] false) (mkBigNum [0; 0; 1] false))
  = value (mkBigNum [1; 5] false) - value (mkBigNum [0; 0; 1] false)
  /\ well_formed (operator_sub (mkBigNum [1; 5] false)
                               (mkBigNum [0; 0; 1] false)).
Proof.
  apply (operator_sub_exact (mkBigNum [1; 5] false) (mkBigNum [0; 0; 1] false)).
  - apply canonical_b_sound; vm_compute; reflexivity.
  - apply canonical_b_sound; vm_compute; reflexivity.
  - repeat constructor; unfold below_max, UINT64_MAX; lia.
  - repeat constructor; unfold below_max, UINT64_MAX; lia.
Defined.

(** ** Shifts *)

(** X8.  A left shift by [shift >= 0] bits multiplies the value by
    [2^shift]. *)
Theorem operator_shl_multiplies (a : BigNum) (shift : Z) :
  Forall is_word (digits a) -> 0 <= shift ->
  value (operator_shl a shift) = value a * 2 ^ shift.
Proof. apply operator_shl_value. Qed.

Lemma operator_shl_multiplies_witness :
  value (operator_shl (mkBigNum [UINT64_MAX; 3] true) 70)
  = value (mkBigNum [UINT64_MAX; 3] true) * 2 ^ 70.
Proof.
  apply (operator_shl_multiplies (mkBigNum [UINT64_MAX; 3] true) 70).
  - repeat constructor; unfold is_word, UINT64_MAX; lia.
  - lia.
Defined.

(** X9.  A right shift by [shift >= 0] bits of a canonical number divides
    the value by [2^shift] rounding towards zero: the magnitude is
    shifted and the sign kept, so -1 >> 1 is 0 and not -1. *)
Theorem operator_shr_truncates (a : BigNum) (shift : Z) :
  canonical a -> 0 <= shift ->
  value (operator_shr a shift) = Z.quot (value a) (2 ^ shift).
Proof. apply operator_shr_value. Qed.

Lemma operator_shr_truncates_witness :
  value (operator_shr (mkBigNum [5; 3] true) 65)
  = Z.quot (value (mkBigNum [5; 3] true)) (2 ^ 65).
Proof.
  apply (operator_shr_truncates (mkBigNum [5; 3] true) 65).
  - apply canonical_b_sound; vm_compute; reflexivity.
  - lia.
Defined.

(** X10.  Shifting a canonical number left and then right by the same
    number of bits gives the number back. *)
Theorem shift_left_then_right (a : BigNum) (shift : Z) :
  canonical a -> 0 <= shift ->
  operator_shr (operator_shl a shift) shift = a.
Proof. apply shift_round_trip. Qed.

Lemma shift_left_then_right_witness :
  operator_shr (operator_shl (mkBigNum [UINT64_MAX; 3] true) 130) 130
  = mkBigNum [UINT64_MAX; 3] true.
Proof.
  apply (shift_left_then_right (mkBigNum [UINT64_MAX; 3] true) 130).
  - apply canonical_b_sound; vm_compute; reflexivity.
  - lia.
Defined.

(** X11.  Unary minus and both shifts return canonical numbers on
    canonical ones. *)
Theorem canonical_preserved (a : BigNum) (shift : Z) :
  canonical a ->
  canonical (operator_neg a)
  /\ canonical (operator_shl a shift)
  /\ canonical (operator_shr a shift).
Proof.
  intros Ca. split; [|split].
  - apply operator_neg_canonical, Ca.
  - apply operator_shl_canonical, Ca.
  - apply operator_shr_canonical, Ca.
Qed.

Lemma canonical_preserved_witness :
  canonical (operator_neg (mkBigNum [1; 1] true))
  /\ canonical (operator_shl (mkBigNum [1; 1] true) 3)
  /\ canonical (operator_shr (mkBigNum [1; 1] true) 3).
Proof.
  apply (canonical_preserved (mkBigNum [1; 1] true) 3).
  apply canonical_b_sound; vm_compute; reflexivity.
Defined.

(** ** Multiplication *)

(** X12.  [multiplySchoolbook] returns the canonical product of the
    magnitudes, for operands of any length. *)
Theorem multiplySchoolbook_exact (a b : BigNum) :
  well_formed a -> well_formed b ->
  magnitude (multiplySchoolbook a b) = magnitude a * magnitude b
  /\ canonical (multiplySchoolbook a b).
Proof. apply multiplySchoolbook_spec. Qed.

Lemma multiplySchoolbook_exact_witness :
  magnitude (multiplySchoolbook (mkBigNum [UINT64_MAX; UINT64_MAX] false)
                                (mkBigNum [UINT64_MAX; 7] true))
  = magnitude (mkBigNum [UINT64_MAX; UINT64_MAX] false)
    * magnitude (mkBigNum [UINT64_MAX; 7] true)
  /\ canonical (multiplySchoolbook (mkBigNum [UINT64_MAX; UINT64_MAX] false)
                                  (mkBigNum [UINT64_MAX; 7] true)).
Proof.
  apply (multiplySchoolbook_exact (mkBigNum [UINT64_MAX; UINT64_MAX] false)
                                  (mkBigNum [UINT64_MAX; 7] true));
    apply canonical_b_sound; vm_compute; reflexivity.
Defined.

(** X13.  [operator*] on operands of fewer than eight words each (the
    schoolbook path) returns, whatever the fuel, the canonical number
    whose value is the product of the values. *)
Theorem operator_mul_exact_below_threshold (fuel : nat) (a b : BigNum) :
  well_formed a -> well_formed b ->
  (size a < KARATSUBA_THRESHOLD)%nat -> (size b < KARATSUBA_THRESHOLD)%nat ->
  exists r, operator_mul fuel a b = Ok r
            /\ value r = value a * value b /\ canonical r.
Proof. apply operator_mul_small. Qed.

Lemma operator_mul_exact_below_threshold_witness :
  exists r,
    operator_mul 0 (mkBigNum [UINT64_MAX; UINT64_MAX] false)
                   (mkBigNum [UINT64_MAX; 7] true) = Ok r
    /\ value r = value (mkBigNum [UINT64_MAX; UINT64_MAX] false)
                 * value (mkBigNum [UINT64_MAX; 7] true)
    /\ canonical r.
Proof.
  apply (operator_mul_exact_below_threshold 0
           (mkBigNum [UINT64_MAX; UINT64_MAX] false)
           (mkBigNum [UINT64_MAX; 7] true)).
  - apply canonical_b_sound; vm_compute; reflexivity.
  - apply canonical_b_sound; vm_compute; reflexivity.
  - vm_compute. lia.
  - vm_compute. lia.
Defined.

(** ** Bits *)

(** X14.  [&], [|] and [^] work on the magnitudes and drop the signs:
    the result is the canonical, non-negative number whose value is the
    bitwise operation of the two magnitudes. *)
Theorem bitwise_operators (a b : BigNum) :
  well_formed a -> well_formed b ->
  (value (operator_and a b) = Z.land (magnitude a) (magnitude b)
   /\ canonical (operator_and a b))
  /\ (value (operator_or a b) = Z.lor (magnitude a) (magnitude b)
      /\ canonical (operator_or a b))
  /\ (value (operator_xor a b) = Z.lxor (magnitude a) (magnitude b)
      /\ canonical (operator_xor a b)).
Proof.
  intros Ha Hb. split; [|split].
  - apply (bitwise_operator Z.land andb Z.land_spec eq_refl); try assumption.
    intros u v Hu Hv. apply Z.land_nonneg. left. exact Hu.
  - apply (bitwise_operator Z.lor orb Z.lor_spec eq_refl); try assumption.
    intros u v Hu Hv. apply Z.lor_nonneg. split; assumption.
  - apply (bitwise_operator Z.lxor xorb Z.lxor_spec eq_refl); try assumption.
    intros u v Hu Hv. apply Z.lxor_nonneg. split; intros _; assumption.
Qed.

Lemma bitwise_operators_witness :
  (value (operator_and (mkBigNum [12; 1] true) (word1 10))
   = Z.land (magnitude (mkBigNum [12; 1] true)) (magnitude (word1 10))
   /\ canonical (operator_and (mkBigNum [12; 1] true) (word1 10)))
  /\ (value (operator_or (mkBigNum [12; 1] true) (word1 10))
      = Z.lor (magnitude (mkBigNum [12; 1] true)) (magnitude (word1 10))
      /\ canonical (operator_or (mkBigNum [12; 1] true) (word1 10)))
  /\ (value (operator_xor (mkBigNum [12; 1] true) (word1 10))
      = Z.lxor (magnitude (mkBigNum [12; 1] true)) (magnitude (word1 10))
      /\ canonical (operator_xor (mkBigNum [12; 1] true) (word1 10))).
Proof.
  apply (bitwise_operators (mkBigNum [12; 1] true) (word1 10));
    apply canonical_b_sound; vm_compute; reflexivity.
Defined.

(** X15.  [bitLength] of a well-formed number is 0 for zero and otherwise
    the position of the highest set bit of the magnitude plus one:
    [2^(bitLength - 1) <= magnitude < 2^bitLength]. *)
Theorem bitLength_bounds (a : BigNum) :
  well_formed a ->
  (magnitude a = 0 /\ bitLength a = 0)
  \/ (0 < bitLength a
      /\ 2 ^ (bitLength a - 1) <= magnitude a < 2 ^ bitLength a).
Proof.
  intros Ha. rewrite (bitLength_spec a Ha).
  pose proof (eval_bound _ (proj1 (proj2 Ha))) as B. fold (magnitude a) in B.
  destruct (Z.eqb_spec (magnitude a) 0) as [E|E]; [left; auto|right].
  pose proof (Z.log2_spec (magnitude a) ltac:(lia)) as L.
  pose proof (Z.log2_nonneg (magnitude a)).
  replace (Z.log2 (magnitude a) + 1 - 1) with (Z.log2 (magnitude a)) by lia.
  replace (Z.log2 (magnitude a) + 1) with (Z.succ (Z.log2 (magnitude a))) by lia.
  split; [lia | exact L].
Qed.

Lemma bitLength_bounds_witness :
  (magnitude (mkBigNum [0; 5] false) = 0
   /\ bitLength (mkBigNum [0; 5] false) = 0)
  \/ (0 < bitLength (mkBigNum [0; 5] false)
      /\ 2 ^ (bitLength (mkBigNum [0; 5] false) - 1)
         <= magnitude (mkBigNum [0; 5] false)
         < 2 ^ bitLength (mkBigNum [0; 5] false)).
Proof.
  apply (bitLength_bounds (mkBigNum [0; 5] false)).
  apply canonical_b_sound; vm_compute; reflexivity.
Defined.

(** X16.  [isOdd] and [isEven] are the parity of the value, on every
    stored number. *)
Theorem isOdd_isEven_parity (a : BigNum) :
  isOdd a = Z.odd (value a) /\ isEven a = Z.even (value a).
Proof. split; [apply isOdd_spec | apply isEven_spec]. Qed.

(** ** 64-bit integers *)

(** X17.  The constructor from [int64_t] stores every 64-bit integer,
    the least one included, as a canonical number of that value, and
    [toInt64] gives the integer back. *)
Theorem int64_constructor_round_trip (v : Z) :
  INT64_MIN <= v <= INT64_MAX ->
  value (BigNum_of_int64 v) = v
  /\ canonical (BigNum_of_int64 v)
  /\ toInt64 (BigNum_of_int64 v) = Ok v.
Proof. apply int64_round_trip. Qed.

Lemma int64_constructor_round_trip_witness :
  value (BigNum_of_int64 INT64_MIN) = INT64_MIN
  /\ canonical (BigNum_of_int64 INT64_MIN)
  /\ toInt64 (BigNum_of_int64 INT64_MIN) = Ok INT64_MIN.
Proof.
  apply (int64_constructor_round_trip INT64_MIN).
  unfold INT64_MIN, INT64_MAX. lia.
Defined.

(** ** Division *)

Lemma nonnegative_one_word (a : BigNum) :
  canonical a -> size a = 1%nat -> 0 <= value a ->
  a = word1 (value a) /\ 0 <= value a < 2 ^ 64.
Proof.
  intros Ca Sa Hv. destruct (canonical_one_word a Ca Sa) as (x & Ea & Hx & Hx0).
  destruct a as [da na]. cbn [negative] in *. injection Ea as ->.
  unfold is_word in Hx. rewrite value_1 in *. destruct na.
  - assert (x = 0) by lia. discriminate (Hx0 H).
  - split; [reflexivity | lia].
Qed.

Lemma canonical_word1 (x : Z) : is_word x -> canonical (word1 x).
Proof.
  intros Hx. apply canonical_b_sound. unfold is_word in Hx.
  unfold canonical_b, word1, size, magnitude, is_word_b.
  cbn [digits negative length forallb last eval negb].
  destruct (Z.leb_spec 0 x); [|lia]. destruct (Z.ltb_spec x (2 ^ 64)); [|lia].
  rewrite orb_true_r. reflexivity.
Qed.

(** X18.  On canonical one-word operands, a dividend that is not negative
    and a positive divisor, [/] and [%] return the canonical quotient and
    remainder of the integer division (given fuel for 64 doublings). *)
Theorem division_one_word (fuel : nat) (a b : BigNum) :
  (64 <= fuel)%nat ->
  canonical a -> size a = 1%nat -> 0 <= value a ->
  canonical b -> size b = 1%nat -> 0 < value b ->
  exists q r,
    operator_div fuel a b = Ok q /\ operator_mod fuel a b = Ok r
    /\ value q = value a / value b /\ value r = value a mod value b
    /\ canonical q /\ canonical r.
Proof.
  intros Hfuel Ca Sa Ha Cb Sb Hb.
  destruct (nonnegative_one_word a Ca Sa Ha) as [Ea Ba].
  destruct (nonnegative_one_word b Cb Sb ltac:(lia)) as [Eb Bb].
  remember (value a) as x eqn:Hx. remember (value b) as y eqn:Hy.
  clear Hx Hy Ca Cb Sa Sb. subst a b.
  exists (word1 (x / y)), (word1 (x mod y)).
  rewrite operator_div_words, operator_mod_words by (assumption || lia).
  rewrite !value_word1.
  pose proof (Z.mod_pos_bound x y Hb).
  assert (0 <= x / y) by (apply Z.div_pos; lia).
  assert (x / y <= x) by (apply Z.div_le_upper_bound; nia).
  repeat split; try reflexivity;
    apply canonical_word1; unfold is_word; lia.
Qed.

Lemma division_one_word_witness :
  exists q r,
    operator_div 64 (word1 (2 ^ 64 - 1)) (word1 10) = Ok q
    /\ operator_mod 64 (word1 (2 ^ 64 - 1)) (word1 10) = Ok r
    /\ value q = value (word1 (2 ^ 64 - 1)) / value (word1 10)
    /\ value r = value (word1 (2 ^ 64 - 1)) mod value (word1 10)
    /\ canonical q /\ canonical r.
Proof.
  apply (division_one_word 64 (word1 (2 ^ 64 - 1)) (word1 10)).
  - lia.
  - apply canonical_b_sound; vm_compute; reflexivity.
  - reflexivity.
  - vm_compute. discriminate.
  - apply canonical_b_sound; vm_compute; reflexivity.
  - reflexivity.
  - vm_compute. reflexivity.
Defined.

(** X19.  [/] and [%] of a number that is not negative by a negative
    number other than zero never return: the loop that doubles the copy
    of the divisor is still running after any number of rounds. *)
Theorem division_by_negative_diverges (fuel : nat) (a b : BigNum) :
  negative a = false -> negative b = true ->
  Forall is_word (digits b) -> Exists nonzero_word (digits b) ->
  operator_div fuel a b = OutOfFuel /\ operator_mod fuel a b = OutOfFuel.
Proof.
  intros Ha Hb Hw Hnz. unfold operator_div, operator_mod.
  rewrite (division_by_negative_never_ends fuel a b Ha Hb Hw Hnz).
  split; reflexivity.
Qed.

Lemma division_by_negative_diverges_witness :
  operator_div 1000 (word1 7) (mkBigNum [2] true) = OutOfFuel
  /\ operator_mod 1000 (word1 7) (mkBigNum [2] true) = OutOfFuel.
Proof.
  apply (division_by_negative_diverges 1000 (word1 7) (mkBigNum [2] true)).
  - reflexivity.
  - reflexivity.
  - repeat constructor; unfold is_word; lia.
  - apply Exists_cons_hd. unfold nonzero_word. lia.
Defined.

(** ** Greatest common divisor *)

(** X20.  [gcd] of two canonical one-word numbers of any signs is the
    greatest common divisor of their values (given fuel for 130 rounds). *)
Theorem gcd_one_word (fuel : nat) (a b : BigNum) :
  (130 <= fuel)%nat ->
  canonical a -> size a = 1%nat -> canonical b -> size b = 1%nat ->
  exists g, gcd fuel a b = Ok g
            /\ value g = Z.gcd (value a) (value b) /\ canonical g.
Proof.
  intros Hfuel Ca Sa Cb Sb.
  exists (word1 (Z.gcd (value a) (value b))).
  split; [apply gcd_words; assumption|]. rewrite value_word1.
  split; [reflexivity|]. apply canonical_word1.
  destruct (abs_one_word a Ca Sa) as [_ Ha].
  destruct (abs_one_word b Cb Sb) as [_ Hb]. unfold is_word in *.
  pose proof (Z.gcd_nonneg (value a) (value b)).
  split; [lia|].
  destruct (Z.eq_dec (value a) 0) as [E|E].
  - rewrite E, Z.gcd_0_l. lia.
  - assert (Z.gcd (value a) (value b) <= Z.abs (value a)).
    { rewrite <- Z.gcd_abs_l. apply Z.divide_pos_le; [lia|].
      apply Z.gcd_divide_l. }
    lia.
Qed.

Lemma gcd_one_word_witness :
  exists g, gcd 130 (mkBigNum [84] true) (word1 36) = Ok g
            /\ value g = Z.gcd (value (mkBigNum [84] true)) (value (word1 36))
            /\ canonical g.
Proof.
  apply (gcd_one_word 130 (mkBigNum [84] true) (word1 36)).
  - lia.
  - apply canonical_b_sound; vm_compute; reflexivity.
  - reflexivity.
  - apply canonical_b_sound; vm_compute; reflexivity.
  - reflexivity.
Defined.

(** X21.  [extendedGcd] of canonical one-word numbers [a] and [n > 0]
    returns the greatest common divisor [g] with coefficients [s], [t]
    such that [a * s + n * t = g] (given fuel for 130 rounds). *)
Theorem extendedGcd_bezout_one_word (fuel : nat) (a n : BigNum) :
  (130 <= fuel)%nat ->
  canonical a -> size a = 1%nat ->
  canonical n -> size n = 1%nat -> 0 < value n ->
  exists g s t,
    extendedGcd fuel a n = Ok (g, (s, t))
    /\ value g = Z.gcd (value a) (value n)
    /\ value a * value s + value n * value t = value g.
Proof.
  intros Hfuel Ca Sa Cn Sn Hpos.
  destruct (extendedGcd_one_word fuel a n Hfuel Ca Sa Cn Sn Hpos)
    as (_ & _ & gs & gt & E & _ & _ & Hbez).
  exists (word1 (Z.gcd (value a) (value n))), gs, gt.
  rewrite value_word1. repeat split; assumption.
Qed.

Lemma extendedGcd_bezout_one_word_witness :
  exists g s t,
    extendedGcd 130 (mkBigNum [240] true) (word1 46) = Ok (g, (s, t))
    /\ value g = Z.gcd (value (mkBigNum [240] true)) (value (word1 46))
    /\ value (mkBigNum [240] true) * value s + value (word1 46) * value t
       = value g.
Proof.
  apply (extendedGcd_bezout_one_word 130 (mkBigNum [240] true) (word1 46)).
  - lia.
  - apply canonical_b_sound; vm_compute; reflexivity.
  - reflexivity.
  - apply canonical_b_sound; vm_compute; reflexivity.
  - reflexivity.
  - vm_compute. reflexivity.
Defined.

(** ** Modular exponentiation *)

(** X22.  For a one-word modulus [2 <= N <= 2^32], a canonical one-word
    base that is not negative and any well-formed exponent below
    [2^fuel], [modPow] returns [base ^ |exp| mod N]: the sign of the
    exponent is ignored. *)
Theorem modPow_small_modulus (fuel : nat) (N : Z) (a e : BigNum) :
  (64 <= fuel)%nat -> 2 <= N <= 2 ^ 32 ->
  canonical a -> size a = 1%nat -> 0 <= value a ->
  well_formed e -> magnitude e < 2 ^ Z.of_nat fuel ->
  modPow fuel a e (word1 N) = Ok (word1 ((value a ^ magnitude e) mod N)).
Proof. intros Hfuel HN. apply modPow_small; assumption. Qed.

Lemma modPow_small_modulus_witness :
  modPow 64 (word1 7) (mkBigNum [1000] true) (word1 4294967291)
  = Ok (word1 ((value (word1 7) ^ magnitude (mkBigNum [1000] true))
               mod 4294967291)).
Proof.
  apply (modPow_small_modulus 64 4294967291 (word1 7) (mkBigNum [1000] true)).
  - lia.
  - lia.
  - apply canonical_b_sound; vm_compute; reflexivity.
  - reflexivity.
  - vm_compute. discriminate.
  - apply canonical_b_sound; vm_compute; reflexivity.
  - vm_compute. reflexivity.
Defined.

(** ** Hex strings *)

(** X23.  [fromHexString] reads back what [toHexString] writes: every
    canonical number survives the round trip. *)
Theorem hex_round_trip (a : BigNum) :
  canonical a -> fromHexString (toHexString a) = Ok a.
Proof. apply fromHexString_toHexString. Qed.

Lemma hex_round_trip_witness :
  fromHexString (toHexString (mkBigNum [10; 0; 255] true))
  = Ok (mkBigNum [10; 0; 255] true).
Proof.
  apply (hex_round_trip (mkBigNum [10; 0; 255] true)).
  apply canonical_b_sound; vm_compute; reflexivity.
Defined.

(** ** Random numbers *)

(** X24.  Whatever words the generator draws, [random(bits)] with
    [bits > 0] is a canonical number that is not negative and has exactly
    [bits] bits. *)
Theorem random_has_exact_bit_length (dis : nat -> Z) (bits : Z) :
  (forall i, is_word (dis i)) -> 0 < bits -> bits + 63 < 2 ^ 64 ->
  bitLength (random dis bits) = bits
  /\ canonical (random dis bits)
  /\ negative (random dis bits) = false.
Proof. apply random_spec. Qed.

Lemma random_has_exact_bit_length_witness :
  bitLength (random (fun _ => 0) 100) = 100
  /\ canonical (random (fun _ => 0) 100)
  /\ negative (random (fun _ => 0) 100) = false.
Proof.
  apply (random_has_exact_bit_length (fun _ => 0) 100).
  - intros _. unfold is_word. lia.
  - lia.
  - lia.
Defined.

Section Bytes.

Lemma le_value_app (l1 l2 : list Z) :
  le_value (l1 ++ l2)
  = le_value l1 + 256 ^ Z.of_nat (length l1) * le_value l2.
Proof.
  induction l1 as [|b l1 IH]; cbn [app le_value length].
  - change (256 ^ Z.of_nat 0) with 1. lia.
  - rewrite IH, Nat2Z.inj_succ, Z.pow_succ_r by lia. ring.
Qed.

Lemma be_value_cons (b : Z) (rest : list Z) :
  be_value (b :: rest) = b * 256 ^ Z.of_nat (length rest) + be_value rest.
Proof.
  unfold be_value. cbn [rev]. rewrite le_value_app, length_rev.
  cbn [le_value]. ring.
Qed.

Lemma pow256 (p : Z) : 0 <= p -> 256 ^ p = 2 ^ (8 * p).
Proof.
  intros Hp. change 256 with (2 ^ 8). rewrite <- Z.pow_mul_r by lia.
  reflexivity.
Qed.

Lemma get_set_nth_same (i : nat) (v : list Z) (x : Z) :
  (i < length v)%nat -> get (set_nth i v x) i = x.
Proof.
  unfold get. revert i.
  induction v as [|d v IH]; intros [|i] H; cbn [length] in H; try lia.
  - reflexivity.
  - cbn [set_nth nth]. apply IH. lia.
Qed.

(** *** fromByteArray *)

Lemma lor_byte (old byte k : Z) :
  0 <= k -> 0 <= old -> 0 <= byte < 256 ->
  (2 ^ (8 * (k + 1)) | old) ->
  Z.lor old (Z.shiftl byte (k * 8)) = old + byte * 2 ^ (8 * k).
Proof.
  intros Hk Hold Hb [q Hq].
  assert (Hp : 0 < 2 ^ (8 * k)) by (apply Z.pow_pos_nonneg; lia).
  assert (Hsplit : 2 ^ (8 * (k + 1)) = 2 ^ 8 * 2 ^ (8 * k)).
  { rewrite <- Z.pow_add_r by lia. f_equal. lia. }
  assert (Hq0 : 0 <= q).
  { assert (0 < 2 ^ (8 * (k + 1))) by (apply Z.pow_pos_nonneg; lia). nia. }
  replace old with (Z.shiftl (Z.shiftl q 8) (k * 8)).
  2:{ rewrite !Z.shiftl_mul_pow2 by lia. rewrite Hq, Hsplit.
      replace (k * 8) with (8 * k) by lia. ring. }
  rewrite <- Z.shiftl_lor, lor_disjoint by (try change (2 ^ 8) with 256; lia).
  rewrite !Z.shiftl_mul_pow2 by lia.
  replace (k * 8) with (8 * k) by lia. ring.
Qed.

Lemma fromByteArray_loop_spec (total : nat) (rest : list Z) :
  forall i ds,
    Forall is_byte rest -> (i + length rest = total)%nat ->
    Forall is_word ds -> (length rest <= 8 * length ds)%nat ->
    (forall j m, (8 * j + m <= length rest)%nat -> (m <= 8)%nat ->
                 (2 ^ (8 * Z.of_nat m) | get ds j)) ->
    eval (fromByteArray_loop rest i total ds) = eval ds + be_value rest
    /\ Forall is_word (fromByteArray_loop rest i total ds)
    /\ length (fromByteArray_loop rest i total ds) = length ds.
Proof.
  induction rest as [|byte rest IH]; intros i ds Hb Hi Hw Hlen Hdiv.
  - cbn [fromByteArray_loop]. unfold be_value. cbn [rev le_value].
    repeat apply conj; [lia | exact Hw | reflexivity].
  - inversion Hb as [|? ? Hbyte Hb']; subst. unfold is_byte in Hbyte.
    cbn [fromByteArray_loop length] in *.
    replace (i + S (length rest) - 1 - i)%nat with (length rest) by lia.
    set (p := length rest) in *.
    set (j := (p / 8)%nat). set (k := (p mod 8)%nat).
    assert (Hp : p = (8 * j + k)%nat) by (unfold j, k; apply Nat.div_mod_eq).
    assert (Hk : (k < 8)%nat) by (unfold k; apply Nat.mod_upper_bound; lia).
    assert (Hj : (j < length ds)%nat) by lia.
    pose proof (get_word ds j Hw) as Hold. unfold is_word in Hold.
    assert (Hpk : 0 < 2 ^ (8 * Z.of_nat k)) by (apply Z.pow_pos_nonneg; lia).
    assert (Hshift : u64 (Z.shiftl byte (Z.of_nat k * 8))
                     = Z.shiftl byte (Z.of_nat k * 8)).
    { apply u64_small. rewrite Z.shiftl_mul_pow2 by lia.
      assert (2 ^ (Z.of_nat k * 8) <= 2 ^ 56) by (apply Z.pow_le_mono_r; lia).
      assert (0 < 2 ^ (Z.of_nat k * 8)) by (apply Z.pow_pos_nonneg; lia).
      change (2 ^ 64) with (256 * 2 ^ 56). nia. }
    rewrite Hshift.
    assert (Hd1 : (2 ^ (8 * (Z.of_nat k + 1)) | get ds j)).
    { replace (8 * (Z.of_nat k + 1)) with (8 * Z.of_nat (S k)) by lia.
      apply Hdiv; lia. }
    rewrite (lor_byte (get ds j) byte (Z.of_nat k)) by (assumption || lia).
    set (w := get ds j + byte * 2 ^ (8 * Z.of_nat k)).
    assert (Hww : is_word w).
    { unfold is_word, w. destruct Hd1 as [q Hq].
      assert (Hs : 2 ^ (8 * (Z.of_nat k + 1)) = 256 * 2 ^ (8 * Z.of_nat k)).
      { replace (8 * (Z.of_nat k + 1)) with (8 + 8 * Z.of_nat k) by lia.
        rewrite Z.pow_add_r by lia. reflexivity. }
      assert (Hs64 : 2 ^ 64 = 2 ^ (8 * (7 - Z.of_nat k))
                              * (256 * 2 ^ (8 * Z.of_nat k))).
      { rewrite <- Hs, <- Z.pow_add_r by lia. f_equal. lia. }
      rewrite Hs in Hq. rewrite Hq in *. rewrite Hs64 in *.
      set (P := 2 ^ (8 * Z.of_nat k)) in *.
      set (Q := 2 ^ (8 * (7 - Z.of_nat k))) in *.
      assert (0 <= q) by nia.
      assert (q < Q) by nia.
      split; [nia|].
      assert (q * (256 * P) + byte * P < (q + 1) * (256 * P)) by nia.
      assert ((q + 1) * (256 * P) <= Q * (256 * P)) by nia.
      lia. }
    destruct (IH (S i) (set_nth j ds w)) as (E & W & L).
    + exact Hb'.
    + lia.
    + apply Forall_set_nth; assumption.
    + rewrite length_set_nth. lia.
    + intros j' m Hjm Hm. fold p in Hjm.
      destruct (Nat.eq_dec j' j) as [->|Hne].
      * rewrite get_set_nth_same by exact Hj. unfold w. apply Z.divide_add_r.
        -- apply Hdiv; lia.
        -- apply Z.divide_mul_r.
           replace (8 * Z.of_nat k) with (8 * Z.of_nat m + 8 * Z.of_nat (k - m))
             by lia.
           rewrite Z.pow_add_r by lia. apply Z.divide_factor_l.
      * rewrite get_set_nth_other by exact Hne. apply Hdiv; lia.
    + rewrite length_set_nth in L. repeat apply conj; [|exact W | exact L].
      rewrite E, eval_set_nth, be_value_cons by exact Hj. fold p.
      unfold w, wpow. rewrite pow256 by lia.
      replace (8 * Z.of_nat p) with (64 * Z.of_nat j + 8 * Z.of_nat k) by lia.
      rewrite Z.pow_add_r by lia. ring.
Qed.

Lemma fromByteArray_spec (bytes : list Z) :
  Forall is_byte bytes ->
  value (fromByteArray bytes) = be_value bytes
  /\ canonical (fromByteArray bytes).
Proof.
  intros Hb. unfold fromByteArray. destruct bytes as [|b0 bytes0].
  - split; [reflexivity|]. apply canonical_b_sound. reflexivity.
  - set (bytes := b0 :: bytes0) in *.
    set (n := ((length bytes + 7) / 8)%nat).
    assert (Hn : (length bytes <= 8 * n)%nat).
    { unfold n. pose proof (Nat.div_mod_eq (length bytes + 7) 8).
      pose proof (Nat.mod_upper_bound (length bytes + 7) 8 ltac:(lia)). lia. }
    destruct (fromByteArray_loop_spec (length bytes) bytes 0 (zeros n))
      as (E & W & L).
    + exact Hb.
    + reflexivity.
    + apply Forall_zeros.
    + unfold zeros. rewrite repeat_length. exact Hn.
    + intros j m _ _. rewrite get_zeros. apply Z.divide_0_r.
    + unfold zeros in E at 2. rewrite eval_repeat_0 in E.
      split.
      * rewrite value_BigNum_of_digits, E. lia.
      * apply BigNum_of_digits_canonical; [|exact W].
        intros Hnil. rewrite Hnil in L. unfold zeros in L.
        rewrite repeat_length in L. cbn [length] in L.
        unfold bytes in Hn. cbn [length] in Hn. lia.
Qed.

(** *** toByteArray *)

Lemma byte_of_digits (ds : list Z) (i : nat) :
  Forall is_word ds ->
  (if (i / 8 <? length ds)%nat
   then u8 (Z.land (Z.shiftr (get ds (i / 8)) (Z.of_nat (i mod 8) * 8)) 255)
   else 0)
  = (eval ds / 256 ^ Z.of_nat i) mod 256.
Proof.
  intros Hw.
  set (j := (i / 8)%nat). set (k := (i mod 8)%nat).
  assert (Hi : i = (8 * j + k)%nat) by (unfold j, k; apply Nat.div_mod_eq).
  assert (Hk : (k < 8)%nat) by (unfold k; apply Nat.mod_upper_bound; lia).
  assert (Hpk : 0 < 2 ^ (8 * Z.of_nat k)) by (apply Z.pow_pos_nonneg; lia).
  pose proof (wpow_pos j) as Hwj.
  assert (Hsplit : 256 ^ Z.of_nat i = wpow j * 2 ^ (8 * Z.of_nat k)).
  { rewrite pow256 by lia. unfold wpow. rewrite <- Z.pow_add_r by lia.
    f_equal. lia. }
  rewrite Hsplit, <- Z.div_div by lia. rewrite <- (eval_skipn j ds Hw).
  destruct (Nat.ltb_spec j (length ds)) as [Hlt|Hge].
  - rewrite (eval_skipn_get j ds Hlt).
    pose proof (eval_nonneg _ (proj2 (Forall_firstn_skipn (S j) ds Hw))) as He.
    set (E := eval (skipn (S j) ds)) in *.
    pose proof (get_word ds j Hw) as Hd. unfold is_word in Hd.
    set (d := get ds j) in *.
    rewrite Z.shiftr_div_pow2 by lia.
    change 255 with (Z.ones 8). rewrite Z.land_ones by lia.
    unfold u8. rewrite Z.mod_mod by lia. change (2 ^ 8) with 256.
    replace (Z.of_nat k * 8) with (8 * Z.of_nat k) by lia.
    assert (H64 : 2 ^ 64 = 256 * 2 ^ (8 * (7 - Z.of_nat k))
                           * 2 ^ (8 * Z.of_nat k)).
    { change 256 with (2 ^ 8). rewrite <- !Z.pow_add_r by lia. f_equal. lia. }
    rewrite H64.
    replace (d + 256 * 2 ^ (8 * (7 - Z.of_nat k)) * 2 ^ (8 * Z.of_nat k) * E)
      with (d + (2 ^ (8 * (7 - Z.of_nat k)) * E * 256) * 2 ^ (8 * Z.of_nat k))
      by ring.
    rewrite Z.div_add by lia. rewrite Z.mod_add by lia. reflexivity.
  - rewrite skipn_all2 by exact Hge. cbn [eval].
    rewrite Z.div_0_l by lia. reflexivity.
Qed.

Lemma le_value_digits (M : Z) (n : nat) :
  forall s, 0 <= M ->
    le_value (map (fun i => (M / 256 ^ Z.of_nat i) mod 256) (seq s n))
    = (M / 256 ^ Z.of_nat s) mod 256 ^ Z.of_nat n.
Proof.
  induction n as [|n IH]; intros s HM.
  - cbn [seq map le_value]. change (256 ^ Z.of_nat 0) with 1.
    rewrite Z.mod_1_r. reflexivity.
  - cbn [seq map le_value]. rewrite (IH (S s) HM).
    rewrite (Nat2Z.inj_succ n), (Z.pow_succ_r 256 (Z.of_nat n)) by lia.
    assert (Hp : 0 < 256 ^ Z.of_nat n) by (apply Z.pow_pos_nonneg; lia).
    assert (Hs : 0 < 256 ^ Z.of_nat s) by (apply Z.pow_pos_nonneg; lia).
    rewrite (Z.rem_mul_r _ 256 (256 ^ Z.of_nat n)) by lia.
    rewrite Nat2Z.inj_succ, Z.pow_succ_r by lia.
    rewrite (Z.mul_comm 256 (256 ^ Z.of_nat s)), <- Z.div_div by lia.
    reflexivity.
Qed.

Lemma toByteArray_spec (a : BigNum) :
  well_formed a ->
  be_value (toByteArray a) = magnitude a
  /\ Forall is_byte (toByteArray a)
  /\ Z.of_nat (length (toByteArray a)) = byteLength a.
Proof.
  intros Ha. pose proof Ha as (_ & Hw & _).
  pose proof (eval_bound _ Hw) as B. fold (magnitude a) in B.
  unfold toByteArray.
  assert (Hmap : forall n,
             map (fun i : nat =>
                    if (i / 8 <? size a)%nat
                    then u8 (Z.land (Z.shiftr (get (digits a) (i / 8))
                                              (Z.of_nat (i mod 8) * 8)) 255)
                    else 0) (seq 0 n)
             = map (fun i => (magnitude a / 256 ^ Z.of_nat i) mod 256)
                   (seq 0 n)).
  { intros n. apply map_ext. intros i. apply (byte_of_digits (digits a) i Hw). }
  rewrite Hmap.
  assert (Hbl : 0 <= byteLength a /\ magnitude a < 256 ^ byteLength a).
  { unfold byteLength. rewrite (bitLength_spec a Ha).
    destruct (Z.eqb_spec (magnitude a) 0) as [E|E].
    - rewrite E. cbn. lia.
    - pose proof (Z.log2_spec (magnitude a) ltac:(lia)) as L.
      pose proof (Z.log2_nonneg (magnitude a)) as Ln.
      set (l := Z.log2 (magnitude a)) in *.
      assert (Hq : 0 <= (l + 1 + 7) / 8) by (apply Z.div_pos; lia).
      split; [exact Hq|]. rewrite pow256 by exact Hq.
      assert (Z.succ l <= 8 * ((l + 1 + 7) / 8)).
      { pose proof (Z.div_mod (l + 1 + 7) 8 ltac:(lia)).
        pose proof (Z.mod_pos_bound (l + 1 + 7) 8 ltac:(lia)). lia. }
      assert (2 ^ Z.succ l <= 2 ^ (8 * ((l + 1 + 7) / 8)))
        by (apply Z.pow_le_mono_r; lia).
      lia. }
  destruct Hbl as [Hbl0 Hbl].
  repeat apply conj.
  - unfold be_value. rewrite rev_involutive, le_value_digits by lia.
    change (256 ^ Z.of_nat 0) with 1. rewrite Z.div_1_r, Z2Nat.id by lia.
    apply Z.mod_small. lia.
  - apply Forall_rev, Forall_forall. intros x Hx. apply in_map_iff in Hx.
    destruct Hx as (i & <- & _). unfold is_byte.
    apply Z.mod_pos_bound. lia.
  - rewrite length_rev, length_map, length_seq. lia.
Qed.

Lemma byte_round_trip_value (a : BigNum) :
  well_formed a ->
  value (fromByteArray (toByteArray a)) = magnitude a
  /\ canonical (fromByteArray (toByteArray a)).
Proof.
  intros Ha. destruct (toByteArray_spec a Ha) as (E & Hb & _).
  destruct (fromByteArray_spec (toByteArray a) Hb) as [V C].
  split; [rewrite V; exact E | exact C].
Qed.

Lemma byte_round_trip_same (a : BigNum) :
  canonical a -> negative a = false ->
  fromByteArray (toByteArray a) = a.
Proof.
  intros Ca Hn. destruct (byte_round_trip_value a (proj1 Ca)) as [V C].
  apply canonical_eq; [exact C | exact Ca|].
  rewrite V. unfold value. rewrite Hn. reflexivity.
Qed.

End Bytes.

Section HexInput.

Lemma char_between_bounds (lo c hi : ascii) :
  char_between lo c hi = true ->
  Z.of_nat (nat_of_ascii lo) <= Z.of_nat (nat_of_ascii c)
  <= Z.of_nat (nat_of_ascii hi).
Proof.
  unfold char_between. intros H. apply andb_true_iff in H.
  destruct H as [H1 H2]. apply Nat.leb_le in H1, H2. lia.
Qed.

Lemma hex_digit_value_range (c : ascii) :
  is_hex_digit c = true -> 0 <= hex_digit_value c < 16.
Proof.
  unfold is_hex_digit, hex_digit_value. intros H.
  destruct (char_between "0" c "9") eqn:E1.
  { apply char_between_bounds in E1. cbn in E1. lia. }
  destruct (char_between "a" c "f") eqn:E2.
  { apply char_between_bounds in E2. cbn in E2. lia. }
  destruct (char_between "A" c "F") eqn:E3; [|discriminate H].
  apply char_between_bounds in E3. cbn in E3. lia.
Qed.

Lemma hex_char_step_value (v : Z) (c : ascii) :
  is_hex_digit c = true -> 0 <= v < 2 ^ 60 ->
  hex_char_step v c = Ok (16 * v + hex_digit_value c).
Proof.
  intros Hc Hv. pose proof (hex_digit_value_range c Hc) as Hr.
  assert (Hs : u64 (Z.shiftl v 4) = Z.shiftl v 4).
  { rewrite Z.shiftl_mul_pow2 by lia. apply u64_small.
    change (2 ^ 4) with 16. lia. }
  assert (Hl : forall d, 0 <= d < 16 -> Z.lor (Z.shiftl v 4) d = 16 * v + d).
  { intros d Hd. rewrite lor_disjoint by (try change (2 ^ 4) with 16; lia).
    change (2 ^ 4) with 16. lia. }
  unfold hex_char_step, is_hex_digit, hex_digit_value in *. rewrite Hs.
  change (Z.of_nat (nat_of_ascii "0")) with 48.
  change (Z.of_nat (nat_of_ascii "a")) with 97.
  change (Z.of_nat (nat_of_ascii "A")) with 65.
  destruct (char_between "0" c "9"); [rewrite Hl by lia; reflexivity|].
  destruct (char_between "a" c "f"); [rewrite Hl by lia; reflexivity|].
  destruct (char_between "A" c "F"); [rewrite Hl by lia; reflexivity|].
  discriminate Hc.
Qed.

Lemma hex_chunk_value_value (chunk : list ascii) :
  forall v,
    forallb is_hex_digit chunk = true -> 0 <= v ->
    (v + 1) * 16 ^ Z.of_nat (length chunk) <= 2 ^ 64 ->
    hex_chunk_value chunk v = Ok (hex_value_from v chunk)
    /\ v * 16 ^ Z.of_nat (length chunk) <= hex_value_from v chunk
       < (v + 1) * 16 ^ Z.of_nat (length chunk).
Proof.
  induction chunk as [|c chunk IH]; intros v Hd Hv Hb.
  - cbn [hex_chunk_value hex_value_from length].
    change (16 ^ Z.of_nat 0) with 1. split; [reflexivity | lia].
  - cbn [forallb] in Hd. apply andb_true_iff in Hd. destruct Hd as [Hc Hd].
    pose proof (hex_digit_value_range c Hc) as Hr.
    cbn [length] in *. rewrite Nat2Z.inj_succ, Z.pow_succ_r in * by lia.
    assert (Hp : 0 < 16 ^ Z.of_nat (length chunk))
      by (apply Z.pow_pos_nonneg; lia).
    set (P := 16 ^ Z.of_nat (length chunk)) in *.
    assert (Hv60 : v < 2 ^ 60).
    { change (2 ^ 64) with (16 * 2 ^ 60) in Hb. nia. }
    cbn [hex_chunk_value hex_value_from].
    rewrite hex_char_step_value by (assumption || lia). cbn [bind].
    destruct (IH (16 * v + hex_digit_value c) Hd ltac:(lia)) as [E B].
    + fold P. nia.
    + fold P in B. split; [exact E|]. nia.
Qed.

Lemma hex_value_from_shift (l : list ascii) :
  forall v, hex_value_from v l = v * 16 ^ Z.of_nat (length l) + hex_value l.
Proof.
  unfold hex_value. induction l as [|c l IH]; intros v;
    cbn [hex_value_from length].
  - change (16 ^ Z.of_nat 0) with 1. lia.
  - rewrite (IH (16 * v + hex_digit_value c)), (IH (16 * 0 + hex_digit_value c)).
    rewrite Nat2Z.inj_succ, Z.pow_succ_r by lia. ring.
Qed.

Lemma hex_value_from_app (l1 l2 : list ascii) :
  forall v,
    hex_value_from v (l1 ++ l2) = hex_value_from (hex_value_from v l1) l2.
Proof.
  induction l1 as [|c l1 IH]; intros v; cbn [app hex_value_from];
    [reflexivity | apply IH].
Qed.

Lemma hex_value_app (l1 l2 : list ascii) :
  hex_value (l1 ++ l2)
  = hex_value l1 * 16 ^ Z.of_nat (length l2) + hex_value l2.
Proof.
  unfold hex_value at 1. rewrite hex_value_from_app.
  rewrite hex_value_from_shift. reflexivity.
Qed.

Lemma hex_chunks_value (n : nat) :
  forall (str : list ascii) (i : Z),
    0 <= i <= Z.of_nat (length str) -> i <= 16 * Z.of_nat n ->
    forallb is_hex_digit (firstn (Z.to_nat i) str) = true ->
    exists r,
      hex_chunks n str i = Ok r
      /\ eval r = hex_value (firstn (Z.to_nat i) str)
      /\ Forall is_word r
      /\ (0 < i -> r <> []).
Proof.
  induction n as [|n IH]; intros str i Hi Hn Hd.
  - assert (i = 0) by lia. subst i. exists []. cbn.
    repeat apply conj; try reflexivity; [constructor | lia].
  - cbn [hex_chunks]. destruct (Z.ltb_spec 0 i) as [Hpos|Hle].
    2:{ assert (i = 0) by lia. subst i. exists []. cbn.
        repeat apply conj; try reflexivity; [constructor | lia]. }
    set (start := Z.max 0 (i - 16)) in *.
    assert (Hsplit : Z.to_nat i
                     = (Z.to_nat start + Z.to_nat (i - start))%nat)
      by (subst start; lia).
    rewrite Hsplit, firstn_split, forallb_app in Hd.
    apply andb_true_iff in Hd. destruct Hd as [Hd1 Hd2].
    rewrite Hsplit, firstn_split, hex_value_app.
    unfold substr.
    set (chunk := firstn (Z.to_nat (i - start)) (skipn (Z.to_nat start) str))
      in *.
    assert (Hclen : length chunk = Z.to_nat (i - start)).
    { unfold chunk. rewrite length_firstn, length_skipn. lia. }
    assert (Hc16 : (length chunk <= 16)%nat) by (subst start; lia).
    destruct (hex_chunk_value_value chunk 0 Hd2 ltac:(lia)) as [E B].
    { rewrite Z.add_0_l, Z.mul_1_l.
      change (2 ^ 64) with (16 ^ 16). apply Z.pow_le_mono_r; lia. }
    rewrite E. cbn [bind]. fold (hex_value chunk) in *.
    assert (Hw : is_word (hex_value chunk)).
    { unfold is_word. rewrite Z.mul_0_l, Z.add_0_l, Z.mul_1_l in B.
      assert (16 ^ Z.of_nat (length chunk) <= 16 ^ 16)
        by (apply Z.pow_le_mono_r; lia).
      change (2 ^ 64) with (16 ^ 16). lia. }
    destruct (Z.le_gt_cases i 16) as [Hsmall|Hbig].
    + rewrite hex_chunks_done by lia. cbn [bind].
      exists [hex_value chunk].
      replace (Z.to_nat start) with 0%nat by (subst start; lia).
      cbn [firstn eval]. change (hex_value []) with 0.
      repeat apply conj; try reflexivity; try lia.
      * constructor; [exact Hw | constructor].
      * discriminate.
    + assert (Hst : start = i - 16) by (subst start; lia).
      destruct (IH str (i - 16) ltac:(lia) ltac:(lia)) as (r & Er & Vr & Wr & _).
      { rewrite <- Hst. exact Hd1. }
      rewrite Er. cbn [bind]. exists (hex_value chunk :: r).
      repeat apply conj; try reflexivity.
      * cbn [eval]. rewrite Vr, <- Hst, Hclen.
        replace (Z.of_nat (Z.to_nat (i - start))) with 16 by lia.
        change (16 ^ 16) with (2 ^ 64). ring.
      * constructor; assumption.
      * discriminate.
Qed.

Lemma fromHexString_spec (neg prefixed : bool) (body : list ascii) :
  forallb is_hex_digit body = true ->
  exists a,
    fromHexString
      (string_of_list_ascii
         ((if neg then ["-"%char] else [])
          ++ (if prefixed then ["0"%char; "x"%char] else []) ++ body))
    = Ok a
    /\ canonical a
    /\ value a = (if neg then - hex_value body else hex_value body).
Proof.
  intros Hd.
  set (sign := if neg then ["-"%char] else []).
  set (prefix := if prefixed then ["0"%char; "x"%char] else []).
  assert (Hstrip : strip_0x (strip_sign (sign ++ prefix ++ body)) = body).
  { apply strip_of_format; [| |exact Hd].
    - unfold sign. destruct neg; auto.
    - unfold prefix. destruct prefixed; auto. }
  assert (Hzero : canonical (BigNum_of_int64 0)
                  /\ value (BigNum_of_int64 0) = 0).
  { split; [apply canonical_b_sound|]; reflexivity. }
  rewrite fromHexString_unfold, list_ascii_of_string_of_list_ascii.
  cbv zeta. rewrite Hstrip.
  destruct (sign ++ prefix ++ body) as [|c0 rest] eqn:El.
  - exists (BigNum_of_int64 0). destruct neg; [discriminate El|].
    destruct prefixed; [discriminate El|]. cbn [app] in El. subst body.
    split; [reflexivity | exact Hzero].
  - assert (Hneg : Ascii.eqb c0 "-" = neg).
    { unfold sign, prefix in El.
      destruct neg; cbn [app] in El; [injection El as <- _; reflexivity|].
      destruct prefixed; cbn [app] in El; [injection El as <- _; reflexivity|].
      subst body. cbn [forallb] in Hd. apply andb_true_iff in Hd.
      apply hex_digit_not_minus, Hd. }
    destruct body as [|c body'] eqn:Eb.
    + exists (BigNum_of_int64 0). split; [reflexivity|].
      change (hex_value []) with 0. destruct neg; exact Hzero.
    + rewrite <- Eb in *.
      destruct (hex_chunks_value (length body) body (Z.of_nat (length body)))
        as (r & Er & Vr & Wr & Nr); try lia.
      { rewrite Nat2Z.id, firstn_all. exact Hd. }
      rewrite Nat2Z.id, firstn_all in Vr.
      rewrite Er. cbn [bind]. rewrite Hneg.
      exists (BigNum_of_digits r neg). split; [reflexivity|].
      split.
      * apply BigNum_of_digits_canonical; [|exact Wr].
        apply Nr. rewrite Eb. cbn [length]. lia.
      * rewrite value_BigNum_of_digits, Vr. reflexivity.
Qed.

End HexInput.

(** ** Byte arrays *)

(** X25.  [fromByteArray] reads a sequence of bytes as a big-endian
    number: the result is canonical and its value is the number the bytes
    stand for, leading zero bytes included. *)
Theorem fromByteArray_value (bytes : list Z) :
  Forall is_byte bytes ->
  value (fromByteArray bytes) = be_value bytes
  /\ canonical (fromByteArray bytes).
Proof. apply fromByteArray_spec. Qed.

Lemma fromByteArray_value_witness :
  value (fromByteArray [0; 1; 2; 3; 4; 5; 6; 7; 8; 255])
  = be_value [0; 1; 2; 3; 4; 5; 6; 7; 8; 255]
  /\ canonical (fromByteArray [0; 1; 2; 3; 4; 5; 6; 7; 8; 255]).
Proof.
  apply (fromByteArray_value [0; 1; 2; 3; 4; 5; 6; 7; 8; 255]).
  repeat constructor; unfold is_byte; lia.
Defined.

(** X26.  [toByteArray] writes the magnitude of a well-formed number as
    [byteLength] bytes, highest byte first; the sign is not written. *)
Theorem toByteArray_value (a : BigNum) :
  well_formed a ->
  be_value (toByteArray a) = magnitude a
  /\ Forall is_byte (toByteArray a)
  /\ Z.of_nat (length (toByteArray a)) = byteLength a.
Proof. apply toByteArray_spec. Qed.

Lemma toByteArray_value_witness :
  be_value (toByteArray (mkBigNum [513; 7] true))
  = magnitude (mkBigNum [513; 7] true)
  /\ Forall is_byte (toByteArray (mkBigNum [513; 7] true))
  /\ Z.of_nat (length (toByteArray (mkBigNum [513; 7] true)))
     = byteLength (mkBigNum [513; 7] true).
Proof.
  apply (toByteArray_value (mkBigNum [513; 7] true)).
  apply canonical_b_sound; vm_compute; reflexivity.
Defined.

(** X27.  The byte round trip returns the absolute value: for a canonical
    [a], [fromByteArray (toByteArray a)] is [a] when [a] is not negative
    and [-a] when it is. *)
Theorem byte_round_trip_is_abs (a : BigNum) :
  canonical a ->
  fromByteArray (toByteArray a)
  = (if negative a then operator_neg a else a).
Proof.
  intros Ca. destruct (byte_round_trip_value a (proj1 Ca)) as [V C].
  apply canonical_eq; [exact C | |].
  - destruct (negative a); [apply operator_neg_canonical|]; exact Ca.
  - rewrite V. destruct (negative a) eqn:Hn.
    + rewrite operator_neg_value. unfold value. rewrite Hn. lia.
    + unfold value. rewrite Hn. reflexivity.
Qed.

Lemma byte_round_trip_is_abs_witness :
  fromByteArray (toByteArray (mkBigNum [513; 7] true))
  = operator_neg (mkBigNum [513; 7] true).
Proof.
  apply (byte_round_trip_is_abs (mkBigNum [513; 7] true)).
  apply canonical_b_sound; vm_compute; reflexivity.
Defined.

(** ** Reading hex strings *)

(** X28.  On an optional ['-'], an optional ["0x"] and hex digits of
    either case, [fromHexString] returns the canonical number whose value
    is the number the digits stand for, negated after a ['-']; no digits
    give zero. *)
Theorem fromHexString_value (neg prefixed : bool) (body : list ascii) :
  forallb is_hex_digit body = true ->
  exists a,
    fromHexString
      (string_of_list_ascii
         ((if neg then ["-"%char] else [])
          ++ (if prefixed then ["0"%char; "x"%char] else []) ++ body))
    = Ok a
    /\ canonical a
    /\ value a = (if neg then - hex_value body else hex_value body).
Proof. apply fromHexString_spec. Qed.

Lemma fromHexString_value_witness :
  exists a,
    fromHexString "-0x1fFfffffffffffffff0A" = Ok a
    /\ canonical a
    /\ value a
       = - hex_value (list_ascii_of_string "1fFfffffffffffffff0A").
Proof.
  apply (fromHexString_value true true
           (list_ascii_of_string "1fFfffffffffffffff0A")).
  reflexivity.
Defined.

(** ** Predicates *)

(** X29.  On every well-formed number, a zero with the sign flag set
    included, [isZero], [isOne] and [isNegative] say whether the value is
    0, is 1, is below 0. *)
Theorem predicates_agree_with_value (a : BigNum) :
  well_formed a ->
  isZero a = (value a =? 0)
  /\ isOne a = (value a =? 1)
  /\ isNegative a = (value a <? 0).
Proof.
  intros Ha. pose proof Ha as (Hne & Hw & Htop).
  pose proof (eval_bound _ Hw) as B. fold (magnitude a) in B.
  assert (Hz : isZero a = (magnitude a =? 0)).
  { destruct (Z.eqb_spec (magnitude a) 0) as [E|E].
    - apply well_formed_zero; assumption.
    - destruct (isZero a) eqn:Hz; [|reflexivity].
      apply isZero_magnitude in Hz. contradiction. }
  assert (H1 : match digits a with [d] => d =? 1 | _ => false end
               = (magnitude a =? 1)).
  { destruct (Nat.ltb_spec 1 (size a)) as [Hs|Hs].
    - pose proof (well_formed_lower_bound a Ha Hs) as L.
      pose proof (wpow_le 1 (size a - 1) ltac:(lia)) as L1.
      change (wpow 1) with (2 ^ 64) in L1.
      unfold size in Hs.
      destruct (digits a) as [|d [|d' l]]; cbn [length] in Hs; lia.
    - unfold size, magnitude in *.
      destruct (digits a) as [|d [|d' l]]; cbn [length] in Hs;
        [congruence | | lia].
      cbn [eval]. rewrite Z.mul_0_r, Z.add_0_r. reflexivity. }
  unfold isOne, isNegative. rewrite H1, Hz. unfold value.
  destruct (negative a); cbn [negb andb].
  - repeat apply conj.
    + destruct (Z.eqb_spec (magnitude a) 0), (Z.eqb_spec (- magnitude a) 0);
        try reflexivity; lia.
    + symmetry. apply Z.eqb_neq. lia.
    + destruct (Z.eqb_spec (magnitude a) 0), (Z.ltb_spec (- magnitude a) 0);
        try reflexivity; lia.
  - repeat apply conj; try reflexivity.
    symmetry. apply Z.ltb_ge. lia.
Qed.

Lemma predicates_agree_with_value_witness :
  isZero (mkBigNum [0] true) = (value (mkBigNum [0] true) =? 0)
  /\ isOne (mkBigNum [0] true) = (value (mkBigNum [0] true) =? 1)
  /\ isNegative (mkBigNum [0] true) = (value (mkBigNum [0] true) <? 0).
Proof.
  apply (predicates_agree_with_value (mkBigNum [0] true)).
  unfold well_formed, size. cbn [digits length last].
  repeat apply conj; [discriminate | | lia].
  constructor; [unfold is_word; lia | constructor].
Defined.

(** ** Division of a smaller number *)

(** X30.  For canonical numbers [0 <= a < b] of any length, [a / b] is
    zero and [a % b] is [a], whatever the fuel: [divideUnsigned] returns
    before its loops. *)
Theorem division_of_smaller (fuel : nat) (a b : BigNum) :
  canonical a -> canonical b -> 0 <= value a < value b ->
  operator_div fuel a b = Ok zero /\ operator_mod fuel a b = Ok a.
Proof.
  intros Ca Cb Hab.
  assert (Hz : isZero b = false).
  { destruct (isZero b) eqn:E; [|reflexivity].
    apply isZero_magnitude in E. unfold value in Hab. rewrite E in Hab.
    destruct (negative b); lia. }
  assert (Hc : (compare a b <? 0) = true).
  { rewrite (compare_spec a b Ca Cb). unfold sign_of_comparison.
    destruct (Z.ltb_spec (value a) (value b)); [reflexivity | lia]. }
  unfold operator_div, operator_mod, divideUnsigned.
  rewrite Hz, Hc. cbn [bind fst snd]. split.
  - destruct (xorb (negative a) (negative b)); reflexivity.
  - f_equal. apply (BigNum_of_digits_id a Ca).
Qed.

Lemma division_of_smaller_witness :
  operator_div 0 (mkBigNum [5; 1] false) (mkBigNum [4; 2; 9] false) = Ok zero
  /\ operator_mod 0 (mkBigNum [5; 1] false) (mkBigNum [4; 2; 9] false)
     = Ok (mkBigNum [5; 1] false).
Proof.
  apply (division_of_smaller 0 (mkBigNum [5; 1] false)
           (mkBigNum [4; 2; 9] false)).
  - apply canonical_b_sound; vm_compute; reflexivity.
  - apply canonical_b_sound; vm_compute; reflexivity.
  - vm_compute. split; [discriminate | reflexivity].
Defined.
